(** * Realtime audio bridge of [index.tsx]: a shallow embedding

    The development follows the live-audio part of [src/index.tsx]:
    the base64 helpers [decode] / [encode], the PCM helpers
    [createBlob] / [decodeAudioData], and the life cycle of
    [LiveAudioComponent] ([startSession], [cleanup] and the session
    callbacks).  It then covers the state machines of four tools of the
    same file: [CinemaTool.generate], [EditorTool.edit],
    [ScoutTool.search] and [CharacterImage.generate], each in a module
    of its own, with the answers of the host passed in as arguments.

    Conventions.
    - A JavaScript string is the list of its UTF-16 code units ([N]).
    - A [Uint8Array] is a [list byte]; an [Int16Array] is a [list Z]
      whose elements were produced by [ToInt16]; a [Float32Array] is a
      [list Number].
    - A finite [Number] is represented by its exact rational value.  The
      only arithmetic of the audio path is a multiplication and a
      division by [32768 = 2^15]; both only move the binary exponent, so
      they are exact on every binary32 sample, and the rational model
      agrees with IEEE-754 there (lemmas [Nmul_binary64] and
      [Ndiv_binary64] below).  Signed zeros are not distinguished
      ([ToInt16] maps both to [0]).
    - A time ([currentTime], [AudioBuffer.duration], [nextStartTime])
      is a binary64 value as well, represented by the rational it
      denotes.  The quotient and the sum that the scheduling code stores
      are not exact: each is the binary64 datum nearest to the exact
      result, ties to even, which [binary64] computes.
    - A typed-array view shares the bytes of its buffer in platform
      order; the little-endian order of every browser platform is used. *)

From Stdlib Require Import ZArith NArith QArith Qround Qabs Qminmax Qpower.
From Stdlib Require Import Bool List Sorted Lia Lqa ZifyNat.
From Stdlib Require Import Ascii String.
From Stdlib.Strings Require Import Byte.
From Stdlib Require SpecFloat.
Import ListNotations.

Local Open Scope Z_scope.

(** ** Exceptions and abrupt completion *)

Inductive Exn : Type :=
| InvalidCharacterError   (* atob / btoa *)
| RangeError              (* typed-array construction *)
| NotSupportedError       (* AudioContext / createBuffer *)
| NotAllowedError         (* getUserMedia refused *)
| NetworkError            (* live.connect rejected, session error *)
| TypeError.

Inductive result (A : Type) : Type :=
| Ok (a : A)
| Throw (e : Exn).
Arguments Ok {A} a.
Arguments Throw {A} e.

Definition rbind {A B : Type} (r : result A) (k : A -> result B) : result B :=
  match r with
  | Ok a => k a
  | Throw e => Throw e
  end.

Notation "'try!' x ':=' r 'in' k" := (rbind r (fun x => k))
  (at level 10, x name, r at level 100, k at level 200).

(** ** Strings and bytes *)

Definition jsstring : Type := list N.

(** [String.fromCharCode(bytes[i])] for an element of a [Uint8Array]. *)
Definition fromCharCode (b : byte) : N := Byte.to_N b.

(** Storing a number into a [Uint8Array] element: reduction modulo 256. *)
Definition ToUint8 (n : N) : byte :=
  match Byte.of_N (n mod 256) with
  | Some b => b
  | None => x00
  end.

(** The code units of an ASCII literal. *)
Definition js (s : string) : jsstring :=
  List.map N_of_ascii (list_ascii_of_string s).

(** ** The host functions [btoa] and [atob]
    (forgiving-base64 encode and decode of the WHATWG Infra standard) *)

Module Base64.

Definition alphabet : string :=
  "ABCDEFGHIJKLMNOPQRSTUVWXYZabcdefghijklmnopqrstuvwxyz0123456789+/".

Definition codes : list N := List.map N_of_ascii (list_ascii_of_string alphabet).

Definition pad : N := 61%N.

Definition char_of (sextet : N) : N := nth (N.to_nat sextet) codes 0%N.

Fixpoint index_from (c : N) (l : list N) (i : N) : option N :=
  match l with
  | [] => None
  | x :: l' => if (c =? x)%N then Some i else index_from c l' (N.succ i)
  end.

Definition index_of (c : N) : option N := index_from c codes 0%N.

(** Groups of three bytes become four sextets; a final group of one or
    two bytes is completed with zero bits and padded with [=]. *)
Fixpoint encode_bytes (l : list N) : list N :=
  (match l with
   | [] => []
   | [a] =>
       let n := a * 16 in
       [char_of (n / 64); char_of (n mod 64); pad; pad]
   | [a; b] =>
       let n := (a * 256 + b) * 4 in
       [char_of (n / 4096); char_of (n / 64 mod 64); char_of (n mod 64); pad]
   | a :: b :: c :: rest =>
       let n := (a * 256 + b) * 256 + c in
       char_of (n / 262144) :: char_of (n / 4096 mod 64)
         :: char_of (n / 64 mod 64) :: char_of (n mod 64)
         :: encode_bytes rest
   end)%N.

Definition is_whitespace (c : N) : bool :=
  ((c =? 9) || (c =? 10) || (c =? 12) || (c =? 13) || (c =? 32))%N.

(** Step 2 of the decoder: when the length is a multiple of four, one
    or two trailing [=] are removed. *)
Definition strip_padding (l : list N) : list N :=
  if (List.length l mod 4 =? 0)%nat then
    match rev l with
    | c1 :: r1 =>
        if (c1 =? pad)%N then
          match r1 with
          | c2 :: r2 => if (c2 =? pad)%N then rev r2 else rev r1
          | [] => rev r1
          end
        else l
    | [] => l
    end
  else l.

(** Step 4 and the table lookup: every code point must be in the
    alphabet. *)
Fixpoint sextets (l : list N) : option (list N) :=
  match l with
  | [] => Some []
  | c :: l' =>
      match index_of c, sextets l' with
      | Some i, Some r => Some (i :: r)
      | _, _ => None
      end
  end.

(** Steps 5 to 8: 24-bit groups give three bytes; a remainder of 12
    bits gives one byte and a remainder of 18 bits gives two, the
    surplus low bits being discarded. *)
Fixpoint decode_sextets (l : list N) : list N :=
  (match l with
   | s1 :: s2 :: s3 :: s4 :: rest =>
       let n := ((s1 * 64 + s2) * 64 + s3) * 64 + s4 in
       (n / 65536) :: (n / 256 mod 256) :: (n mod 256) :: decode_sextets rest
   | [s1; s2; s3] =>
       let n := ((s1 * 64 + s2) * 64 + s3) / 4 in
       [n / 256; n mod 256]
   | [s1; s2] =>
       let n := (s1 * 64 + s2) / 16 in
       [n]
   | _ => []
   end)%N.

(** The output of the encoder, split for the proofs into the sextets
    it writes and the padding that follows them. *)
Fixpoint sextets_of (l : list N) : list N :=
  (match l with
   | [] => []
   | [a] => let n := a * 16 in [n / 64; n mod 64]
   | [a; b] =>
       let n := (a * 256 + b) * 4 in [n / 4096; n / 64 mod 64; n mod 64]
   | a :: b :: c :: rest =>
       let n := (a * 256 + b) * 256 + c in
       (n / 262144) :: (n / 4096 mod 64) :: (n / 64 mod 64) :: (n mod 64)
         :: sextets_of rest
   end)%N.

Fixpoint pads_of (l : list N) : list N :=
  match l with
  | [] => []
  | [_] => [pad; pad]
  | [_; _] => [pad]
  | _ :: _ :: _ :: rest => pads_of rest
  end.

(** What one entry of the table has to satisfy. *)
Definition table_ok (s : N) : bool :=
  match index_of (char_of s) with
  | Some i => (i =? s)%N
  | None => false
  end && negb (char_of s =? pad)%N && negb (is_whitespace (char_of s)).

Definition atob (data : jsstring) : result jsstring :=
  let data := filter (fun c => negb (is_whitespace c)) data in
  let data := strip_padding data in
  if (List.length data mod 4 =? 1)%nat then Throw InvalidCharacterError
  else
    match sextets data with
    | None => Throw InvalidCharacterError
    | Some s => Ok (decode_sextets s)
    end.

Definition btoa (data : jsstring) : result jsstring :=
  if forallb (fun c => (c <=? 255)%N) data then Ok (encode_bytes data)
  else Throw InvalidCharacterError.

(** Vocabulary of the proofs about the two functions. *)
Definition is_byte (n : N) : Prop := (n < 256)%N.
Definition is_sextet (n : N) : Prop := (n < 64)%N.

(** The three shapes of an encoder output. *)
Inductive shape (l : list N) : Prop :=
| shape_full (k : nat) :
    List.length (sextets_of l) = (4 * k)%nat -> pads_of l = [] -> shape l
| shape_one (k : nat) :
    List.length (sextets_of l) = (4 * k + 3)%nat -> pads_of l = [pad] -> shape l
| shape_two (k : nat) :
    List.length (sextets_of l) = (4 * k + 2)%nat -> pads_of l = [pad; pad] ->
    shape l.

Definition unpadded (body : list N) : Prop :=
  Forall (fun c => (c =? pad)%N = false) body.

End Base64.

(** ** [decode] and [encode] (index.tsx, lines 81-98) *)

Definition decode (base64 : jsstring) : result (list byte) :=
  try! binaryString := Base64.atob base64 in
  Ok (List.map ToUint8 binaryString).

Definition encode (bytes : list byte) : result jsstring :=
  Base64.btoa (List.map fromCharCode bytes).

(** ** Numbers *)

Inductive Number : Type :=
| Finite (q : Q)
| NaN
| PosInfinity
| NegInfinity.

Definition Qneg (q : Q) : bool := (Qnum q <? 0)%Z.

Definition infinity (negative : bool) : Number :=
  if negative then NegInfinity else PosInfinity.

(** The product [x * y] of two Numbers.  Overflow of a finite product is
    out of reach of a binary32 sample times 32768 and is not modelled. *)
Definition Nmul (x y : Number) : Number :=
  match x, y with
  | NaN, _ | _, NaN => NaN
  | Finite a, Finite b => Finite (a * b)
  | Finite a, PosInfinity | PosInfinity, Finite a =>
      if Qeq_bool a 0 then NaN else infinity (Qneg a)
  | Finite a, NegInfinity | NegInfinity, Finite a =>
      if Qeq_bool a 0 then NaN else infinity (negb (Qneg a))
  | PosInfinity, PosInfinity | NegInfinity, NegInfinity => PosInfinity
  | PosInfinity, NegInfinity | NegInfinity, PosInfinity => NegInfinity
  end.

(** The mathematical function [truncate] of ECMAScript: [-floor(-x)] for
    a negative [x], [floor(x)] otherwise. *)
Definition truncate (q : Q) : Z :=
  if Qneg q then - Qfloor (- q) else Qfloor q.

(** [ToInt16], the conversion applied when a Number is stored into an
    [Int16Array] element. *)
Definition ToInt16 (x : Number) : Z :=
  match x with
  | Finite q =>
      let int := truncate q in
      let int16bit := int mod 65536 in
      if 32768 <=? int16bit then int16bit - 65536 else int16bit
  | _ => 0
  end.

(** *** IEEE-754 binary64, for comparison

    [SpecFloat] is the Standard Library's executable specification of
    IEEE-754 arithmetic.  It is used to check that the rational model of
    the two scalings is what binary64 arithmetic computes. *)

(** [32768.0]: mantissa [2^52], exponent [-37]. *)
Definition two15 : SpecFloat.spec_float :=
  SpecFloat.S754_finite false 4503599627370496 (-37).

Definition binary64_mul : SpecFloat.spec_float -> SpecFloat.spec_float -> SpecFloat.spec_float :=
  SpecFloat.SFmul 53 1024.

Definition binary64_div : SpecFloat.spec_float -> SpecFloat.spec_float -> SpecFloat.spec_float :=
  SpecFloat.SFdiv 53 1024.

(** The Number that a binary64 datum denotes. *)
Definition Number_of_binary64 (x : SpecFloat.spec_float) : Number :=
  match x with
  | SpecFloat.S754_zero _ => Finite 0
  | SpecFloat.S754_infinity s => infinity s
  | SpecFloat.S754_nan => NaN
  | SpecFloat.S754_finite s m e =>
      Finite (inject_Z (if s then Zneg m else Zpos m) * 2 ^ e)
  end.

(** A zero, an infinity, a NaN, or a normal number whose exponent is at
    least 15 binades away from both ends of the range.  Every binary32
    value, read as a binary64 as JavaScript does, is of this kind, and
    so is every 16-bit integer. *)
Definition scalable (x : SpecFloat.spec_float) : Prop :=
  match x with
  | SpecFloat.S754_finite _ m e =>
      SpecFloat.digits2_pos m = 53%positive /\ -1058 <= e <= 956
  | _ => True
  end.

Definition same_number (x y : Number) : Prop :=
  match x, y with
  | Finite a, Finite b => (a == b)%Q
  | NaN, NaN | PosInfinity, PosInfinity | NegInfinity, NegInfinity => True
  | _, _ => False
  end.

(** [v / 32768.0] on Numbers, for a finite dividend. *)
Definition Ndiv_two15 (x : Number) : Number :=
  match x with
  | Finite q => Finite (q / 32768)
  | other => other
  end.

(** *** Rounding to binary64

    The result of an arithmetic operation on Numbers is the binary64
    datum nearest to the exact result, ties going to the datum whose
    last bit is zero.  A datum has 53 significant bits, and its unit in
    the last place is no smaller than [2^-1074] (the subnormal numbers).
    A result of magnitude [2^1024 - 2^970] or more becomes an infinity:
    no reading of a clock in seconds and no sum of such a reading and
    the duration of an array is that large, and this case is not
    modelled. *)

(** The binade of a positive rational: the [e] with
    [2^e <= x < 2^(e+1)]. *)
Definition binade (x : Q) : Z :=
  let e := Z.log2 (Qnum x) - Z.log2 (Zpos (Qden x)) in
  if Qle_bool (2 ^ e) x then e else e - 1.

(** Rounding to the nearest integer, ties to even. *)
Definition round_half_even (x : Q) : Z :=
  let f := Qfloor x in
  match (x - inject_Z f ?= 1 # 2)%Q with
  | Lt => f
  | Gt => f + 1
  | Eq => if Z.even f then f else f + 1
  end.

(** The exponent of the unit in the last place of the binary64 data of
    the magnitude of [x]. *)
Definition ulp_exponent (x : Q) : Z := Z.max (binade x - 52) (-1074).

Definition round_magnitude (x : Q) : Q :=
  if Qeq_bool x 0 then 0%Q
  else
    let u := ulp_exponent x in
    (inject_Z (round_half_even (x / 2 ^ u)) * 2 ^ u)%Q.

Definition binary64 (x : Q) : Q :=
  if Qneg x then (- round_magnitude (- x))%Q else round_magnitude x.

(** The rationals that are binary64 data. *)
Definition is_binary64 (x : Q) : Prop := (binary64 x == x)%Q.

(** The unit in the last place at [x]. *)
Definition ulp (x : Q) : Q := (2 ^ ulp_exponent (Qabs x))%Q.

(** The same operations in [SpecFloat], for comparison. *)
Definition binary64_add : SpecFloat.spec_float -> SpecFloat.spec_float -> SpecFloat.spec_float :=
  SpecFloat.SFadd 53 1024.

Definition binary64_of_Z (n : Z) : SpecFloat.spec_float :=
  SpecFloat.binary_normalize 53 1024 n 0 false.

(** Whether the rounding of the exact sum, and of the exact quotient, of
    two binary64 data is the datum that [SpecFloat] computes. *)
Definition sum_agrees (xy : SpecFloat.spec_float * SpecFloat.spec_float) : bool :=
  match Number_of_binary64 (binary64_add (fst xy) (snd xy)),
        Number_of_binary64 (fst xy), Number_of_binary64 (snd xy) with
  | Finite r, Finite a, Finite b => Qeq_bool r (binary64 (a + b))
  | _, _, _ => false
  end.

Definition quotient_agrees (xy : SpecFloat.spec_float * SpecFloat.spec_float) : bool :=
  match Number_of_binary64 (binary64_div (fst xy) (snd xy)),
        Number_of_binary64 (fst xy), Number_of_binary64 (snd xy) with
  | Finite r, Finite a, Finite b => Qeq_bool r (binary64 (a / b))
  | _, _, _ => false
  end.

(** Pairs of binary64 data: times and durations of the examples,
    numbers of either sign and of different magnitudes, subnormal
    numbers. *)
Definition sample_sums : list (SpecFloat.spec_float * SpecFloat.spec_float) :=
  [(SpecFloat.S754_finite false 4503599627370496 (-54),
    SpecFloat.S754_finite false 6148914691236517 (-67));
   (SpecFloat.S754_finite false 4503599627370496 (-52),
    SpecFloat.S754_finite false 6148914691236517 (-67));
   (SpecFloat.S754_finite false 4503599627370496 (-48),
    SpecFloat.S754_finite false 4611686018427388 (-64));
   (SpecFloat.S754_finite false 7205759403792794 (-56),
    SpecFloat.S754_finite false 7205759403792794 (-55));
   (SpecFloat.S754_finite false 5000000000000000 (1),
    SpecFloat.S754_finite false 4503599627370496 (-52));
   (SpecFloat.S754_finite true 5404319552844595 (-54),
    SpecFloat.S754_finite false 7205759403792794 (-56));
   (SpecFloat.S754_finite false 8483885939586761 (-36),
    SpecFloat.S754_finite true 4611686018427388 (-62));
   (SpecFloat.S754_finite false 3 (-1074),
    SpecFloat.S754_finite false 4503599627370495 (-1074));
   (SpecFloat.S754_finite false 4503599627370496 (-1074),
    SpecFloat.S754_finite true 3 (-1074));
   (SpecFloat.S754_finite false 7881299347898368 (-51),
    SpecFloat.S754_finite false 6148914691236517 (-55));
   (SpecFloat.S754_finite false 6724873095247260 (944),
    SpecFloat.S754_finite false 6057227193173887 (891))].

Definition sample_quotients : list (SpecFloat.spec_float * SpecFloat.spec_float) :=
  [(SpecFloat.S754_finite false 4503599627370496 (-52),
    SpecFloat.S754_finite false 6597069766656000 (-38));
   (SpecFloat.S754_finite false 6755399441055744 (-50),
    SpecFloat.S754_finite false 6597069766656000 (-38));
   (SpecFloat.S754_finite false 4503599627370496 (-40),
    SpecFloat.S754_finite false 6597069766656000 (-38));
   (SpecFloat.S754_finite false 4503599627370496 (-52),
    SpecFloat.S754_finite false 6755399441055744 (-51));
   (SpecFloat.S754_finite true 7881299347898368 (-50),
    SpecFloat.S754_finite false 5629499534213120 (-49));
   (SpecFloat.S754_finite false 3 (-1074),
    SpecFloat.S754_finite false 6755399441055744 (-51));
   (SpecFloat.S754_finite false 16 (-1074),
    SpecFloat.S754_finite false 5629499534213120 (-50))].

(** ** Typed-array views over one buffer *)

(** The two bytes of a 16-bit element. *)
Definition int16_bytes (v : Z) : list byte :=
  let u := v mod 65536 in
  [ToUint8 (Z.to_N (u mod 256)); ToUint8 (Z.to_N (u / 256))].

(** [new Uint8Array(int16.buffer)] *)
Definition Uint8Array_of_Int16 (int16 : list Z) : list byte :=
  flat_map int16_bytes int16.

Definition int16_of_pair (lo hi : byte) : Z :=
  let u := Z.of_N (Byte.to_N lo) + 256 * Z.of_N (Byte.to_N hi) in
  if 32768 <=? u then u - 65536 else u.

Fixpoint int16_elements (l : list byte) : list Z :=
  match l with
  | lo :: hi :: r => int16_of_pair lo hi :: int16_elements r
  | _ => []
  end.

(** [new Int16Array(data.buffer)]: the byte length of the buffer must be
    a multiple of the element size. *)
Definition Int16Array_of_buffer (buffer : list byte) : result (list Z) :=
  if Nat.even (List.length buffer) then Ok (int16_elements buffer)
  else Throw RangeError.

(** ** [createBlob] (index.tsx, lines 113-123) *)

Record Blob : Type := { data : jsstring; mimeType : string }.

Definition createBlob (samples : list Number) : result Blob :=
  let int16 := List.map (fun x => ToInt16 (Nmul x (Finite 32768))) samples in
  try! d := encode (Uint8Array_of_Int16 int16) in
  Ok {| data := d; mimeType := "audio/pcm;rate=16000" |}.

(** ** [decodeAudioData] (index.tsx, lines 100-111) *)

Record AudioBuffer : Type := {
  numberOfChannels : nat;
  frames : nat;                    (* AudioBuffer.length *)
  sampleRate : Q;
  channelData : list (list Number)
}.

(** [AudioBuffer.duration]: the length divided by the sample rate, a
    binary64 quotient. *)
Definition duration (b : AudioBuffer) : Q :=
  binary64 (inject_Z (Z.of_nat (frames b)) / sampleRate b).

(** [ctx.createBuffer]: the Web Audio API rejects a channel count, a
    length or a sample rate that is zero or negative with
    [NotSupportedError]; the returned buffer is silent.  Upper limits are
    implementation defined and not modelled (one channel at 24 kHz is
    within every implementation's range). *)
Definition createBuffer (numChannels frameCount : nat) (rate : Q)
  : result AudioBuffer :=
  if (numChannels =? 0)%nat || (frameCount =? 0)%nat || Qle_bool rate 0
  then Throw NotSupportedError
  else Ok {| numberOfChannels := numChannels;
             frames := frameCount;
             sampleRate := rate;
             channelData := repeat (repeat (Finite 0) frameCount) numChannels |}.

(** [dataInt16[k] / 32768.0]; reading past the end gives [undefined],
    whose quotient is [NaN]. *)
Definition sample_at (dataInt16 : list Z) (k : nat) : Number :=
  match nth_error dataInt16 k with
  | Some v => Finite (inject_Z v / 32768)
  | None => NaN
  end.

(** [frameCount] is [dataInt16.length / numChannels]; when the quotient
    is fractional [createBuffer] truncates it and the writes past the
    channel's end are ignored, so the whole part is what matters. *)
Definition decodeAudioData (bytes : list byte) (rate : Q) (numChannels : nat)
  : result AudioBuffer :=
  try! dataInt16 := Int16Array_of_buffer bytes in
  let frameCount := (List.length dataInt16 / numChannels)%nat in
  try! buffer := createBuffer numChannels frameCount rate in
  Ok {| numberOfChannels := numberOfChannels buffer;
        frames := frames buffer;
        sampleRate := sampleRate buffer;
        channelData :=
          List.map (fun channel =>
                 List.map (fun i => sample_at dataInt16 (i * numChannels + channel))
                     (seq 0 frameCount))
              (seq 0 numChannels) |}.

(** ** The send and receive helpers composed

    [createBlob] followed by the call made in [onmessage],
    [decodeAudioData(decode(audioData), outputCtx, 24000, 1)]. *)
Definition roundtrip (samples : list Number) : result AudioBuffer :=
  try! blob := createBlob samples in
  try! bytes := decode (data blob) in
  decodeAudioData bytes 24000 1.

(** The 16-bit values that a blob carries, read back the way the
    receiver reads them. *)
Definition pcm16_of_blob (blob : Blob) : result (list Z) :=
  try! bytes := decode (data blob) in
  Int16Array_of_buffer bytes.

(** The conversion in the words of the specification: "multiplying by
    32768 and truncating", then reduced modulo 2^16 into the signed
    16-bit range; no clamping. *)
Definition spec_pcm16 (x : Q) : Z :=
  let scaled := (x * 32768)%Q in
  let truncated := Z.quot (Qnum scaled) (Zpos (Qden scaled)) in
  (truncated + 32768) mod 65536 - 32768.

Definition is_int16 (v : Z) : Prop := -32768 <= v < 32768.

(** A sample of the normalized range [-1.0, 1.0]. *)
Definition normalized (x : Number) : Prop :=
  match x with
  | Finite q => (-1 <= q /\ q <= 1)%Q
  | _ => False
  end.

(** A sample that the 16-bit conversion does not wrap. *)
Definition representable (x : Number) : Prop :=
  match x with
  | Finite q => (-1 <= q /\ q < 1)%Q
  | _ => False
  end.

(** The decoded sample [y] is within one quantization step of [x]. *)
Definition within_one_step (x y : Number) : Prop :=
  match x, y with
  | Finite a, Finite b => (Qabs (b - a) <= 1 # 32768)%Q
  | _, _ => False
  end.

Definition is_zero (x : Number) : Prop :=
  match x with
  | Finite q => (q == 0)%Q
  | _ => False
  end.

(** The value stored for the 16-bit sample [v] by [decodeAudioData]. *)
Definition dequantize (v : Z) : Number := Finite (inject_Z v / 32768).

Definition pcm16 (samples : list Number) : list Z :=
  List.map (fun x => ToInt16 (Nmul x (Finite 32768))) samples.

(** ** [LiveAudioComponent] (index.tsx, lines 127-233)

    The component is a record of the variables that [setup] declares.
    The browser and the SDK are represented by the trace of the calls
    the component makes on them and by the outcomes they hand back:
    each handler below is one run-to-completion step of the event loop,
    and an [async] function is cut at its [await]s, the awaited outcome
    being the argument of the next piece.  Handles name the host
    objects.  The audio graph wiring touches none of the variables below
    and is left out; the volume meter, which only reads [isRecording],
    has a section of its own. *)

Definition handle : Type := nat.

(** [emits: ['speaking-start', 'error']] *)
Inductive Event : Type :=
| SpeakingStart
| ErrorEvent (e : Exn).

Inductive Effect : Type :=
| NewAudioContext (ctx : handle) (rate : Z)
| CtxClose (ctx : handle)
| GetUserMedia
| TrackStop (media : handle)
| LiveConnect
| SessionClose (s : handle)
| SendRealtimeInput (s : handle) (media : Blob)
| SendClientContent (s : handle)
| SourceStart (ctx : handle) (buffer : AudioBuffer) (when : Q)
| Emit (ev : Event)
| ConsoleError (e : Exn).

Record AudioContexts : Type := {
  input : option handle;
  output : option handle
}.

Record State : Type := mkState {
  isRecording : bool;
  audioContexts : AudioContexts;
  session : option handle;
  nextStartTime : Q;
  stream : option handle;
  effects : list Effect          (* oldest first *)
}.

(** The state that [setup] creates. *)
Definition setup : State :=
  {| isRecording := false;
     audioContexts := {| input := None; output := None |};
     session := None;
     nextStartTime := 0;
     stream := None;
     effects := [] |}.

(** *** Statements: state, exceptions that keep the state, [try]/[catch] *)

Definition M (A : Type) : Type := State -> result A * State.

Definition ret {A : Type} (a : A) : M A := fun st => (Ok a, st).

Definition bind {A B : Type} (m : M A) (k : A -> M B) : M B :=
  fun st =>
    match m st with
    | (Ok a, st') => k a st'
    | (Throw e, st') => (Throw e, st')
    end.

Definition lift {A : Type} (r : result A) : M A := fun st => (r, st).

Definition catch {A : Type} (m : M A) (handler : Exn -> M A) : M A :=
  fun st =>
    match m st with
    | (Ok a, st') => (Ok a, st')
    | (Throw e, st') => handler e st'
    end.

Notation "'let!' x ':=' m 'in' k" := (bind m (fun x => k))
  (at level 10, x name, m at level 100, k at level 200).
Notation "m ';;' k" := (bind m (fun _ => k))
  (at level 61, right associativity).

Definition get {A : Type} (field : State -> A) : M A := fun st => (Ok (field st), st).

Definition perform (e : Effect) : M unit :=
  fun st =>
    (Ok tt, mkState (isRecording st) (audioContexts st) (session st)
                    (nextStartTime st) (stream st) (effects st ++ [e])).

Definition set_isRecording (b : bool) : M unit :=
  fun st =>
    (Ok tt, mkState b (audioContexts st) (session st)
                    (nextStartTime st) (stream st) (effects st)).

Definition set_audioContexts (c : AudioContexts) : M unit :=
  fun st =>
    (Ok tt, mkState (isRecording st) c (session st)
                    (nextStartTime st) (stream st) (effects st)).

Definition set_session (s : option handle) : M unit :=
  fun st =>
    (Ok tt, mkState (isRecording st) (audioContexts st) s
                    (nextStartTime st) (stream st) (effects st)).

Definition set_nextStartTime (t : Q) : M unit :=
  fun st =>
    (Ok tt, mkState (isRecording st) (audioContexts st) (session st)
                    t (stream st) (effects st)).

Definition set_stream (m : option handle) : M unit :=
  fun st =>
    (Ok tt, mkState (isRecording st) (audioContexts st) (session st)
                    (nextStartTime st) m (effects st)).

(** [x?.f()]: the call is made only when [x] is set. *)
Definition optional_call (x : option handle) (f : handle -> Effect) : M unit :=
  match x with
  | Some h => perform (f h)
  | None => ret tt
  end.

Definition emit (ev : Event) : M unit := perform (Emit ev).

(** *** [cleanup] (lines 142-149), also exposed as [stopSession] *)

Definition cleanup : M unit :=
  set_isRecording false ;;
  let! s := get session in
  optional_call s SessionClose ;;
  let! m := get stream in
  optional_call m TrackStop ;;
  let! c := get audioContexts in
  optional_call (input c) CtxClose ;;
  optional_call (output c) CtxClose ;;
  set_session None.

(** *** [startSession] (lines 151-227)

    [new AudioContext(...)], [getUserMedia] and [live.connect] either
    hand back a fresh handle or fail; their outcomes are arguments. *)

Record Locals : Type := {
  inputCtx : handle;
  outputCtx : handle
}.

(** The [catch (err)] clause of [startSession]. *)
Definition startSession_catch (err : Exn) : M unit :=
  perform (ConsoleError err) ;;
  cleanup.

Definition construct (outcome : result handle) (rate : Z) : M handle :=
  let! ctx := lift outcome in
  perform (NewAudioContext ctx rate) ;;
  ret ctx.

(** From the call to the first [await].  The result is the closure that
    waits for the microphone, or [None] when the call is over. *)
Definition startSession (newInput newOutput : result handle) : M (option Locals) :=
  let! recording := get isRecording in
  if recording then ret None
  else
    catch
      (let! inputCtx := construct newInput 16000 in
       let! outputCtx := construct newOutput 24000 in
       set_audioContexts {| input := Some inputCtx; output := Some outputCtx |} ;;
       perform GetUserMedia ;;
       ret (Some {| inputCtx := inputCtx; outputCtx := outputCtx |}))
      (fun err => startSession_catch err ;; ret None).

(** From the settling of [getUserMedia] to the second [await].  The
    result tells whether the call now waits for the session. *)
Definition startSession_media (userMedia : result handle) : M bool :=
  catch
    (let! media := lift userMedia in
     set_stream (Some media) ;;
     perform LiveConnect ;;
     ret true)
    (fun err => startSession_catch err ;; ret false).

(** From the settling of [sessionPromise] to the end. *)
Definition startSession_session (connected : result handle) : M unit :=
  catch
    (let! s := lift connected in
     set_session (Some s))
    startSession_catch.

(** *** The session callbacks (lines 187-218) *)

(** [scriptProcessor.onaudioprocess], once [sessionPromise] has given
    the session [s]. *)
Definition onaudioprocess (s : handle) (inputData : list Number) : M unit :=
  let! pcmBlob := lift (createBlob inputData) in
  perform (SendRealtimeInput s pcmBlob).

Definition onopen : M unit :=
  set_isRecording true.

(** The initial turn, sent when [sessionPromise] gives the session. *)
Definition send_initialMessage (s : handle) : M unit :=
  perform (SendClientContent s).

(** A server message, as far as [onmessage] looks into it. *)
Record InlineData : Type := { inline_data : option jsstring }.
Record Part : Type := { inlineData : option InlineData }.
Record Content : Type := { parts : option (list Part) }.
Record ServerContent : Type := { modelTurn : option Content }.
Record LiveServerMessage : Type := { serverContent : option ServerContent }.

Definition opt {A B : Type} (x : option A) (f : A -> option B) : option B :=
  match x with
  | Some a => f a
  | None => None
  end.

(** [msg.serverContent?.modelTurn?.parts?.[0]?.inlineData?.data] *)
Definition audioData_of (msg : LiveServerMessage) : option jsstring :=
  opt (serverContent msg) (fun sc =>
  opt (modelTurn sc) (fun turn =>
  opt (parts turn) (fun ps =>
  opt (nth_error ps 0) (fun part =>
  opt (inlineData part) inline_data)))).

(** [if (audioData)]: set and not the empty string. *)
Definition truthy (audioData : option jsstring) : bool :=
  match audioData with
  | Some (_ :: _) => true
  | _ => false
  end.

(** [onmessage] up to its [await].  [currentTime] is the reading of
    [outputCtx.currentTime].  [decodeAudioData] has no [await] of its
    own, so its body runs here; what it returns or throws is delivered
    when the handler resumes. *)
Definition onmessage_begin (msg : LiveServerMessage) (currentTime : Q)
  : M (option AudioBuffer) :=
  let audioData := audioData_of msg in
  if truthy audioData then
    emit SpeakingStart ;;
    let! t := get nextStartTime in
    set_nextStartTime (Qmax t currentTime) ;;
    let! bytes := lift (decode (match audioData with Some s => s | None => [] end)) in
    let! audioBuffer := lift (decodeAudioData bytes 24000 1) in
    ret (Some audioBuffer)
  else ret None.

(** [onmessage] after its [await].  [nextStartTime += duration] stores
    the binary64 sum. *)
Definition onmessage_resume (l : Locals) (audioBuffer : AudioBuffer) : M unit :=
  let! t := get nextStartTime in
  perform (SourceStart (outputCtx l) audioBuffer t) ;;
  set_nextStartTime (binary64 (t + duration audioBuffer)).

Definition onmessage (l : Locals) (msg : LiveServerMessage) (currentTime : Q)
  : M unit :=
  let! pending := onmessage_begin msg currentTime in
  match pending with
  | Some audioBuffer => onmessage_resume l audioBuffer
  | None => ret tt
  end.

Definition onerror (e : Exn) : M unit :=
  perform (ConsoleError e) ;;
  emit (ErrorEvent e) ;;
  cleanup.

Definition onclose : M unit := cleanup.

(** The payload that [onmessage] decodes, the state in which it
    suspends, and a message that carries a given payload. *)
Definition payload (msg : LiveServerMessage) : jsstring :=
  match audioData_of msg with Some s => s | None => [] end.

Definition speaking (currentTime : Q) (st : State) : State :=
  mkState (isRecording st) (audioContexts st) (session st)
          (Qmax (nextStartTime st) currentTime) (stream st)
          (effects st ++ [Emit SpeakingStart]).

Definition message_of (audioData : jsstring) : LiveServerMessage :=
  {| serverContent :=
       Some {| modelTurn :=
                 Some {| parts :=
                           Some [ {| inlineData :=
                                       Some {| inline_data := Some audioData |} |} ] |} |} |}.

(** *** Runs *)

Definition exec {A : Type} (m : M A) (st : State) : State := snd (m st).

(** Inbound messages handled one after the other, each with the clock
    reading taken when it is handled. *)
Definition onmessages (l : Locals) (msgs : list (LiveServerMessage * Q))
  (st : State) : State :=
  fold_left (fun st m => exec (onmessage l (fst m) (snd m)) st) msgs st.

(** The clock readings of a run are binary64 data. *)
Definition binary64_clocks (msgs : list (LiveServerMessage * Q)) : Prop :=
  Forall (fun m => is_binary64 (snd m)) msgs.

(** The playback schedule: start time and duration of every buffer
    handed to [source.start], in program order. *)
Definition schedule (tr : list Effect) : list (Q * Q) :=
  flat_map (fun e =>
              match e with
              | SourceStart _ buffer when => [(when, duration buffer)]
              | _ => []
              end) tr.

(** The events given to the owner, in program order. *)
Definition emitted (tr : list Effect) : list Event :=
  flat_map (fun e => match e with Emit ev => [ev] | _ => [] end) tr.

(** The calls that acquire a resource. *)
Definition acquires (e : Effect) : bool :=
  match e with
  | NewAudioContext _ _ | GetUserMedia | LiveConnect => true
  | _ => false
  end.

(** The calls that [cleanup] makes in a given state. *)
Definition releases (st : State) : list Effect :=
  match session st with Some s => [SessionClose s] | None => [] end
  ++ match stream st with Some m => [TrackStop m] | None => [] end
  ++ match input (audioContexts st) with Some c => [CtxClose c] | None => [] end
  ++ match output (audioContexts st) with Some c => [CtxClose c] | None => [] end.

(** How often a context was closed. *)
Definition closes (ctx : handle) (tr : list Effect) : nat :=
  List.length (filter (fun e => match e with
                                | CtxClose c => (c =? ctx)%nat
                                | _ => false
                                end) tr).

(** Contexts of a given rate that were constructed and not closed. *)
Definition constructed (rate : Z) (tr : list Effect) : list handle :=
  flat_map (fun e => match e with
                     | NewAudioContext c r => if (r =? rate)%Z then [c] else []
                     | _ => []
                     end) tr.

Definition alive_contexts (rate : Z) (tr : list Effect) : list handle :=
  filter (fun c => (closes c tr =? 0)%nat) (constructed rate tr).

(** The five failure classes and the code that handles each: the
    [catch] clause of [startSession] for the three start-up failures,
    [onerror] and [onclose] for the two remote ones. *)
Inductive Failure : Type :=
| PermissionDenied
| DeviceInitFailure
| HandshakeFailure
| RemoteError
| RemoteClosed.

Definition handle_failure (f : Failure) (e : Exn) : M unit :=
  match f with
  | PermissionDenied | DeviceInitFailure | HandshakeFailure => startSession_catch e
  | RemoteError => onerror e
  | RemoteClosed => onclose
  end.

(** Frames laid end to end from the marker [lo] on: every frame starts,
    at a binary64 time, at or after the end stored for the frame before
    it (at or after [lo] for the first), and no duration is negative.
    The end stored for a frame is the binary64 sum of its start and its
    duration. *)
Fixpoint chained (lo : Q) (l : list (Q * Q)) : Prop :=
  match l with
  | [] => True
  | (start, d) :: r =>
      (lo <= start)%Q /\ is_binary64 start /\ (0 <= d)%Q
      /\ chained (binary64 (start + d)) r
  end.

(** No frame starts before the end of its predecessor, the end being
    the exact sum of start and duration. *)
Inductive back_to_back : list (Q * Q) -> Prop :=
| btb_nil : back_to_back []
| btb_one (sd : Q * Q) : back_to_back [sd]
| btb_cons (s d s' d' : Q) (r : list (Q * Q)) :
    (s + d <= s')%Q -> back_to_back ((s', d') :: r) ->
    back_to_back ((s, d) :: (s', d') :: r).

(** No frame starts before the end that the code computes for its
    predecessor, the binary64 sum of start and duration; it starts
    before the exact end by half a unit in the last place at most. *)
Inductive end_to_start : list (Q * Q) -> Prop :=
| ets_nil : end_to_start []
| ets_one (sd : Q * Q) : end_to_start [sd]
| ets_cons (s d s' d' : Q) (r : list (Q * Q)) :
    (binary64 (s + d) <= s')%Q ->
    (s + d - s' <= ulp (s + d) * (1 # 2))%Q ->
    end_to_start ((s', d') :: r) ->
    end_to_start ((s, d) :: (s', d') :: r).

(** A start in which every step succeeds: both contexts, the microphone,
    the opening of the session and the resolution of [sessionPromise]. *)
Definition started (i o m s : handle) : State :=
  exec (startSession_session (Ok s))
    (exec onopen
       (exec (startSession_media (Ok m))
          (exec (startSession (Ok i) (Ok o)) setup))).

(** [start()] with the microphone refused. *)
Definition start_denied (i o : handle) (e : Exn) (st : State) : State :=
  exec (startSession_media (Throw e)) (exec (startSession (Ok i) (Ok o)) st).

Definition quiet (e : Effect) : bool :=
  match e with
  | ConsoleError _ | Emit _ => true
  | _ => false
  end.

(** The two halves of [onmessage] as separate turns of the event loop,
    so that the handling of several messages may interleave at the
    [await]. *)
Inductive Turn : Type :=
| Arrival (msg : LiveServerMessage) (currentTime : Q)
| Resumption (audioBuffer : AudioBuffer).

Definition turn (l : Locals) (x : Turn) (st : State) : State :=
  match x with
  | Arrival msg currentTime => exec (onmessage_begin msg currentTime) st
  | Resumption audioBuffer => exec (onmessage_resume l audioBuffer) st
  end.

Definition turns (l : Locals) (xs : list Turn) (st : State) : State :=
  fold_left (fun st x => turn l x st) xs st.

Definition playable (x : Turn) : Prop :=
  match x with
  | Arrival _ currentTime => is_binary64 currentTime
  | Resumption audioBuffer => (0 <= duration audioBuffer)%Q
  end.

(** ** Vocabulary of the further properties *)

(** A code unit that base64 text is made of. *)
Definition base64_char (c : N) : Prop :=
  Base64.index_of c <> None \/ c = Base64.pad.

(** The length of the base64 text of [n] bytes. *)
Definition base64_length (n : nat) : nat := (4 * ((n + 2) / 3))%nat.

(** Five 16-bit values, read as two channels. *)
Definition stereo_frames : list byte :=
  [x01; x00; x02; x00; x03; x00; x04; x00; x05; x00].

(** The messages of a run that carry audio. *)
Definition audio_messages (msgs : list (LiveServerMessage * Q)) : nat :=
  List.length (filter (fun m => truthy (audioData_of (fst m))) msgs).

(** Frames laid end to end: each starts exactly at the end stored for
    the one before it, the first at [lo]. *)
Fixpoint contiguous (lo : Q) (l : list (Q * Q)) : Prop :=
  match l with
  | [] => True
  | (start, d) :: r =>
      (start == lo)%Q /\ contiguous (binary64 (start + d)) r
  end.

(** The marker after the frames of [l], each added in binary64 to the
    marker before it. *)
Definition marker_after (lo : Q) (l : list (Q * Q)) : Q :=
  fold_left (fun marker sd => binary64 (marker + snd sd)) l lo.

(** The largest distance between the start of a frame and the exact
    end of the frame before it. *)
Fixpoint seams_within_half_ulp (l : list (Q * Q)) : Prop :=
  match l with
  | (s, d) :: (((s', _) :: _) as r) =>
      (Qabs (s' - (s + d)) <= ulp (s + d) * (1 # 2))%Q
      /\ seams_within_half_ulp r
  | _ => True
  end.

(** The turns of the event loop that belong to the life cycle of the
    component (everything except [onmessage]), each with the outcome the
    host hands in. *)
Inductive Lifecycle : Type :=
| Start (newInput newOutput : result handle)
| Media (userMedia : result handle)
| Connected (connected : result handle)
| Opened
| Captured (s : handle) (inputData : list Number)
| Greeted (s : handle)
| Failed (e : Exn)
| Closed
| Stop.

Definition lifecycle (x : Lifecycle) (st : State) : State :=
  match x with
  | Start newInput newOutput => exec (startSession newInput newOutput) st
  | Media userMedia => exec (startSession_media userMedia) st
  | Connected connected => exec (startSession_session connected) st
  | Opened => exec onopen st
  | Captured s inputData => exec (onaudioprocess s inputData) st
  | Greeted s => exec (send_initialMessage s) st
  | Failed e => exec (onerror e) st
  | Closed => exec onclose st
  | Stop => exec cleanup st
  end.

Definition lifecycles (xs : list Lifecycle) (st : State) : State :=
  fold_left (fun st x => lifecycle x st) xs st.

(** A start whose session never opens. *)
Definition start_refused (i o m : handle) (e : Exn) (st : State) : State :=
  lifecycles [Start (Ok i) (Ok o); Media (Ok m); Connected (Throw e)] st.

(** A start that the owner stops while the session is still being
    opened, and whose session opens all the same. *)
Definition start_stopped_early (i o m s : handle) (st : State) : State :=
  lifecycles [Start (Ok i) (Ok o); Media (Ok m); Stop;
              Opened; Connected (Ok s)] st.

(** The turns in which the host hands out the handle [c] as a new
    context. *)
Definition reuses (c : handle) (x : Lifecycle) : bool :=
  match x with
  | Start newInput newOutput =>
      match newInput with Ok a => (a =? c)%nat | Throw _ => false end
      || match newOutput with Ok b => (b =? c)%nat | Throw _ => false end
  | _ => false
  end.

(** Two calls of [startSession], the second made before the first has
    got its microphone. *)
Definition started_twice (i o i' o' : handle) (st : State) : State :=
  lifecycles [Start (Ok i) (Ok o); Start (Ok i') (Ok o')] st.

(** *** The volume meter (lines 163-175, template lines 240-242) *)

Record Meter : Type := {
  volume : Q;
  animationFrames : nat          (* calls of requestAnimationFrame *)
}.

(** [dataArray.reduce((a, b) => a + b)]: without an initial value, the
    reduction of an empty array throws. *)
Definition reduce_sum (dataArray : list byte) : result Z :=
  match dataArray with
  | [] => Throw TypeError
  | first :: rest =>
      Ok (fold_left (fun a b => a + Z.of_N (Byte.to_N b)) rest
                    (Z.of_N (Byte.to_N first)))
  end.

(** [updateVolume]; [dataArray] is what [getByteFrequencyData] has
    written. *)
Definition updateVolume (dataArray : list byte) (st : State) (m : Meter)
  : result Meter :=
  if negb (isRecording st) then Ok m
  else
    try! sum := reduce_sum dataArray in
    let avg := (inject_Z sum / inject_Z (Z.of_nat (List.length dataArray)))%Q in
    Ok {| volume := avg / 255;
          animationFrames := S (animationFrames m) |}.

(** [Math.max(20, volume * scale)], the height of a bar in percent. *)
Definition bar_height (scale : Q) (m : Meter) : Q :=
  Qmax 20 (volume m * scale).

(** [startSession] from the settling of [getUserMedia] to the second
    [await], with the meter.  The call [updateVolume()] of line 175
    sits inside the [try], after the stream is stored and before
    [live.connect]; it reads [isRecording] as it is then.  [dataArray]
    is what the analyser writes into the array at that call. *)
Definition startSession_media_metered (userMedia : result handle)
  (dataArray : list byte) (m : Meter) : M (bool * Meter) :=
  catch
    (let! media := lift userMedia in
     set_stream (Some media) ;;
     let! st := get (fun st => st) in
     let! m' := lift (updateVolume dataArray st m) in
     perform LiveConnect ;;
     ret (true, m'))
    (fun err => startSession_catch err ;; ret (false, m)).

(** ** [CinemaTool] (index.tsx, lines 452-512)

    The host is a script of outcomes: what each awaited call gives
    back, the responses of [getVideosOperation] in the order of the
    polls. *)

(** A thrown value, as far as a [catch (e)] clause that reads
    [e.message] looks into it: [null] or [undefined], on which the read
    itself throws a [TypeError]; or any other value, with its [message]
    when that is a string, as it is for the [Error] objects that the
    SDK, [fetch] and the code itself throw, and [None] when the value
    has no such property. *)
Inductive Thrown : Type :=
| Nullish
| Value (message : option string).

Module Cinema.

Inductive outcome (A : Type) : Type :=
| Resolved (a : A)
| Rejected (e : Thrown).
Arguments Resolved {A} a.
Arguments Rejected {A} e.

(** An operation, as far as [generate] looks into it: [op.done] and
    [op.response?.generatedVideos?.[0]?.video?.uri]. *)
Record Operation : Type := { done : bool; uri : option string }.

Inductive Effect : Type :=
| HasSelectedApiKey
| OpenSelectKey
| GenerateVideos (prompt aspectRatio : string)
| Timeout (ms : Z)
| GetVideosOperation
| Fetch (url : string)
| ConsoleError (e : Thrown).

Record State : Type := mkState {
  prompt : string;
  aspectRatio : string;
  loading : bool;
  videoUrl : string;
  status : string;
  effects : list Effect
}.

Record Host : Type := {
  aistudio : option (outcome bool * outcome unit);
  generateVideos : outcome Operation;
  getVideosOperation : list (outcome Operation);
  fetched : outcome string;       (* fetch, blob and createObjectURL *)
  apiKey : string
}.

Definition log (e : Effect) (st : State) : State :=
  mkState (prompt st) (aspectRatio st) (loading st) (videoUrl st) (status st)
          (effects st ++ [e]).

Definition set_loading (b : bool) (st : State) : State :=
  mkState (prompt st) (aspectRatio st) b (videoUrl st) (status st) (effects st).

Definition set_videoUrl (u : string) (st : State) : State :=
  mkState (prompt st) (aspectRatio st) (loading st) u (status st) (effects st).

Definition set_status (s : string) (st : State) : State :=
  mkState (prompt st) (aspectRatio st) (loading st) (videoUrl st) s (effects st).

(** [x || fallback] for an optional string: the fallback replaces a
    missing and an empty one. *)
Definition or_else (x : option string) (fallback : string) : string :=
  match x with
  | Some s => if (s =? "")%string then fallback else s
  | None => fallback
  end.

(** The [catch (e)] clause.  On [null] and [undefined] the read of
    [e.message] throws: the clause is left after [console.error], and
    the status is not set. *)
Definition catch_clause (e : Thrown) (st : State) : result unit * State :=
  let st := log (ConsoleError e) st in
  match e with
  | Nullish => (Throw TypeError, st)
  | Value message =>
      (Ok tt, set_status ("Error: " ++ or_else message "Generation failed") st)
  end.

Definition finally_clause (st : State) : State := set_loading false st.

Inductive Polled : Type :=
| Done (op : Operation)
| Threw (e : Thrown)
| Waiting.

(** The [while (!op.done)] loop, run on the responses that are known.
    [Waiting] means that the loop is still going when they are used
    up. *)
Fixpoint poll (responses : list (outcome Operation)) (op : Operation)
  (st : State) {struct responses} : Polled * State :=
  if done op then (Done op, st)
  else
    let st := set_status "Rendering frames..." st in
    let st := log (Timeout 5000) st in
    let st := log GetVideosOperation st in
    match responses with
    | [] => (Waiting, st)
    | Resolved op' :: rest => poll rest op' st
    | Rejected e :: _ => (Threw e, st)
    end.

(** The check of the key, which is outside the [try]: a rejection there
    ends [generate] before it touches its state. *)
Definition key_check (h : Host) (st : State) : option Thrown * State :=
  match aistudio h with
  | None => (None, st)
  | Some (hasKey, opened) =>
      let st := log HasSelectedApiKey st in
      match hasKey with
      | Rejected e => (Some e, st)
      | Resolved true => (None, st)
      | Resolved false =>
          let st := log OpenSelectKey st in
          match opened with
          | Rejected e => (Some e, st)
          | Resolved _ => (None, st)
          end
      end
  end.

Inductive Ended : Type :=
| Finished             (* the promise of [generate] is fulfilled *)
| Escaped (e : Thrown) (* it is rejected with what the key check threw *)
| Broken               (* it is rejected with the error of the [catch] clause *)
| Polling.             (* it is still in the loop *)

(** The rest of the [try] block once the loop has ended, with the
    [catch] clause where it throws. *)
Definition download (h : Host) (op : Operation) (st : State)
  : result unit * State :=
  match uri op with
  | Some (String c u) =>
      let st := set_status "Downloading..." st in
      let st := log (Fetch (String c u ++ "&key=" ++ apiKey h)) st in
      match fetched h with
      | Resolved objectUrl => (Ok tt, set_videoUrl objectUrl st)
      | Rejected e => catch_clause e st
      end
  | _ => catch_clause (Value (Some "No video URI returned"%string)) st
  end.

(** The [finally] clause, and how [generate] ends after it. *)
Definition settle (r : result unit * State) : Ended * State :=
  match r with
  | (Ok _, st) => (Finished, finally_clause st)
  | (Throw _, st) => (Broken, finally_clause st)
  end.

Definition generate (h : Host) (st : State) : Ended * State :=
  match key_check h st with
  | (Some e, st) => (Escaped e, st)
  | (None, st) =>
      let st := set_loading true st in
      let st := set_videoUrl "" st in
      let st := set_status "Initializing Veo..." st in
      let st := log (GenerateVideos (prompt st) (aspectRatio st)) st in
      match generateVideos h with
      | Rejected e => settle (catch_clause e st)
      | Resolved op0 =>
          match poll (getVideosOperation h) op0 st with
          | (Waiting, st) => (Polling, st)
          | (Threw e, st) => settle (catch_clause e st)
          | (Done op, st) => settle (download h op st)
          end
      end
  end.

(** The texts that the status holds while [generate] is under way. *)
Definition progress : list string :=
  ["Initializing Veo..."; "Rendering frames..."; "Downloading..."]%string.

(** One round of the loop, as the host sees it. *)
Definition round : list Effect := [Timeout 5000; GetVideosOperation].

Fixpoint rounds (n : nat) : list Effect :=
  match n with
  | O => []
  | S n => round ++ rounds n
  end.

Definition pending (op : Operation) : Prop := done op = false.

End Cinema.

(** A tool that is idle, and a host in which the key check is absent
    and that answers with the given operations. *)
Definition cinema_idle (prompt : string) : Cinema.State :=
  Cinema.mkState prompt "16:9" false "" "" [].

Definition cinema_host (first : Cinema.Operation)
  (responses : list Cinema.Operation) : Cinema.Host :=
  {| Cinema.aistudio := None;
     Cinema.generateVideos := Cinema.Resolved first;
     Cinema.getVideosOperation := List.map Cinema.Resolved responses;
     Cinema.fetched := Cinema.Resolved "blob:video"%string;
     Cinema.apiKey := "k"%string |}.

Definition rendering : Cinema.Operation :=
  {| Cinema.done := false; Cinema.uri := None |}.

Definition rendered : Cinema.Operation :=
  {| Cinema.done := true; Cinema.uri := Some "https://v/1?x=1"%string |}.

(** A host whose download throws [null]. *)
Definition cinema_host_null (first : Cinema.Operation)
  (responses : list Cinema.Operation) : Cinema.Host :=
  {| Cinema.aistudio := None;
     Cinema.generateVideos := Cinema.Resolved first;
     Cinema.getVideosOperation := List.map Cinema.Resolved responses;
     Cinema.fetched := Cinema.Rejected Nullish;
     Cinema.apiKey := "k"%string |}.

(** ** Strings of the tools

    The texts that the tools below build are ASCII; they are Rocq
    strings. *)

(** [s.split(sep)] for a separator of one character. *)
Fixpoint split_on (sep : ascii) (s : string) : list string :=
  match s with
  | EmptyString => [EmptyString]
  | String c r =>
      if Ascii.eqb c sep then EmptyString :: split_on sep r
      else
        match split_on sep r with
        | h :: t => String c h :: t
        | [] => [String c EmptyString]
        end
  end.

(** The character [sep] does not occur in [s]. *)
Fixpoint free_of (sep : ascii) (s : string) : Prop :=
  match s with
  | EmptyString => True
  | String c r => Ascii.eqb c sep = false /\ free_of sep r
  end.

(** [`${x}`] for a string that may be [undefined]. *)
Definition interpolate (x : option string) : string :=
  match x with
  | Some s => s
  | None => "undefined"
  end.

(** A string is truthy when it is set and not empty. *)
Definition nonempty (x : option string) : bool :=
  match x with
  | Some (String _ _) => true
  | _ => false
  end.

(** ** [EditorTool] (index.tsx, lines 366-424) *)

Module Editor.

(** A response, as far as [edit] looks into it:
    [resp.candidates?.[0]?.content?.parts] and [resp.text]. *)
Record InlineData : Type := { data : option string }.
Record Part : Type := { inlineData : option InlineData }.
Record Response : Type := {
  parts : option (list Part);
  text : option string
}.

Inductive outcome : Type :=
| Resolved (resp : Response)
| Rejected.

Inductive Effect : Type :=
| GenerateContent (mimeType : string) (data : option string) (text : string)
| Alert (message : string)
| ConsoleError.

Record State : Type := mkState {
  prompt : string;
  imagePreview : string;
  result : string;
  loading : bool;
  effects : list Effect
}.

Definition log (e : Effect) (st : State) : State :=
  mkState (prompt st) (imagePreview st) (result st) (loading st)
          (effects st ++ [e]).

Definition set_result (r : string) (st : State) : State :=
  mkState (prompt st) (imagePreview st) r (loading st) (effects st).

Definition set_loading (b : bool) (st : State) : State :=
  mkState (prompt st) (imagePreview st) (result st) b (effects st).

(** [imagePreview.value.split(',')[1]] *)
Definition base64Data (st : State) : option string :=
  nth_error (split_on "," (imagePreview st)) 1.

(** [edit] up to its [await]; [None] when the guard returns. *)
Definition edit_begin (st : State) : option State :=
  if (prompt st =? "")%string || (imagePreview st =? "")%string then None
  else
    let st := set_loading true st in
    Some (log (GenerateContent "image/jpeg" (base64Data st) (prompt st)) st).

(** The loop over the parts: the first part that has [inlineData] sets
    the result and ends the loop. *)
Fixpoint find_image (ps : list Part) (st : State) : bool * State :=
  match ps with
  | [] => (false, st)
  | part :: rest =>
      match inlineData part with
      | Some inline =>
          (true,
           set_result ("data:image/png;base64," ++ interpolate (data inline)) st)
      | None => find_image rest st
      end
  end.

(** [edit] after its [await]. *)
Definition edit_end (o : outcome) (st : State) : State :=
  set_loading false
    match o with
    | Resolved resp =>
        let (foundImage, st) :=
          find_image (match parts resp with Some ps => ps | None => [] end) st in
        if negb foundImage && nonempty (text resp)
        then log (Alert ("Model returned text instead of image: "
                         ++ interpolate (text resp))) st
        else st
    | Rejected => log (Alert "Edit failed") (log ConsoleError st)
    end.

Definition plain (part : Part) : Prop := inlineData part = None.

End Editor.

(** ** [ScoutTool] (index.tsx, lines 618-669) *)

Module Scout.

(** A response, as far as [search] looks into it: [resp.text] and
    [resp.candidates?.[0]?.groundingMetadata?.groundingChunks]. *)
Record Link : Type := { uri : option string; title : option string }.
Record Chunk : Type := { web : option Link; maps : option Link }.
Record Response : Type := {
  text : option string;
  groundingChunks : option (list Chunk)
}.

Inductive outcome : Type :=
| Resolved (resp : Response)
| Rejected.

Record Location : Type := { latitude : Q; longitude : Q }.

Inductive Tool : Type := googleMaps | googleSearch.

Inductive Effect : Type :=
| GetCurrentPosition
| ConsoleWarn (message : string)
| GenerateContent (contents : string) (tools : list Tool)
                  (latLng : option Location)
| ConsoleError.

Record Results : Type := { results_text : string; chunks : list Chunk }.

Record State : Type := mkState {
  query : string;
  useMaps : bool;
  results : Results;
  loading : bool;
  effects : list Effect
}.

Definition log (e : Effect) (st : State) : State :=
  mkState (query st) (useMaps st) (results st) (loading st) (effects st ++ [e]).

Definition set_results (r : Results) (st : State) : State :=
  mkState (query st) (useMaps st) r (loading st) (effects st).

Definition set_loading (b : bool) (st : State) : State :=
  mkState (query st) (useMaps st) (results st) b (effects st).

(** The controls of the template: the button [useMaps = !useMaps] and
    the input bound to [query]. *)
Definition toggle (st : State) : State :=
  mkState (query st) (negb (useMaps st)) (results st) (loading st) (effects st).

Definition input (q : string) (st : State) : State :=
  mkState q (useMaps st) (results st) (loading st) (effects st).

(** [search] from the choice of [tools] to the call of
    [generateContent], where it waits. *)
Definition search_request (location : option Location) (st : State) : State :=
  let tools := if useMaps st then [googleMaps] else [googleSearch] in
  let toolConfig := location in
  log (GenerateContent (query st) tools toolConfig) st.

(** Where [search] stops first. *)
Inductive Began : Type :=
| Returned
| AwaitPosition (st : State)
| AwaitResponse (st : State).

Definition search_begin (st : State) : Began :=
  if (query st =? "")%string then Returned
  else
    let st := set_loading true st in
    if useMaps st then AwaitPosition (log GetCurrentPosition st)
    else AwaitResponse (search_request None st).

(** [search] once the position is there, or was refused ([None]). *)
Definition search_located (pos : option Location) (st : State) : State :=
  match pos with
  | Some p =>
      search_request
        (Some {| latitude := latitude p; longitude := longitude p |}) st
  | None => search_request None (log (ConsoleWarn "Location denied") st)
  end.

(** [search] once [generateContent] has settled. *)
Definition search_end (o : outcome) (st : State) : State :=
  set_loading false
    match o with
    | Resolved resp =>
        set_results
          {| results_text := match text resp with Some s => s | None => "" end;
             chunks := match groundingChunks resp with
                       | Some cs => cs
                       | None => []
                       end |} st
    | Rejected =>
        let st := log ConsoleError st in
        set_results {| results_text := "Search failed.";
                       chunks := chunks (results st) |} st
    end.

(** A whole call, with nothing happening while it waits. *)
Definition search (pos : option Location) (o : outcome) (st : State) : State :=
  match search_begin st with
  | Returned => st
  | AwaitPosition st => search_end o (search_located pos st)
  | AwaitResponse st => search_end o st
  end.

End Scout.

(** ** [CharacterImage] (index.tsx, lines 25-73 and 252-293) *)

Module CharacterImage.

(** What [table[key]] finds on an object literal: a property of the
    literal, a property inherited from [Object.prototype] (a function,
    or the prototype itself), or nothing. *)
Inductive Property (A : Type) : Type :=
| Own (a : A)
| Inherited
| Absent.
Arguments Own {A} a.
Arguments Inherited {A}.
Arguments Absent {A}.

Definition Object_prototype : list string :=
  ["constructor"; "__proto__"; "hasOwnProperty"; "isPrototypeOf";
   "propertyIsEnumerable"; "toLocaleString"; "toString"; "valueOf";
   "__defineGetter__"; "__defineSetter__"; "__lookupGetter__";
   "__lookupSetter__"]%string.

Fixpoint own {A : Type} (table : list (string * A)) (key : string) : option A :=
  match table with
  | [] => None
  | (k, a) :: rest => if (key =? k)%string then Some a else own rest key
  end.

Definition get {A : Type} (table : list (string * A)) (key : string)
  : Property A :=
  match own table key with
  | Some a => Own a
  | None =>
      if existsb (String.eqb key) Object_prototype then Inherited else Absent
  end.

(** The entries of the two tables, as far as [generate] reads them. *)
Record Attributes : Type := { visualDescriptor : string }.

Definition CHARACTER_ATTRIBUTES : list (string * Attributes) :=
  [("dog", {| visualDescriptor := "A beagle with floppy ears, a wet black nose, and an alert expression. Wears a small detective-style hat." |});
   ("cat", {| visualDescriptor := "A sleek Siamese cat with striking blue eyes. Wears a stylish collar." |});
   ("robot", {| visualDescriptor := "A cute, round robot with glowing eyes and a metallic finish." |});
   ("alien", {| visualDescriptor := "A friendly green alien with large black eyes and a small spacesuit." |})
  ]%string.

Definition MOOD_ATTRIBUTES : list (string * Attributes) :=
  [("Happy", {| visualDescriptor := "Beaming smile with sparkling eyes, body bouncing with energy." |});
   ("Sad", {| visualDescriptor := "Streaming tears, slumped shoulders, head hanging low." |});
   ("Cool", {| visualDescriptor := "Wearing sunglasses, relaxed posture, looking effortless." |});
   ("Surprised", {| visualDescriptor := "Eyes wide, mouth open, jumping slightly." |})
  ]%string.

(** [x || y]: objects and functions are truthy, [undefined] is not. *)
Definition or_else {A : Type} (x y : Property A) : Property A :=
  match x with
  | Absent => y
  | _ => x
  end.

(** [x.visualDescriptor], which throws on [undefined]. *)
Definition descriptor (x : Property Attributes) : result (option string) :=
  match x with
  | Own a => Ok (Some (visualDescriptor a))
  | Inherited => Ok None
  | Absent => Throw TypeError
  end.

Definition render (charDesc moodDesc : option string) : string :=
  ("A cute claymation style 3d render of " ++ interpolate charDesc
   ++ ". The character is " ++ interpolate moodDesc
   ++ ". Simple shapes, vibrant colors, clean white background, soft lighting, depth of field. High quality, miniature aesthetic.")%string.

(** Lines 267-270. *)
Definition prompt (character mood : string) : result string :=
  let charInfo :=
    or_else (get CHARACTER_ATTRIBUTES character)
            (get CHARACTER_ATTRIBUTES "dog") in
  let moodInfo :=
    or_else (get MOOD_ATTRIBUTES mood)
            (Own {| visualDescriptor := "neutral expression" |}) in
  try! charDesc := descriptor charInfo in
  try! moodDesc := descriptor moodInfo in
  Ok (render charDesc moodDesc).

Inductive outcome : Type :=
| Resolved (imageBytes : option string)
    (* resp.generatedImages?.[0]?.image?.imageBytes *)
| Rejected (e : Thrown).

Inductive Effect : Type :=
| GenerateImages (prompt : string).

Record State : Type := mkState {
  imageUrl : string;
  isLoading : bool;
  error : string;
  effects : list Effect
}.

(** [generate] up to its [await].  The prompt is built outside the
    [try]: an exception there would leave [generate]. *)
Definition generate_begin (character mood : string) (st : State)
  : result unit * State :=
  let st := mkState "" true "" (effects st) in
  match prompt character mood with
  | Ok p => (Ok tt, mkState (imageUrl st) (isLoading st) (error st)
                      (effects st ++ [GenerateImages p]))
  | Throw e => (Throw e, st)
  end.

(** [generate] after its [await].  In the [catch] clause the read of
    [e.message] throws on [null] and [undefined]; the [finally] clause
    runs either way, and [generate] ends with what the clause threw. *)
Definition generate_end (o : outcome) (st : State) : result unit * State :=
  let (r, st) :=
    match o with
    | Resolved imageBytes =>
        (Ok tt,
         if nonempty imageBytes
         then mkState ("data:image/jpeg;base64," ++ interpolate imageBytes)
                      (isLoading st) (error st) (effects st)
         else st)
    | Rejected Nullish => (Throw TypeError, st)
    | Rejected (Value message) =>
        (Ok tt,
         mkState (imageUrl st) (isLoading st)
                 (Cinema.or_else message "Failed to generate") (effects st))
    end in
  (r, mkState (imageUrl st) false (error st) (effects st)).

End CharacterImage.

(** * Properties *)

Ltac euclid := zify; Z.to_euclidean_division_equations; lia.

(** Induction on a list three elements at a time, the way the encoder
    consumes it. *)
Lemma list_ind3 {A : Type} (P : list A -> Prop) :
  P [] -> (forall a, P [a]) -> (forall a b, P [a; b]) ->
  (forall a b c l, P l -> P (a :: b :: c :: l)) ->
  forall l, P l.
Proof.
  intros H0 H1 H2 H3.
  fix IH 1.
  intros [|a [|b [|c l]]].
  - exact H0.
  - exact (H1 a).
  - exact (H2 a b).
  - exact (H3 a b c l (IH l)).
Qed.

(** ** The definitions on small inputs *)

Example btoa_three_bytes : Base64.btoa (js "Man") = Ok (js "TWFu").
Proof. reflexivity. Qed.

Example btoa_two_bytes : Base64.btoa (js "Ma") = Ok (js "TWE=").
Proof. reflexivity. Qed.

Example btoa_one_byte : Base64.btoa (js "M") = Ok (js "TQ==").
Proof. reflexivity. Qed.

Example btoa_wide_character : Base64.btoa [256%N] = Throw InvalidCharacterError.
Proof. reflexivity. Qed.

Example atob_padded : Base64.atob (js "TQ==") = Ok (js "M").
Proof. reflexivity. Qed.

Example atob_unpadded_with_spaces : Base64.atob (js " T W E ") = Ok (js "Ma").
Proof. reflexivity. Qed.

Example atob_bad_length : Base64.atob (js "TWFuT") = Throw InvalidCharacterError.
Proof. reflexivity. Qed.

Example atob_bad_padding : Base64.atob (js "TQ=") = Throw InvalidCharacterError.
Proof. reflexivity. Qed.

Example atob_bad_character : Base64.atob (js "TW-u") = Throw InvalidCharacterError.
Proof. reflexivity. Qed.

Example ToInt16_half : ToInt16 (Nmul (Finite (1 # 2)) (Finite 32768)) = 16384.
Proof. reflexivity. Qed.

Example ToInt16_truncates_toward_zero :
  ToInt16 (Nmul (Finite (- (3 # 65536))) (Finite 32768)) = -1.
Proof. reflexivity. Qed.

Example ToInt16_small_negative :
  ToInt16 (Nmul (Finite (- (1 # 65536))) (Finite 32768)) = 0.
Proof. reflexivity. Qed.

Example ToInt16_full_scale : ToInt16 (Nmul (Finite 1) (Finite 32768)) = -32768.
Proof. reflexivity. Qed.

Example ToInt16_above_range :
  ToInt16 (Nmul (Finite (3 # 2)) (Finite 32768)) = -16384.
Proof. reflexivity. Qed.

Example ToInt16_below_range :
  ToInt16 (Nmul (Finite (- (3 # 2))) (Finite 32768)) = 16384.
Proof. reflexivity. Qed.

Example int16_bytes_little_endian : int16_bytes (-2) = [xfe; xff].
Proof. reflexivity. Qed.

Example Int16Array_of_three_bytes :
  Int16Array_of_buffer [x00; x01; x02] = Throw RangeError.
Proof. reflexivity. Qed.

Example Int16Array_of_four_bytes :
  Int16Array_of_buffer [x00; x40; xfe; xff] = Ok [16384; -2].
Proof. reflexivity. Qed.

Example createBlob_two_samples :
  createBlob [Finite (1 # 2); Finite (- (1 # 2))]
  = Ok {| data := js "AEAAwA=="; mimeType := "audio/pcm;rate=16000" |}.
Proof. reflexivity. Qed.

Example binary64_mul_half :
  binary64_mul (SpecFloat.S754_finite false 4503599627370496 (-53)) two15
  = SpecFloat.S754_finite false 4503599627370496 (-38).
Proof. reflexivity. Qed.

Section Base64Facts.
Import Base64.

Lemma table_checked : forallb table_ok (List.map N.of_nat (seq 0 64)) = true.
Proof. vm_compute. reflexivity. Qed.

Lemma table_entry (s : N) : (s < 64)%N -> table_ok s = true.
Proof.
  intros Hs.
  pose proof table_checked as H.
  rewrite forallb_forall in H. apply H.
  rewrite <- (N2Nat.id s). apply in_map.
  apply in_seq. lia.
Qed.

Lemma index_of_char_of (s : N) : (s < 64)%N -> index_of (char_of s) = Some s.
Proof.
  intros Hs. pose proof (table_entry s Hs) as H.
  unfold table_ok in H.
  apply andb_prop in H as [H _]. apply andb_prop in H as [H _].
  destruct (index_of (char_of s)) as [i|]; [|discriminate].
  apply N.eqb_eq in H. now subst.
Qed.

Lemma char_of_not_pad (s : N) : (s < 64)%N -> (char_of s =? pad)%N = false.
Proof.
  intros Hs. pose proof (table_entry s Hs) as H.
  unfold table_ok in H.
  apply andb_prop in H as [H _]. apply andb_prop in H as [_ H].
  now apply negb_true_iff in H.
Qed.

Lemma char_of_not_whitespace (s : N) :
  (s < 64)%N -> is_whitespace (char_of s) = false.
Proof.
  intros Hs. pose proof (table_entry s Hs) as H.
  unfold table_ok in H.
  apply andb_prop in H as [_ H].
  now apply negb_true_iff in H.
Qed.

Lemma encode_bytes_split (l : list N) :
  encode_bytes l = List.map char_of (sextets_of l) ++ pads_of l.
Proof.
  induction l as [| a | a b | a b c l IH] using list_ind3; try reflexivity.
  cbn [encode_bytes sextets_of pads_of List.map app].
  now rewrite IH.
Qed.

Lemma sextets_of_range (l : list N) :
  Forall is_byte l -> Forall is_sextet (sextets_of l).
Proof.
  unfold is_byte, is_sextet.
  induction l as [| a | a b | a b c l IH] using list_ind3; intros H.
  - constructor.
  - inversion_clear H as [|? ? Ha _].
    cbn [sextets_of]. repeat constructor; euclid.
  - inversion_clear H as [|? ? Ha H']. inversion_clear H' as [|? ? Hb _].
    cbn [sextets_of]. repeat constructor; euclid.
  - inversion_clear H as [|? ? Ha H']. inversion_clear H' as [|? ? Hb H''].
    inversion_clear H'' as [|? ? Hc Hl].
    cbn [sextets_of]. repeat (constructor; [euclid|]). auto.
Qed.

Lemma sextets_recompose (n : N) :
  ((((n / 262144) * 64 + n / 4096 mod 64) * 64 + n / 64 mod 64) * 64
   + n mod 64 = n)%N.
Proof. euclid. Qed.

Lemma decode_sextets_of (l : list N) :
  Forall is_byte l -> decode_sextets (sextets_of l) = l.
Proof.
  unfold is_byte.
  induction l as [| a | a b | a b c l IH] using list_ind3; intros H.
  - reflexivity.
  - inversion_clear H as [|? ? Ha _].
    cbn [sextets_of decode_sextets]. f_equal. euclid.
  - inversion_clear H as [|? ? Ha H']. inversion_clear H' as [|? ? Hb _].
    cbn [sextets_of decode_sextets].
    assert (E : (((((a * 256 + b) * 4 / 4096 * 64
                    + (a * 256 + b) * 4 / 64 mod 64) * 64
                    + (a * 256 + b) * 4 mod 64) / 4) = a * 256 + b)%N)
      by euclid.
    rewrite E. f_equal; [euclid | f_equal; euclid].
  - inversion_clear H as [|? ? Ha H']. inversion_clear H' as [|? ? Hb H''].
    inversion_clear H'' as [|? ? Hc Hl].
    cbn [sextets_of decode_sextets].
    rewrite sextets_recompose, (IH Hl).
    f_equal; [euclid | f_equal; [euclid | f_equal; euclid]].
Qed.

Lemma sextets_char_of (ss : list N) :
  Forall is_sextet ss -> sextets (List.map char_of ss) = Some ss.
Proof.
  induction 1 as [| s ss Hs _ IH]; [reflexivity|].
  cbn [List.map sextets]. now rewrite (index_of_char_of s Hs), IH.
Qed.

Lemma filter_all {A : Type} (f : A -> bool) (l : list A) :
  Forall (fun x => f x = true) l -> filter f l = l.
Proof.
  induction 1 as [| x l Hx _ IH]; [reflexivity|].
  cbn [filter]. now rewrite Hx, IH.
Qed.

Lemma pads_of_pad (l : list N) : Forall (fun c => c = pad) (pads_of l).
Proof.
  induction l using list_ind3; cbn [pads_of]; auto.
Qed.

Lemma encoder_shape (l : list N) : shape l.
Proof.
  induction l as [| a | a b | a b c l IH] using list_ind3.
  - now apply (shape_full _ 0).
  - now apply (shape_two _ 0).
  - now apply (shape_one _ 0).
  - destruct IH as [k E P | k E P | k E P].
    + apply (shape_full _ (S k)); cbn [sextets_of pads_of List.length].
      * rewrite E. lia.
      * exact P.
    + apply (shape_one _ (S k)); cbn [sextets_of pads_of List.length].
      * rewrite E. lia.
      * exact P.
    + apply (shape_two _ (S k)); cbn [sextets_of pads_of List.length].
      * rewrite E. lia.
      * exact P.
Qed.

Lemma unpadded_rev_head (body : list N) (c : N) (r : list N) :
  unpadded body -> rev body = c :: r -> (c =? pad)%N = false.
Proof.
  intros U E. unfold unpadded in U. rewrite Forall_forall in U.
  apply U. apply in_rev. rewrite E. now left.
Qed.

Lemma strip_padding_none (body : list N) :
  unpadded body -> strip_padding body = body.
Proof.
  intros U. unfold strip_padding.
  destruct (_ =? 0)%nat; [|reflexivity].
  destruct (rev body) as [|c1 r1] eqn:E; [reflexivity|].
  now rewrite (unpadded_rev_head body c1 r1 U E).
Qed.

Lemma strip_padding_one (body : list N) (k : nat) :
  unpadded body -> List.length body = (4 * k + 3)%nat ->
  strip_padding (body ++ [pad]) = body.
Proof.
  intros U L. unfold strip_padding.
  rewrite length_app, L. cbn [List.length].
  replace ((4 * k + 3 + 1) mod 4 =? 0)%nat with true
    by (symmetry; apply Nat.eqb_eq; euclid).
  rewrite rev_unit. rewrite N.eqb_refl.
  destruct (rev body) as [|c2 r2] eqn:E.
  - rewrite <- (rev_involutive body), E. reflexivity.
  - rewrite (unpadded_rev_head body c2 r2 U E).
    rewrite <- E. apply rev_involutive.
Qed.

Lemma strip_padding_two (body : list N) (k : nat) :
  unpadded body -> List.length body = (4 * k + 2)%nat ->
  strip_padding (body ++ [pad; pad]) = body.
Proof.
  intros U L. unfold strip_padding.
  rewrite length_app, L. cbn [List.length].
  replace ((4 * k + 2 + 2) mod 4 =? 0)%nat with true
    by (symmetry; apply Nat.eqb_eq; euclid).
  change (body ++ [pad; pad]) with (body ++ [pad] ++ [pad]).
  rewrite app_assoc, rev_unit, rev_unit.
  rewrite !N.eqb_refl. apply rev_involutive.
Qed.

Lemma chars_unpadded (ss : list N) :
  Forall is_sextet ss -> unpadded (List.map char_of ss).
Proof.
  intros H. unfold unpadded. rewrite Forall_map.
  eapply Forall_impl; [|exact H].
  intros s Hs. now apply char_of_not_pad.
Qed.

Lemma strip_padding_encode (l : list N) :
  Forall is_byte l ->
  strip_padding (encode_bytes l) = List.map char_of (sextets_of l).
Proof.
  intros Hl. rewrite encode_bytes_split.
  pose proof (chars_unpadded _ (sextets_of_range l Hl)) as U.
  destruct (encoder_shape l) as [k E P | k E P | k E P]; rewrite P.
  - rewrite app_nil_r. now apply strip_padding_none.
  - apply (strip_padding_one _ k U). now rewrite length_map.
  - apply (strip_padding_two _ k U). now rewrite length_map.
Qed.

Lemma encode_bytes_no_whitespace (l : list N) :
  Forall is_byte l ->
  filter (fun c => negb (is_whitespace c)) (encode_bytes l) = encode_bytes l.
Proof.
  intros Hl. apply filter_all. rewrite encode_bytes_split.
  apply Forall_app. split.
  - rewrite Forall_map. eapply Forall_impl; [|exact (sextets_of_range l Hl)].
    intros s Hs. cbn beta. now rewrite char_of_not_whitespace.
  - eapply Forall_impl; [|exact (pads_of_pad l)].
    intros c ->. reflexivity.
Qed.

Lemma body_length (l : list N) :
  (List.length (List.map char_of (sextets_of l)) mod 4 =? 1)%nat = false.
Proof.
  rewrite length_map. apply Nat.eqb_neq.
  destruct (encoder_shape l) as [k E _ | k E _ | k E _]; rewrite E; euclid.
Qed.

(** [atob] undoes [btoa] on every binary string. *)
Lemma atob_encode_bytes (l : list N) :
  Forall is_byte l -> atob (encode_bytes l) = Ok l.
Proof.
  intros Hl. unfold atob.
  rewrite (encode_bytes_no_whitespace l Hl), (strip_padding_encode l Hl).
  rewrite body_length.
  rewrite (sextets_char_of _ (sextets_of_range l Hl)).
  now rewrite (decode_sextets_of l Hl).
Qed.

Lemma fromCharCode_byte (b : byte) : is_byte (fromCharCode b).
Proof.
  unfold is_byte, fromCharCode. pose proof (Byte.to_N_bounded b). lia.
Qed.

Lemma binary_string_bytes (bytes : list byte) :
  Forall is_byte (List.map fromCharCode bytes).
Proof.
  rewrite Forall_map. apply Forall_forall. intros b _. apply fromCharCode_byte.
Qed.

Lemma btoa_binary_string (bytes : list byte) :
  btoa (List.map fromCharCode bytes)
  = Ok (encode_bytes (List.map fromCharCode bytes)).
Proof.
  unfold btoa.
  replace (forallb _ _) with true; [reflexivity|].
  symmetry. apply forallb_forall. intros c Hc.
  apply in_map_iff in Hc as [b [<- _]].
  apply N.leb_le. pose proof (fromCharCode_byte b). unfold is_byte in *. lia.
Qed.

Lemma ToUint8_fromCharCode (b : byte) : ToUint8 (fromCharCode b) = b.
Proof.
  unfold ToUint8. rewrite N.mod_small by apply fromCharCode_byte.
  unfold fromCharCode. now rewrite Byte.of_to_N.
Qed.

Lemma bytes_of_binary_string (bytes : list byte) :
  List.map ToUint8 (List.map fromCharCode bytes) = bytes.
Proof.
  rewrite map_map. rewrite <- (map_id bytes) at 2.
  apply map_ext. apply ToUint8_fromCharCode.
Qed.

End Base64Facts.

(** ** The textual transport encoding *)

Lemma encode_total (bytes : list byte) :
  encode bytes = Ok (Base64.encode_bytes (List.map fromCharCode bytes)).
Proof. apply btoa_binary_string. Qed.

Lemma decode_encode_bytes (b : list byte) :
  exists s : jsstring, encode b = Ok s /\ decode s = Ok b.
Proof.
  exists (Base64.encode_bytes (List.map fromCharCode b)).
  split; [apply encode_total|].
  unfold decode.
  rewrite atob_encode_bytes by apply binary_string_bytes.
  cbn [rbind]. now rewrite bytes_of_binary_string.
Qed.

(** C9.  For every byte array [b], [encode b] returns a string and
    [decode] of that string returns [b] itself, with the same elements
    in the same order and hence the same length: the base64 helpers are
    mutually inverse on arbitrary byte sequences. *)
Theorem decode_encode_roundtrip (b : list byte) :
  exists s : jsstring, encode b = Ok s /\ decode s = Ok b.
Proof. exact (decode_encode_bytes b). Qed.

(** ** 16-bit conversion *)

Lemma ToInt16_range (x : Number) : is_int16 (ToInt16 x).
Proof.
  unfold is_int16. destruct x as [q| | |]; cbn [ToInt16]; try lia.
  destruct (Z.leb_spec 32768 (truncate q mod 65536)); euclid.
Qed.

Lemma truncate_quot (q : Q) : truncate q = Z.quot (Qnum q) (Zpos (Qden q)).
Proof.
  destruct q as [n d]. unfold truncate, Qneg. cbn [Qnum Qden Qfloor Qopp].
  destruct (Z.ltb_spec n 0) as [Hn|Hn].
  - rewrite <- (Z.opp_involutive n) at 2.
    rewrite Z.quot_opp_l by lia.
    now rewrite Z.quot_div_nonneg by lia.
  - now rewrite Z.quot_div_nonneg by lia.
Qed.

Lemma wrap_signed (t : Z) :
  (if 32768 <=? t mod 65536 then t mod 65536 - 65536 else t mod 65536)
  = (t + 32768) mod 65536 - 32768.
Proof. destruct (Z.leb_spec 32768 (t mod 65536)); euclid. Qed.

Lemma ToInt16_scaled (q : Q) :
  ToInt16 (Nmul (Finite q) (Finite 32768)) = spec_pcm16 q.
Proof.
  cbn [Nmul ToInt16]. unfold spec_pcm16.
  now rewrite wrap_signed, truncate_quot.
Qed.

(** ** The rational model and IEEE-754 binary64 *)

Lemma binary64_mul_two15 (s : bool) (m : positive) (e : Z) :
  SpecFloat.digits2_pos m = 53%positive -> -1074 <= e <= 956 ->
  binary64_mul (SpecFloat.S754_finite s m e) two15
  = SpecFloat.S754_finite s m (e + 15).
Proof.
  intros Hd He. unfold binary64_mul, two15, SpecFloat.SFmul.
  rewrite xorb_false_r, Pos.mul_comm.
  unfold SpecFloat.binary_round_aux, SpecFloat.shr_fexp.
  set (p := (4503599627370496 * m)%positive).
  assert (Hp : p = Pos.iter xO m 52) by reflexivity.
  assert (Hdp : SpecFloat.Zdigits2 (Zpos p) = 105).
  { rewrite Hp. cbn. rewrite Hd. reflexivity. }
  rewrite Hdp. unfold SpecFloat.fexp, SpecFloat.emin.
  replace (Z.max (105 + (e + -37) - 53) (3 - 1024 - 53) - (e + -37))
    with 52 by lia.
  cbn [SpecFloat.shr SpecFloat.shr_record_of_loc].
  rewrite Hp. cbn [SpecFloat.iter_pos Pos.iter SpecFloat.shr_1 orb].
  cbn [SpecFloat.shr_m SpecFloat.loc_of_shr_record
       SpecFloat.round_nearest_even SpecFloat.Zdigits2].
  rewrite Hd.
  replace (Z.max (53 + (e + -37 + 52) - 53) (3 - 1024 - 53) - (e + -37 + 52))
    with 0 by lia.
  cbn [SpecFloat.shr SpecFloat.shr_record_of_loc SpecFloat.shr_m].
  replace (e + -37 + 52 <=? 1024 - 53) with true
    by (symmetry; apply Z.leb_le; lia).
  f_equal. lia.
Qed.

Lemma binary64_div_two15 (s : bool) (m : positive) (e : Z) :
  SpecFloat.digits2_pos m = 53%positive -> -1058 <= e <= 971 ->
  binary64_div (SpecFloat.S754_finite s m e) two15
  = SpecFloat.S754_finite s m (e - 15).
Proof.
  intros Hd He. unfold binary64_div, two15, SpecFloat.SFdiv.
  rewrite xorb_false_r.
  unfold SpecFloat.SFdiv_core_binary.
  cbn [SpecFloat.Zdigits2]. rewrite Hd.
  change (Zpos (SpecFloat.digits2_pos 4503599627370496)) with 53.
  unfold SpecFloat.fexp, SpecFloat.emin.
  replace (Z.min (Z.max (53 + e - (53 + -37) - 53) (3 - 1024 - 53)) (e - -37))
    with (e - 16) by lia.
  replace (e - -37 - (e - 16)) with 53 by lia.
  assert (Hq : Z.div_eucl (Z.shiftl (Zpos m) 53) (Zpos 4503599627370496)
               = (Zpos (xO m), 0)).
  { rewrite Z.shiftl_mul_pow2 by lia.
    pose proof (Z_div_mod (Z.pos m * 2 ^ 53) 4503599627370496 eq_refl) as H.
    destruct (Z.div_eucl (Z.pos m * 2 ^ 53) 4503599627370496) as [q r].
    change (2 ^ 53) with 9007199254740992 in *.
    assert (q = Zpos (xO m) /\ r = 0) as [-> ->]; [|reflexivity].
    change (Zpos (xO m)) with (2 * Zpos m). lia. }
  rewrite Hq.
  unfold SpecFloat.new_location.
  cbn [Z.even SpecFloat.new_location_even Z.eqb].
  unfold SpecFloat.binary_round_aux, SpecFloat.shr_fexp.
  cbn [SpecFloat.Zdigits2 SpecFloat.digits2_pos]. rewrite Hd.
  unfold SpecFloat.fexp, SpecFloat.emin.
  replace (Z.max (Z.pos (Pos.succ 53) + (e - 16) - 53) (3 - 1024 - 53) - (e - 16))
    with 1 by lia.
  cbn [SpecFloat.shr SpecFloat.shr_record_of_loc SpecFloat.iter_pos
       SpecFloat.shr_1 orb SpecFloat.shr_m SpecFloat.loc_of_shr_record
       SpecFloat.round_nearest_even SpecFloat.Zdigits2].
  rewrite Hd.
  replace (Z.max (53 + (e - 16 + 1) - 53) (3 - 1024 - 53) - (e - 16 + 1))
    with 0 by lia.
  cbn [SpecFloat.shr SpecFloat.shr_m].
  replace (e - 16 + 1 <=? 1024 - 53) with true
    by (symmetry; apply Z.leb_le; lia).
  f_equal. lia.
Qed.

Lemma Qpower_two_shift (e k : Z) : (2 ^ (e + k) == 2 ^ e * 2 ^ k)%Q.
Proof. apply Qpower_plus. discriminate. Qed.

(** The product that [createBlob] forms, computed in binary64, is the
    product of the rational model. *)
Lemma Nmul_binary64 (x : SpecFloat.spec_float) :
  scalable x ->
  same_number (Number_of_binary64 (binary64_mul x two15))
              (Nmul (Number_of_binary64 x) (Finite 32768)).
Proof.
  destruct x as [s|s| |s m e]; cbn [scalable].
  - intros _. destruct s; reflexivity.
  - intros _. destruct s; reflexivity.
  - intros _. reflexivity.
  - intros [Hd He]. rewrite binary64_mul_two15 by (auto; lia).
    cbn [Number_of_binary64 Nmul same_number].
    rewrite Qpower_two_shift. change (2 ^ 15)%Q with 32768%Q. ring.
Qed.

(** The quotient that [decodeAudioData] forms, computed in binary64, is
    the quotient of the rational model. *)
Lemma Ndiv_binary64 (x : SpecFloat.spec_float) :
  scalable x ->
  same_number (Number_of_binary64 (binary64_div x two15))
              (Ndiv_two15 (Number_of_binary64 x)).
Proof.
  destruct x as [s|s| |s m e]; cbn [scalable].
  - intros _. destruct s; reflexivity.
  - intros _. destruct s; reflexivity.
  - intros _. reflexivity.
  - intros [Hd He]. rewrite binary64_div_two15 by (auto; lia).
    cbn [Number_of_binary64 Ndiv_two15 same_number].
    unfold Z.sub. rewrite Qpower_two_shift.
    change (2 ^ (- (15)))%Q with (1 # 32768)%Q. field.
Qed.

Lemma Qneg_same (a b : Q) : (a == b)%Q -> Qneg a = Qneg b.
Proof.
  destruct a as [n d], b as [n' d']. unfold Qeq, Qneg. cbn [Qnum Qden].
  intros H.
  destruct (Z.ltb_spec n 0), (Z.ltb_spec n' 0); try reflexivity; nia.
Qed.

Lemma truncate_same (a b : Q) : (a == b)%Q -> truncate a = truncate b.
Proof.
  intros H. unfold truncate. rewrite (Qneg_same a b H).
  destruct (Qneg b).
  - f_equal. apply Qfloor_comp. now rewrite H.
  - now apply Qfloor_comp.
Qed.

Lemma ToInt16_same (x y : Number) : same_number x y -> ToInt16 x = ToInt16 y.
Proof.
  destruct x as [a| | |], y as [b| | |]; cbn [same_number]; try tauto.
  intros H. cbn [ToInt16]. now rewrite (truncate_same a b H).
Qed.

(** The 16-bit value stored for a sample does not depend on whether the
    scaling is done in binary64 or on rationals. *)
Lemma ToInt16_binary64 (x : SpecFloat.spec_float) :
  scalable x ->
  ToInt16 (Number_of_binary64 (binary64_mul x two15))
  = ToInt16 (Nmul (Number_of_binary64 x) (Finite 32768)).
Proof. intros H. apply ToInt16_same, Nmul_binary64, H. Qed.

(** ** Views over one buffer *)

Lemma to_N_ToUint8 (n : N) : Byte.to_N (ToUint8 n) = (n mod 256)%N.
Proof.
  unfold ToUint8.
  destruct (Byte.of_N (n mod 256)) as [b|] eqn:E.
  - now apply Byte.to_of_N.
  - apply Byte.of_N_None_iff in E.
    pose proof (N.mod_upper_bound n 256). lia.
Qed.

Lemma int16_of_bytes (v : Z) (r : list byte) :
  is_int16 v -> int16_elements (int16_bytes v ++ r) = v :: int16_elements r.
Proof.
  unfold is_int16. intros Hv.
  cbn [int16_bytes app int16_elements]. f_equal.
  unfold int16_of_pair. rewrite !to_N_ToUint8.
  set (u := v mod 65536).
  assert (Hu : 0 <= u < 65536) by (subst u; euclid).
  replace (Z.of_N (Z.to_N (u mod 256) mod 256)
           + 256 * Z.of_N (Z.to_N (u / 256) mod 256)) with u by euclid.
  destruct (Z.leb_spec 32768 u); subst u; euclid.
Qed.

Lemma int16_elements_view (l : list Z) :
  Forall is_int16 l -> int16_elements (Uint8Array_of_Int16 l) = l.
Proof.
  induction 1 as [| v l Hv _ IH]; [reflexivity|].
  cbn [Uint8Array_of_Int16 flat_map].
  rewrite (int16_of_bytes v _ Hv). f_equal. exact IH.
Qed.

Lemma Uint8Array_of_Int16_length (l : list Z) :
  List.length (Uint8Array_of_Int16 l) = (2 * List.length l)%nat.
Proof.
  induction l as [| v l IH]; [reflexivity|].
  cbn [Uint8Array_of_Int16 flat_map]. rewrite length_app.
  fold (Uint8Array_of_Int16 l). rewrite IH. cbn [int16_bytes List.length]. lia.
Qed.

Lemma Int16Array_of_view (l : list Z) :
  Forall is_int16 l -> Int16Array_of_buffer (Uint8Array_of_Int16 l) = Ok l.
Proof.
  intros Hl. unfold Int16Array_of_buffer.
  rewrite Uint8Array_of_Int16_length.
  replace (Nat.even (2 * List.length l)) with true.
  - now rewrite int16_elements_view.
  - symmetry. apply Nat.even_spec. now exists (List.length l).
Qed.

Lemma pcm16_range (samples : list Number) : Forall is_int16 (pcm16 samples).
Proof.
  unfold pcm16. rewrite Forall_map. apply Forall_forall.
  intros x _. apply ToInt16_range.
Qed.

(** [createBlob] never throws, and its payload decodes to the bytes of
    the converted samples. *)
Lemma createBlob_bytes (samples : list Number) :
  exists blob : Blob,
    createBlob samples = Ok blob
    /\ mimeType blob = "audio/pcm;rate=16000"%string
    /\ decode (data blob) = Ok (Uint8Array_of_Int16 (pcm16 samples)).
Proof.
  destruct (decode_encode_bytes (Uint8Array_of_Int16 (pcm16 samples)))
    as [s [Es Ds]].
  exists {| data := s; mimeType := "audio/pcm;rate=16000" |}.
  unfold createBlob. fold (pcm16 samples). rewrite Es. cbn [rbind data mimeType].
  auto.
Qed.

(** C7.  For every finite sample [x], inside or outside [-1.0, 1.0],
    the 16-bit value that the send path puts on the wire is [x] times
    32768, truncated toward zero and reduced modulo 2^16 into the signed
    16-bit range: nothing is clamped and nothing is dithered, so
    out-of-range samples wrap.  The blob is what [onaudioprocess] hands
    to the session.  (A sample that is not a number or is infinite is
    stored as 0.) *)
Theorem createBlob_pcm16 (samples : list Q) :
  exists blob : Blob,
    createBlob (List.map Finite samples) = Ok blob
    /\ pcm16_of_blob blob = Ok (List.map spec_pcm16 samples)
    /\ (forall (s : handle) (st : State),
          effects (exec (onaudioprocess s (List.map Finite samples)) st)
          = effects st ++ [SendRealtimeInput s blob])
    /\ pcm16 [NaN; PosInfinity; NegInfinity] = [0; 0; 0].
Proof.
  destruct (createBlob_bytes (List.map Finite samples)) as [blob [E [_ D]]].
  exists blob. split; [exact E|]. split; [|split].
  - unfold pcm16_of_blob. rewrite D. cbn [rbind].
    rewrite Int16Array_of_view by apply pcm16_range.
    f_equal. unfold pcm16. rewrite map_map.
    apply map_ext. intros q. apply ToInt16_scaled.
  - intros s st. unfold exec, onaudioprocess, bind, lift. now rewrite E.
  - reflexivity.
Qed.

(** ** Decoding one channel *)

Lemma sample_at_cons (v : Z) (l : list Z) (i : nat) :
  sample_at (v :: l) (S i) = sample_at l i.
Proof. reflexivity. Qed.

Lemma samples_seq (l : list Z) :
  List.map (fun i => sample_at l (i * 1 + 0)) (seq 0 (List.length l))
  = List.map dequantize l.
Proof.
  rewrite (map_ext _ (sample_at l))
    by (intros i; now rewrite Nat.mul_1_r, Nat.add_0_r).
  induction l as [| v l IH]; [reflexivity|].
  cbn [List.length seq List.map]. f_equal.
  rewrite <- seq_shift, map_map.
  rewrite (map_ext _ (sample_at l)) by (intros i; apply sample_at_cons).
  exact IH.
Qed.

Lemma decodeAudioData_mono (bytes : list byte) (l : list Z) (rate : Q) :
  Int16Array_of_buffer bytes = Ok l -> l <> [] -> (0 < rate)%Q ->
  decodeAudioData bytes rate 1
  = Ok {| numberOfChannels := 1;
          frames := List.length l;
          sampleRate := rate;
          channelData := [List.map dequantize l] |}.
Proof.
  intros E Hl Hr. unfold decodeAudioData. rewrite E. cbn [rbind].
  rewrite Nat.div_1_r. unfold createBuffer.
  replace (List.length l =? 0)%nat with false
    by (symmetry; apply Nat.eqb_neq; destruct l; [congruence | discriminate]).
  replace (Qle_bool rate 0) with false.
  - cbn [Nat.eqb orb rbind numberOfChannels frames sampleRate seq List.map].
    now rewrite samples_seq.
  - symmetry. apply not_true_is_false. intros H.
    apply Qle_bool_iff in H. lra.
Qed.

Lemma roundtrip_samples (samples : list Number) :
  samples <> [] ->
  roundtrip samples
  = Ok {| numberOfChannels := 1;
          frames := List.length samples;
          sampleRate := 24000;
          channelData := [List.map dequantize (pcm16 samples)] |}.
Proof.
  intros Hs. unfold roundtrip.
  destruct (createBlob_bytes samples) as [blob [E [_ D]]].
  rewrite E. cbn [rbind]. rewrite D. cbn [rbind].
  rewrite (decodeAudioData_mono _ (pcm16 samples)).
  - unfold pcm16 at 1. now rewrite length_map.
  - apply Int16Array_of_view, pcm16_range.
  - unfold pcm16. destruct samples; [congruence | discriminate].
  - reflexivity.
Qed.

(** ** Quantization error *)

Lemma truncate_nonneg (q : Q) :
  (0 <= q)%Q -> (inject_Z (truncate q) <= q /\ q < inject_Z (truncate q) + 1)%Q.
Proof.
  intros Hq. unfold truncate, Qneg.
  destruct (Z.ltb_spec (Qnum q) 0) as [Hn|Hn].
  - exfalso. destruct q as [n d]. unfold Qle in Hq. cbn in *. lia.
  - split; [apply Qfloor_le|].
    pose proof (Qlt_floor q) as H. rewrite inject_Z_plus in H. exact H.
Qed.

Lemma truncate_neg (q : Q) :
  (q < 0)%Q -> (q <= inject_Z (truncate q) /\ inject_Z (truncate q) < q + 1)%Q.
Proof.
  intros Hq. unfold truncate, Qneg.
  destruct (Z.ltb_spec (Qnum q) 0) as [Hn|Hn].
  - fold (Qceiling q). split; [apply Qle_ceiling|].
    pose proof (Qceiling_lt q) as H.
    unfold Z.sub in H. rewrite inject_Z_plus in H.
    change (inject_Z (- (1))) with (-1 # 1)%Q in H. lra.
  - exfalso. destruct q as [n d]. unfold Qlt in Hq. cbn in *. lia.
Qed.

(** The truncated value is an integer between zero and [q], less than
    one away from [q]. *)
Lemma truncate_close (q : Q) :
  (Qabs (inject_Z (truncate q) - q) < 1)%Q
  /\ (Qabs (inject_Z (truncate q)) <= Qabs q)%Q.
Proof.
  destruct (Qlt_le_dec q 0) as [Hq|Hq].
  - destruct (truncate_neg q Hq) as [H1 H2].
    assert (H0 : (inject_Z (truncate q) <= 0)%Q).
    { change 0%Q with (inject_Z 0). rewrite <- Zle_Qle. unfold truncate, Qneg.
      destruct (Z.ltb_spec (Qnum q) 0) as [Hn|Hn].
      - fold (Qceiling q). change 0%Z with (Qceiling 0).
        apply Qceiling_resp_le. lra.
      - exfalso. destruct q as [n d]. unfold Qlt in Hq. cbn in *. lia. }
    split.
    + apply Qabs_Qlt_condition. split; lra.
    + rewrite (Qabs_neg q) by lra.
      apply Qabs_Qle_condition. split; lra.
  - destruct (truncate_nonneg q Hq) as [H1 H2].
    assert (H0 : (0 <= inject_Z (truncate q))%Q).
    { change 0%Q with (inject_Z 0). rewrite <- Zle_Qle. unfold truncate, Qneg.
      destruct (Z.ltb_spec (Qnum q) 0) as [Hn|Hn].
      - exfalso. destruct q as [n d]. unfold Qle in Hq. cbn in *. lia.
      - change 0%Z with (Qfloor 0). now apply Qfloor_resp_le. }
    split.
    + apply Qabs_Qlt_condition. split; lra.
    + rewrite (Qabs_pos q) by lra.
      apply Qabs_Qle_condition. split; lra.
Qed.

Lemma truncate_int16 (q : Q) :
  (-32768 <= q)%Q -> (q < 32768)%Q -> is_int16 (truncate q).
Proof.
  intros Hlo Hhi. unfold is_int16.
  change (-32768) with (- (32768))%Z.
  rewrite Zle_Qle, Zlt_Qlt.
  change (inject_Z (- (32768))) with (-32768 # 1)%Q.
  change (inject_Z 32768) with (32768 # 1)%Q.
  destruct (Qlt_le_dec q 0) as [Hq|Hq].
  - destruct (truncate_neg q Hq). split; lra.
  - destruct (truncate_nonneg q Hq). split; lra.
Qed.

Lemma ToInt16_exact (q : Q) :
  is_int16 (truncate q) -> ToInt16 (Finite q) = truncate q.
Proof.
  unfold is_int16. intros H. cbn [ToInt16].
  destruct (Z.leb_spec 32768 (truncate q mod 65536)); euclid.
Qed.

Lemma sample_within_one_step (x : Number) :
  representable x ->
  within_one_step x (dequantize (ToInt16 (Nmul x (Finite 32768)))).
Proof.
  destruct x as [q| | |]; cbn [representable]; try contradiction.
  intros [Hlo Hhi]. cbn [Nmul].
  rewrite ToInt16_exact by (apply truncate_int16; lra).
  unfold dequantize. cbn [within_one_step].
  destruct (truncate_close (q * 32768)) as [Hc _].
  apply Qabs_Qlt_condition in Hc.
  apply Qabs_Qle_condition.
  generalize dependent (inject_Z (truncate (q * 32768))). intros T Hc.
  unfold Qdiv. change (/ 32768)%Q with (1 # 32768)%Q.
  split; lra.
Qed.

Lemma ToInt16_zero (q : Q) :
  (q == 0)%Q -> ToInt16 (Nmul (Finite q) (Finite 32768)) = 0.
Proof.
  intros Hq. rewrite ToInt16_scaled. unfold spec_pcm16.
  assert (Hn : Qnum q = 0).
  { destruct q as [n d]. unfold Qeq in Hq. cbn in *. lia. }
  cbn [Qmult Qnum Qden]. rewrite Hn. reflexivity.
Qed.

Lemma sample_zero (x : Number) :
  is_zero x -> is_zero (dequantize (ToInt16 (Nmul x (Finite 32768)))).
Proof.
  destruct x as [q| | |]; cbn [is_zero]; try contradiction.
  intros Hq. rewrite (ToInt16_zero q Hq). reflexivity.
Qed.

(** C2 (as amended).  For every non-empty sample sequence whose samples
    lie in [-1.0, 1.0), encoding with [createBlob] and decoding with
    [decodeAudioData] succeeds and returns, sample for sample, a value
    within one quantization step (1/32768) of the original. *)
Theorem roundtrip_within_one_step (samples : list Number) :
  samples <> [] -> Forall representable samples ->
  exists out : list Number,
    roundtrip samples
    = Ok {| numberOfChannels := 1;
            frames := List.length samples;
            sampleRate := 24000;
            channelData := [out] |}
    /\ Forall2 within_one_step samples out.
Proof.
  intros Hne Hs. exists (List.map dequantize (pcm16 samples)).
  split; [now apply roundtrip_samples|].
  clear Hne. induction Hs as [| x l Hx _ IH]; [constructor|].
  cbn [pcm16 List.map]. constructor; [now apply sample_within_one_step | exact IH].
Qed.

Lemma roundtrip_within_one_step_witness :
  exists out : list Number,
    roundtrip [Finite (1 # 2); Finite (-1); Finite (-(1 # 3))]
    = Ok {| numberOfChannels := 1;
            frames := 3;
            sampleRate := 24000;
            channelData := [out] |}
    /\ Forall2 within_one_step
         [Finite (1 # 2); Finite (-1); Finite (-(1 # 3))] out.
Proof.
  apply (roundtrip_within_one_step
           [Finite (1 # 2); Finite (-1); Finite (-(1 # 3))]).
  - discriminate.
  - repeat constructor; cbn; lra.
Defined.

(** C2, the counterexample.  The full-scale sample [1.0] belongs to the
    normalized range, yet it is encoded as [-32768] and comes back as
    [-1.0], two units away. *)
Lemma full_scale_sample_wraps :
  normalized (Finite 1)
  /\ roundtrip [Finite 1]
     = Ok {| numberOfChannels := 1;
             frames := 1;
             sampleRate := 24000;
             channelData := [[Finite (-32768 # 32768)]] |}
  /\ ~ within_one_step (Finite 1) (Finite (-32768 # 32768)).
Proof.
  split; [|split].
  - cbn. split; lra.
  - vm_compute. reflexivity.
  - cbn [within_one_step]. intros H.
    apply Qabs_Qle_condition in H. destruct H as [H _]. lra.
Qed.

(** C8.  A captured frame that consists of zero samples only is encoded
    and decoded to a frame of the same length that consists of zero
    samples only: silence round-trips with no error at all. *)
Theorem silence_roundtrip (samples : list Number) :
  samples <> [] -> Forall is_zero samples ->
  exists out : list Number,
    roundtrip samples
    = Ok {| numberOfChannels := 1;
            frames := List.length samples;
            sampleRate := 24000;
            channelData := [out] |}
    /\ List.length out = List.length samples
    /\ Forall is_zero out.
Proof.
  intros Hne Hs. exists (List.map dequantize (pcm16 samples)).
  split; [now apply roundtrip_samples|]. split.
  - unfold pcm16. now rewrite !length_map.
  - clear Hne. induction Hs as [| x l Hx _ IH]; [constructor|].
    cbn [pcm16 List.map]. constructor; [now apply sample_zero | exact IH].
Qed.

Lemma silence_roundtrip_witness :
  exists out : list Number,
    roundtrip (repeat (Finite 0) 4096)
    = Ok {| numberOfChannels := 1;
            frames := List.length (repeat (Finite 0) 4096);
            sampleRate := 24000;
            channelData := [out] |}
    /\ List.length out = List.length (repeat (Finite 0) 4096)
    /\ Forall is_zero out.
Proof.
  apply (silence_roundtrip (repeat (Finite 0) 4096)).
  - discriminate.
  - apply Forall_forall. intros x Hx. apply repeat_spec in Hx. subst x.
    reflexivity.
Defined.

(** ** Rounding to binary64 *)

(** *** Powers of two *)

Lemma pow2_pos (e : Z) : (0 < 2 ^ e)%Q.
Proof. apply Qpower_0_lt. reflexivity. Qed.

Lemma pow2_add (a b : Z) : (2 ^ (a + b) == 2 ^ a * 2 ^ b)%Q.
Proof. apply Qpower_plus. discriminate. Qed.

Lemma pow2_le (a b : Z) : a <= b -> (2 ^ a <= 2 ^ b)%Q.
Proof. intros H. apply Qpower_le_compat_l; [exact H | discriminate]. Qed.

Lemma pow2_lt (a b : Z) : a < b -> (2 ^ a < 2 ^ b)%Q.
Proof. intros H. apply Qpower_lt_compat_l; [exact H | reflexivity]. Qed.

Lemma pow2_lt_inv (a b : Z) : (2 ^ a < 2 ^ b)%Q -> a < b.
Proof. intros H. apply (Qpower_lt_compat_l_inv 2); [exact H | reflexivity]. Qed.

Lemma pow2_int (k : Z) : 0 <= k -> (2 ^ k == inject_Z (2 ^ k))%Q.
Proof. intros H. symmetry. exact (Zpower_Qpower 2 k H). Qed.

Lemma pow2_succ (a : Z) : (2 ^ (a + 1) == 2 * 2 ^ a)%Q.
Proof. rewrite pow2_add. change (2 ^ 1)%Q with 2%Q. ring. Qed.

(** [2^a / 2^u] is the integer [2^(a-u)] when [u <= a]. *)
Lemma pow2_quot (a u : Z) :
  u <= a -> (2 ^ a / 2 ^ u == inject_Z (2 ^ (a - u)))%Q.
Proof.
  intros H. rewrite <- pow2_int by lia.
  replace a with ((a - u) + u) at 1 by ring. rewrite pow2_add.
  field. pose proof (pow2_pos u). lra.
Qed.

(** *** Binades *)

Lemma Q_as_quotient (x : Q) :
  (x * inject_Z (Zpos (Qden x)) == inject_Z (Qnum x))%Q.
Proof.
  destruct x as [n d]. unfold Qeq, Qmult, inject_Z. cbn. lia.
Qed.

Lemma binade_spec (x : Q) :
  (0 < x)%Q -> (2 ^ binade x <= x /\ x < 2 ^ (binade x + 1))%Q.
Proof.
  intros Hx. unfold binade.
  set (a := Z.log2 (Qnum x)). set (b := Z.log2 (Zpos (Qden x))).
  assert (Hn : 0 < Qnum x) by (destruct x as [n d]; unfold Qlt in Hx; cbn in *; lia).
  pose proof (Z.log2_spec (Qnum x) Hn) as [Ha1 Ha2]. fold a in Ha1, Ha2.
  pose proof (Z.log2_spec (Zpos (Qden x)) eq_refl) as [Hb1 Hb2]. fold b in Hb1, Hb2.
  pose proof (Z.log2_nonneg (Qnum x)) as Ha0. fold a in Ha0.
  pose proof (Z.log2_nonneg (Zpos (Qden x))) as Hb0. fold b in Hb0.
  pose proof (Q_as_quotient x) as E.
  set (N := inject_Z (Qnum x)) in *. set (D := inject_Z (Zpos (Qden x))) in *.
  assert (HN1 : (2 ^ a <= N)%Q)
    by (rewrite pow2_int by lia; unfold N; now rewrite <- Zle_Qle).
  assert (HN2 : (N < 2 ^ (a + 1))%Q)
    by (rewrite pow2_int by lia; unfold N; now rewrite <- Zlt_Qlt).
  assert (HD1 : (2 ^ b <= D)%Q)
    by (rewrite pow2_int by lia; unfold D; now rewrite <- Zle_Qle).
  assert (HD2 : (D < 2 ^ (b + 1))%Q)
    by (rewrite pow2_int by lia; unfold D; now rewrite <- Zlt_Qlt).
  assert (U : (x < 2 ^ (a - b + 1))%Q).
  { replace (a + 1) with (b + (a - b + 1)) in HN2 by ring.
    rewrite pow2_add in HN2.
    pose proof (pow2_pos b). pose proof (pow2_pos (a - b + 1)).
    set (P := (2 ^ b)%Q) in *. set (R := (2 ^ (a - b + 1))%Q) in *.
    apply Qnot_le_lt. intros C.
    assert (P * R <= D * x)%Q by nra. nra. }
  assert (L : (2 ^ (a - b - 1) < x)%Q).
  { replace a with ((b + 1) + (a - b - 1)) in HN1 by ring.
    rewrite pow2_add in HN1.
    pose proof (pow2_pos (b + 1)). pose proof (pow2_pos (a - b - 1)).
    set (P := (2 ^ (b + 1))%Q) in *. set (R := (2 ^ (a - b - 1))%Q) in *.
    apply Qnot_le_lt. intros C.
    assert (D * x <= D * R)%Q by nra. nra. }
  destruct (Qle_bool (2 ^ (a - b)) x) eqn:Hc.
  - apply Qle_bool_iff in Hc. split; assumption.
  - assert (Hlt : (x < 2 ^ (a - b))%Q).
    { apply Qnot_le_lt. intros C. apply Qle_bool_iff in C. congruence. }
    replace (a - b - 1 + 1) with (a - b) by ring.
    split; [apply Qlt_le_weak; exact L | exact Hlt].
Qed.

Lemma binade_unique (x : Q) (e : Z) :
  (2 ^ e <= x)%Q -> (x < 2 ^ (e + 1))%Q -> binade x = e.
Proof.
  intros H1 H2.
  assert (Hx : (0 < x)%Q) by (pose proof (pow2_pos e); lra).
  destruct (binade_spec x Hx) as [B1 B2].
  assert (binade x < e + 1) by (apply pow2_lt_inv; lra).
  assert (e < binade x + 1) by (apply pow2_lt_inv; lra).
  lia.
Qed.

Lemma binade_le (x y : Q) : (0 < x)%Q -> (x <= y)%Q -> binade x <= binade y.
Proof.
  intros Hx Hxy.
  destruct (binade_spec x Hx) as [B1 _].
  destruct (binade_spec y) as [_ B2]; [lra|].
  assert (binade x < binade y + 1) by (apply pow2_lt_inv; lra).
  lia.
Qed.

Lemma binade_eq (x y : Q) : (0 < x)%Q -> (x == y)%Q -> binade x = binade y.
Proof.
  intros Hx E. apply Z.le_antisymm; apply binade_le; lra.
Qed.

(** *** Rounding to an integer *)

Lemma round_half_even_cases (x : Q) :
  let r := round_half_even x in
  (r = Qfloor x /\ (x - inject_Z (Qfloor x) <= 1 # 2)%Q)
  \/ (r = Qfloor x + 1 /\ (1 # 2 <= x - inject_Z (Qfloor x))%Q).
Proof.
  unfold round_half_even.
  destruct (Qcompare_spec (x - inject_Z (Qfloor x)) (1 # 2)) as [E|E|E].
  - destruct (Z.even (Qfloor x)); [left | right]; split; auto; lra.
  - left. split; [reflexivity | lra].
  - right. split; [reflexivity | lra].
Qed.

Lemma floor_bounds (x : Q) :
  (inject_Z (Qfloor x) <= x /\ x < inject_Z (Qfloor x) + 1)%Q.
Proof.
  split; [apply Qfloor_le|].
  pose proof (Qlt_floor x) as H. rewrite inject_Z_plus in H. exact H.
Qed.

Lemma round_half_even_error (x : Q) :
  (Qabs (inject_Z (round_half_even x) - x) <= 1 # 2)%Q.
Proof.
  pose proof (floor_bounds x) as [F1 F2].
  apply Qabs_Qle_condition.
  destruct (round_half_even_cases x) as [[-> H]|[-> H]];
    rewrite ?inject_Z_plus; change (inject_Z 1) with 1%Q; split; lra.
Qed.

Lemma round_half_even_int (k : Z) : round_half_even (inject_Z k) = k.
Proof.
  unfold round_half_even. rewrite Qfloor_Z.
  destruct (Qcompare_spec (inject_Z k - inject_Z k) (1 # 2)) as [E|E|E].
  - exfalso. lra.
  - reflexivity.
  - exfalso. lra.
Qed.

Lemma round_half_even_le (x y : Q) :
  (x <= y)%Q -> round_half_even x <= round_half_even y.
Proof.
  intros Hxy.
  pose proof (Qfloor_resp_le x y Hxy) as Hf.
  destruct (Z.eq_dec (Qfloor x) (Qfloor y)) as [E|N].
  - unfold round_half_even. rewrite E.
    destruct (Qcompare_spec (x - inject_Z (Qfloor y)) (1 # 2)) as [E1|E1|E1];
      destruct (Qcompare_spec (y - inject_Z (Qfloor y)) (1 # 2)) as [E2|E2|E2];
      try (destruct (Z.even (Qfloor y))); try lia; exfalso; lra.
  - assert (Qfloor x + 1 <= Qfloor y) by lia.
    destruct (round_half_even_cases x) as [[-> _]|[-> _]];
      destruct (round_half_even_cases y) as [[-> _]|[-> _]]; lia.
Qed.

Lemma round_half_even_eq (x y : Q) :
  (x == y)%Q -> round_half_even x = round_half_even y.
Proof.
  intros E. apply Z.le_antisymm; apply round_half_even_le; lra.
Qed.

Lemma round_half_even_nonneg (x : Q) : (0 <= x)%Q -> 0 <= round_half_even x.
Proof.
  intros H. rewrite <- (round_half_even_int 0).
  apply round_half_even_le. exact H.
Qed.

(** *** Rounding a magnitude *)

Lemma round_magnitude_zero (x : Q) : (x == 0)%Q -> round_magnitude x = 0%Q.
Proof.
  intros E. unfold round_magnitude.
  apply Qeq_bool_iff in E. now rewrite E.
Qed.

Lemma round_magnitude_pos (x : Q) :
  (0 < x)%Q ->
  round_magnitude x
  = (inject_Z (round_half_even (x / 2 ^ ulp_exponent x)) * 2 ^ ulp_exponent x)%Q.
Proof.
  intros H. unfold round_magnitude.
  destruct (Qeq_bool x 0) eqn:E; [|reflexivity].
  apply Qeq_bool_iff in E. lra.
Qed.

Lemma round_magnitude_nonneg (x : Q) : (0 <= x)%Q -> (0 <= round_magnitude x)%Q.
Proof.
  intros H. unfold round_magnitude.
  destruct (Qeq_bool x 0) eqn:E; [lra|].
  pose proof (pow2_pos (ulp_exponent x)) as Hp.
  assert (0 <= x / 2 ^ ulp_exponent x)%Q.
  { apply Qle_shift_div_l; [exact Hp | lra]. }
  pose proof (round_half_even_nonneg _ H0) as Hr.
  apply Qmult_le_0_compat; [|lra].
  change 0%Q with (inject_Z 0). now rewrite <- Zle_Qle.
Qed.

(** A point of the grid of [x] that is above [x] is above its rounding,
    and one that is below is below. *)
Lemma round_magnitude_below (x : Q) (k : Z) :
  (0 < x)%Q -> (x <= inject_Z k * 2 ^ ulp_exponent x)%Q ->
  (round_magnitude x <= inject_Z k * 2 ^ ulp_exponent x)%Q.
Proof.
  intros Hx H. rewrite (round_magnitude_pos x Hx).
  pose proof (pow2_pos (ulp_exponent x)) as Hp.
  set (P := (2 ^ ulp_exponent x)%Q) in *.
  assert (Hq : (x / P <= inject_Z k)%Q) by (apply Qle_shift_div_r; assumption).
  pose proof (round_half_even_le _ _ Hq) as Hr.
  rewrite round_half_even_int in Hr. rewrite Zle_Qle in Hr.
  apply Qmult_le_compat_r; [exact Hr | lra].
Qed.

Lemma round_magnitude_above (x : Q) (k : Z) :
  (0 < x)%Q -> (inject_Z k * 2 ^ ulp_exponent x <= x)%Q ->
  (inject_Z k * 2 ^ ulp_exponent x <= round_magnitude x)%Q.
Proof.
  intros Hx H. rewrite (round_magnitude_pos x Hx).
  pose proof (pow2_pos (ulp_exponent x)) as Hp.
  set (P := (2 ^ ulp_exponent x)%Q) in *.
  assert (Hq : (inject_Z k <= x / P)%Q) by (apply Qle_shift_div_l; assumption).
  pose proof (round_half_even_le _ _ Hq) as Hr.
  rewrite round_half_even_int in Hr. rewrite Zle_Qle in Hr.
  apply Qmult_le_compat_r; [exact Hr | lra].
Qed.

(** A power of two at or above the unit of [x] is a point of its grid. *)
Lemma pow2_on_grid (a u : Z) :
  u <= a -> (2 ^ a == inject_Z (2 ^ (a - u)) * 2 ^ u)%Q.
Proof.
  intros H. rewrite <- pow2_int by lia. rewrite <- pow2_add.
  now replace (a - u + u) with a by ring.
Qed.

Lemma ulp_exponent_le (x y : Q) :
  (0 < x)%Q -> (x <= y)%Q -> ulp_exponent x <= ulp_exponent y.
Proof.
  intros Hx Hxy. unfold ulp_exponent.
  pose proof (binade_le x y Hx Hxy). lia.
Qed.

Lemma round_magnitude_le (x y : Q) :
  (0 <= x)%Q -> (x <= y)%Q -> (round_magnitude x <= round_magnitude y)%Q.
Proof.
  intros Hx Hxy.
  destruct (Qeq_dec x 0) as [E|N].
  - rewrite (round_magnitude_zero x E). apply round_magnitude_nonneg. lra.
  - assert (Hx' : (0 < x)%Q) by lra. assert (Hy : (0 < y)%Q) by lra.
    pose proof (ulp_exponent_le x y Hx' Hxy) as Hu.
    destruct (Z.eq_dec (ulp_exponent x) (ulp_exponent y)) as [Eu|Nu].
    + rewrite (round_magnitude_pos x Hx'), (round_magnitude_pos y Hy), Eu.
      pose proof (pow2_pos (ulp_exponent y)) as Hp.
      set (P := (2 ^ ulp_exponent y)%Q) in *.
      assert (Hq : (x / P <= y / P)%Q).
      { apply Qle_shift_div_l; [exact Hp|].
        unfold Qdiv. rewrite <- Qmult_assoc, (Qmult_comm (/ P)), Qmult_inv_r by lra.
        lra. }
      pose proof (round_half_even_le _ _ Hq) as Hr. rewrite Zle_Qle in Hr.
      apply Qmult_le_compat_r; [exact Hr | lra].
    + (* the binades differ: the power of two between them separates *)
      set (a := binade y).
      assert (Hbx : binade x < a).
      { pose proof (binade_le x y Hx' Hxy). unfold ulp_exponent in *. fold a in H |- *. lia. }
      destruct (binade_spec x Hx') as [_ X2].
      destruct (binade_spec y Hy) as [Y1 _]. fold a in Y1.
      assert (Hxa : (x <= 2 ^ a)%Q).
      { pose proof (pow2_le (binade x + 1) a ltac:(lia)). lra. }
      assert (Hux : ulp_exponent x <= a) by (unfold ulp_exponent in *; fold a in Hu; lia).
      assert (Huy : ulp_exponent y <= a) by (unfold ulp_exponent in *; fold a in Hu, Nu |- *; lia).
      apply (Qle_trans _ (2 ^ a)).
      * rewrite (pow2_on_grid a _ Hux) in Hxa |- *.
        now apply round_magnitude_below.
      * rewrite (pow2_on_grid a _ Huy) in Y1 |- *.
        now apply round_magnitude_above.
Qed.

Lemma round_magnitude_eq (x y : Q) :
  (0 <= x)%Q -> (x == y)%Q -> (round_magnitude x == round_magnitude y)%Q.
Proof.
  intros Hx E. apply Qle_antisym; apply round_magnitude_le; lra.
Qed.

Lemma binade_pow2 (e : Z) : binade (2 ^ e) = e.
Proof.
  apply binade_unique; [lra | apply pow2_lt; lia].
Qed.

(** A positive point of its own grid is kept. *)
Lemma round_magnitude_on_grid (r : Q) (j : Z) :
  (0 < r)%Q -> (r == inject_Z j * 2 ^ ulp_exponent r)%Q ->
  (round_magnitude r == r)%Q.
Proof.
  intros Hr E. apply Qle_antisym.
  - rewrite E at 2. apply round_magnitude_below; [exact Hr | lra].
  - rewrite E at 1. apply round_magnitude_above; [exact Hr | lra].
Qed.

Lemma round_magnitude_fixed (x : Q) :
  (0 <= x)%Q -> (round_magnitude (round_magnitude x) == round_magnitude x)%Q.
Proof.
  intros Hx0.
  destruct (Qeq_dec x 0) as [E|N].
  { rewrite (round_magnitude_zero x E). reflexivity. }
  assert (Hx : (0 < x)%Q) by lra.
  set (r := round_magnitude x).
  destruct (Qeq_dec r 0) as [Er|Nr].
  { rewrite (round_magnitude_zero r Er). lra. }
  assert (Hr : (0 < r)%Q).
  { pose proof (round_magnitude_nonneg x Hx0). fold r in H. lra. }
  set (u := ulp_exponent x). set (e := binade x).
  set (k := round_half_even (x / 2 ^ u)).
  assert (Erk : r = (inject_Z k * 2 ^ u)%Q) by (apply round_magnitude_pos; exact Hx).
  pose proof (pow2_pos u) as Hp.
  assert (Hk : 1 <= k).
  { assert (0 < inject_Z k)%Q.
    { rewrite Erk in Hr. apply Qnot_le_lt. intros C.
      assert (inject_Z k * 2 ^ u <= 0)%Q by nra. lra. }
    change 0%Q with (inject_Z 0) in H. rewrite <- Zlt_Qlt in H. lia. }
  assert (Hk' : (1 <= inject_Z k)%Q)
    by (change 1%Q with (inject_Z 1); now rewrite <- Zle_Qle).
  assert (Hru : (2 ^ u <= r)%Q) by (rewrite Erk; nra).
  (* the unit of [x] is at most one above its binade *)
  destruct (binade_spec x Hx) as [X1 X2]. fold e in X1, X2.
  assert (Hue : u <= e + 1).
  { destruct (Z_le_gt_dec u (e + 1)) as [H|H]; [exact H|exfalso].
    (* then x / 2^u < 1/2 and k = 0 *)
    assert (Hq : (x / 2 ^ u <= 1 # 2)%Q).
    { apply Qle_shift_div_r; [exact Hp|].
      pose proof (pow2_le (e + 1) (u - 1) ltac:(lia)).
      replace u with ((u - 1) + 1) at 1 by ring. rewrite pow2_succ. lra. }
    assert (Hq0 : (0 <= x / 2 ^ u)%Q) by (apply Qle_shift_div_l; [exact Hp | lra]).
    pose proof (floor_bounds (x / 2 ^ u)) as [F1 F2].
    assert (Hf : Qfloor (x / 2 ^ u) = 0).
    { assert (Qfloor (x / 2 ^ u) < 1).
      { rewrite Zlt_Qlt. change (inject_Z 1) with 1%Q. lra. }
      assert (-1 < Qfloor (x / 2 ^ u)).
      { rewrite Zlt_Qlt. change (inject_Z (-1)) with (-1 # 1)%Q. lra. }
      lia. }
    assert (k = 0).
    { unfold k, round_half_even. rewrite Hf.
      destruct (Qcompare_spec (x / 2 ^ u - inject_Z 0) (1 # 2)) as [C|C|C];
        try reflexivity.
      change (inject_Z 0) with 0%Q in C. lra. }
    lia. }
  assert (Hre : (r <= 2 ^ (e + 1))%Q).
  { unfold r. rewrite (pow2_on_grid (e + 1) u Hue).
    apply round_magnitude_below; [exact Hx|].
    fold u. rewrite <- (pow2_on_grid (e + 1) u Hue). lra. }
  set (er := binade r). set (ur := ulp_exponent r).
  destruct (binade_spec r Hr) as [R1 R2]. fold er in R1, R2.
  destruct (Z_le_gt_dec ur u) as [Hur|Hur].
  - (* the grid of [r] is finer *)
    apply (round_magnitude_on_grid r (k * 2 ^ (u - ur))); [exact Hr|].
    fold ur. rewrite inject_Z_mult, <- Qmult_assoc, <- pow2_on_grid by exact Hur.
    rewrite Erk. reflexivity.
  - (* [r] is the power of two that ends the binade of [x] *)
    assert (Her : er = e + 1).
    { assert (er < e + 2).
      { apply pow2_lt_inv.
        replace (e + 2) with ((e + 1) + 1) by ring. rewrite pow2_succ.
        pose proof (pow2_pos (e + 1)). lra. }
      unfold ur, u, ulp_exponent in Hur. fold er e in Hur. lia. }
    assert (Er2 : (r == 2 ^ (e + 1))%Q) by (rewrite Her in R1; lra).
    assert (Hure : ur <= e + 1).
    { unfold ur, ulp_exponent. fold er. rewrite Her.
      unfold u, ulp_exponent in Hue. fold e in Hue. lia. }
    apply (round_magnitude_on_grid r (2 ^ (e + 1 - ur))); [exact Hr|].
    fold ur. rewrite <- pow2_on_grid by exact Hure. exact Er2.
Qed.

Lemma round_magnitude_error (x : Q) :
  (0 < x)%Q ->
  (Qabs (round_magnitude x - x) <= 2 ^ ulp_exponent x * (1 # 2))%Q.
Proof.
  intros Hx. rewrite (round_magnitude_pos x Hx).
  pose proof (pow2_pos (ulp_exponent x)) as Hp.
  set (P := (2 ^ ulp_exponent x)%Q) in *.
  pose proof (round_half_even_error (x / P)) as H.
  apply Qabs_Qle_condition in H. apply Qabs_Qle_condition.
  assert (E : (x == x / P * P)%Q) by (field; lra).
  set (z := (x / P)%Q) in *. set (k := inject_Z (round_half_even z)) in *.
  rewrite E. split; nra.
Qed.

(** *** Rounding a rational *)

Lemma Qneg_true (x : Q) : Qneg x = true <-> (x < 0)%Q.
Proof.
  unfold Qneg, Qlt. destruct x as [n d]. cbn. rewrite Z.ltb_lt. lia.
Qed.

Lemma Qneg_false (x : Q) : Qneg x = false <-> (0 <= x)%Q.
Proof.
  unfold Qneg, Qle. destruct x as [n d]. cbn. rewrite Z.ltb_ge. lia.
Qed.

Lemma binary64_nonneg (x : Q) :
  (0 <= x)%Q -> binary64 x = round_magnitude x.
Proof.
  intros H. unfold binary64. apply Qneg_false in H. now rewrite H.
Qed.

Lemma binary64_neg (x : Q) :
  (x < 0)%Q -> binary64 x = (- round_magnitude (- x))%Q.
Proof.
  intros H. unfold binary64. apply Qneg_true in H. now rewrite H.
Qed.

Lemma binary64_le (x y : Q) : (x <= y)%Q -> (binary64 x <= binary64 y)%Q.
Proof.
  intros H.
  destruct (Qlt_le_dec x 0) as [Hx|Hx]; destruct (Qlt_le_dec y 0) as [Hy|Hy].
  - rewrite (binary64_neg x Hx), (binary64_neg y Hy).
    assert (round_magnitude (- y) <= round_magnitude (- x))%Q
      by (apply round_magnitude_le; lra).
    lra.
  - rewrite (binary64_neg x Hx), (binary64_nonneg y Hy).
    pose proof (round_magnitude_nonneg (- x) ltac:(lra)).
    pose proof (round_magnitude_nonneg y Hy). lra.
  - exfalso. lra.
  - rewrite (binary64_nonneg x Hx), (binary64_nonneg y Hy).
    now apply round_magnitude_le.
Qed.

Lemma binary64_eq (x y : Q) : (x == y)%Q -> (binary64 x == binary64 y)%Q.
Proof.
  intros E. apply Qle_antisym; apply binary64_le; lra.
Qed.

Lemma binary64_zero : (binary64 0 == 0)%Q.
Proof. reflexivity. Qed.

Lemma binary64_sign (x : Q) : (0 <= x)%Q -> (0 <= binary64 x)%Q.
Proof.
  intros H. rewrite (binary64_nonneg x H). now apply round_magnitude_nonneg.
Qed.

Lemma binary64_fixed (x : Q) : is_binary64 (binary64 x).
Proof.
  unfold is_binary64.
  destruct (Qlt_le_dec x 0) as [Hx|Hx].
  - rewrite (binary64_neg x Hx).
    pose proof (round_magnitude_nonneg (- x) ltac:(lra)) as Hr.
    pose proof (round_magnitude_fixed (- x) ltac:(lra)) as Hf.
    set (r := round_magnitude (- x)) in *.
    destruct (Qeq_dec r 0) as [E|N].
    + rewrite (binary64_eq (- r) 0) by lra. rewrite binary64_zero. lra.
    + rewrite (binary64_neg (- r)) by lra.
      rewrite (round_magnitude_eq (- - r) r) by lra. lra.
  - rewrite (binary64_nonneg x Hx).
    rewrite binary64_nonneg by (now apply round_magnitude_nonneg).
    now apply round_magnitude_fixed.
Qed.

Lemma is_binary64_eq (x y : Q) : (x == y)%Q -> is_binary64 x -> is_binary64 y.
Proof.
  unfold is_binary64. intros E H. rewrite <- (binary64_eq x y E). lra.
Qed.

Lemma is_binary64_max (x y : Q) :
  is_binary64 x -> is_binary64 y -> is_binary64 (Qmax x y).
Proof.
  intros Hx Hy.
  destruct (Qlt_le_dec x y) as [H|H].
  - apply (is_binary64_eq y); [|exact Hy].
    symmetry. apply Q.max_r. lra.
  - apply (is_binary64_eq x); [|exact Hx].
    symmetry. apply Q.max_l. lra.
Qed.

(** Adding a duration that is not negative to a binary64 time never
    gives an earlier time. *)
Lemma binary64_add_le (s d : Q) :
  is_binary64 s -> (0 <= d)%Q -> (s <= binary64 (s + d))%Q.
Proof.
  intros Hs Hd. unfold is_binary64 in Hs.
  rewrite <- Hs at 1. apply binary64_le. lra.
Qed.

(** The rounding error is at most half a unit in the last place. *)
Lemma binary64_error (x : Q) :
  (Qabs (binary64 x - x) <= ulp x * (1 # 2))%Q.
Proof.
  unfold ulp.
  destruct (Qlt_le_dec x 0) as [Hx|Hx].
  - rewrite (binary64_neg x Hx).
    pose proof (round_magnitude_error (- x) ltac:(lra)) as H.
    assert (E : (Qabs x == - x)%Q) by (apply Qabs_neg; lra).
    assert (Eu : ulp_exponent (Qabs x) = ulp_exponent (- x)).
    { unfold ulp_exponent. f_equal. f_equal.
      apply binade_eq; [rewrite E; lra | exact E]. }
    rewrite Eu.
    apply Qabs_Qle_condition in H. apply Qabs_Qle_condition. lra.
  - rewrite (binary64_nonneg x Hx).
    destruct (Qeq_dec x 0) as [E|N].
    + rewrite (round_magnitude_zero x E).
      pose proof (pow2_pos (ulp_exponent (Qabs x))).
      apply Qabs_Qle_condition. lra.
    + pose proof (round_magnitude_error x ltac:(lra)) as H.
      assert (E : (Qabs x == x)%Q) by (apply Qabs_pos; lra).
      assert (Eu : ulp_exponent (Qabs x) = ulp_exponent x).
      { unfold ulp_exponent. f_equal. f_equal.
        apply binade_eq; [rewrite E; lra | exact E]. }
      now rewrite Eu.
Qed.

(** *** The rounding and [SpecFloat]

    On the values of the examples of this development the rounding is
    the one that the Standard Library's executable specification of
    IEEE-754 computes: the duration of a frame of one sample and of six
    samples at 24 kHz, and the sums that the handler stores for frames
    handled at the clock readings 0.25 and 1. *)

Example binary64_div_one_sample :
  same_number
    (Number_of_binary64 (binary64_div (binary64_of_Z 1) (binary64_of_Z 24000)))
    (Finite (binary64 (1 / 24000))).
Proof. vm_compute. reflexivity. Qed.

Example binary64_div_six_samples :
  same_number
    (Number_of_binary64 (binary64_div (binary64_of_Z 6) (binary64_of_Z 24000)))
    (Finite (binary64 (6 / 24000))).
Proof. vm_compute. reflexivity. Qed.

Example binary64_add_quarter :
  same_number
    (Number_of_binary64
       (binary64_add
          (binary64_div (binary64_of_Z 1) (binary64_of_Z 4))
          (binary64_div (binary64_of_Z 1) (binary64_of_Z 24000))))
    (Finite (binary64 ((1 # 4) + binary64 (1 / 24000)))).
Proof. vm_compute. reflexivity. Qed.

Example binary64_add_one :
  same_number
    (Number_of_binary64
       (binary64_add
          (binary64_of_Z 1)
          (binary64_div (binary64_of_Z 1) (binary64_of_Z 24000))))
    (Finite (binary64 (1 + binary64 (1 / 24000)))).
Proof. vm_compute. reflexivity. Qed.

Example binary64_add_three_frames :
  let d1 := binary64_div (binary64_of_Z 1) (binary64_of_Z 24000) in
  let d6 := binary64_div (binary64_of_Z 6) (binary64_of_Z 24000) in
  same_number
    (Number_of_binary64 (binary64_add (binary64_add d1 d1) d6))
    (Finite (binary64 (binary64 (binary64 (1 / 24000) + binary64 (1 / 24000))
                       + binary64 (6 / 24000)))).
Proof. vm_compute. reflexivity. Qed.

Example binary64_agrees_on_samples :
  forallb sum_agrees sample_sums = true
  /\ forallb quotient_agrees sample_quotients = true.
Proof. split; vm_compute; reflexivity. Qed.

Example binary64_subnormal_ties :
  (binary64 (1 # 2 ^ 1075) == 0
   /\ binary64 (3 # 2 ^ 1075) == 1 # 2 ^ 1073
   /\ binary64 (1 # 2 ^ 1074) == 1 # 2 ^ 1074)%Q.
Proof. vm_compute. repeat split. Qed.

(** ** Inbound playback scheduling *)

Lemma chained_weaken (lo lo' : Q) (l : list (Q * Q)) :
  (lo' <= lo)%Q -> chained lo l -> chained lo' l.
Proof.
  destruct l as [| [s d] r]; [trivial|].
  cbn [chained]. intros H [H1 H2]. split; [lra | exact H2].
Qed.

Lemma chained_lower (l : list (Q * Q)) :
  forall lo, chained lo l -> Forall (fun sd => (lo <= fst sd)%Q) l.
Proof.
  induction l as [| [s d] r IH]; intros lo H; [constructor|].
  cbn [chained] in H. destruct H as [H1 [Hs [H2 H3]]].
  constructor; [exact H1|].
  pose proof (binary64_add_le s d Hs H2) as Hle.
  eapply Forall_impl; [|exact (IH _ H3)].
  intros [s' d'] H. cbn [fst] in *. lra.
Qed.

Lemma chained_sorted (l : list (Q * Q)) :
  forall lo, chained lo l -> StronglySorted Qle (List.map fst l).
Proof.
  induction l as [| [s d] r IH]; intros lo H; [constructor|].
  cbn [chained] in H. destruct H as [H1 [Hs [H2 H3]]].
  cbn [List.map fst]. constructor; [exact (IH _ H3)|].
  rewrite Forall_map.
  pose proof (binary64_add_le s d Hs H2) as Hle.
  eapply Forall_impl; [|exact (chained_lower _ _ H3)].
  intros [s' d'] H. cbn [fst] in *. lra.
Qed.

Lemma chained_end_to_start (l : list (Q * Q)) :
  forall lo, chained lo l -> end_to_start l.
Proof.
  induction l as [| [s d] r IH]; intros lo H; [constructor|].
  cbn [chained] in H. destruct H as [H1 [Hs [H2 H3]]].
  destruct r as [| [s' d'] r']; [constructor|].
  assert (Hle : (binary64 (s + d) <= s')%Q) by (cbn [chained] in H3; tauto).
  constructor; [exact Hle | | exact (IH _ H3)].
  pose proof (binary64_error (s + d)) as He.
  apply Qabs_Qle_condition in He. lra.
Qed.

Lemma decodeAudioData_duration (bytes : list byte) (buf : AudioBuffer) :
  decodeAudioData bytes 24000 1 = Ok buf -> (0 < duration buf)%Q.
Proof.
  unfold decodeAudioData.
  destruct (Int16Array_of_buffer bytes) as [l|e]; cbn [rbind]; [|discriminate].
  rewrite Nat.div_1_r. unfold createBuffer.
  destruct (List.length l) as [|n]; cbn [Nat.eqb orb rbind]; [discriminate|].
  change (Qle_bool 24000 0) with false. cbn [rbind].
  intros H. injection H as <-.
  unfold duration. cbn [frames sampleRate].
  apply (Qlt_le_trans _ (binary64 (1 # 32768))); [reflexivity|].
  apply binary64_le.
  apply Qle_shift_div_l; [reflexivity|].
  assert (1 <= inject_Z (Z.of_nat (S n)))%Q.
  { change 1%Q with (inject_Z 1). rewrite <- Zle_Qle. lia. }
  lra.
Qed.

Lemma onmessage_begin_run (msg : LiveServerMessage) (t : Q) (st : State) :
  onmessage_begin msg t st
  = if truthy (audioData_of msg) then
      match rbind (decode (payload msg))
                  (fun bytes => decodeAudioData bytes 24000 1) with
      | Ok buf => (Ok (Some buf), speaking t st)
      | Throw e => (Throw e, speaking t st)
      end
    else (Ok None, st).
Proof.
  unfold onmessage_begin, payload.
  destruct (truthy (audioData_of msg)); [|reflexivity].
  cbv [bind emit perform get set_nextStartTime lift ret speaking
       isRecording audioContexts session nextStartTime stream effects].
  destruct st as [r c s n m tr].
  destruct (decode _) as [bytes|e]; cbn [rbind]; [|reflexivity].
  destruct (decodeAudioData bytes 24000 1); reflexivity.
Qed.

Lemma onmessage_run (l : Locals) (msg : LiveServerMessage) (t : Q) (st : State) :
  onmessage l msg t st
  = match onmessage_begin msg t st with
    | (Ok (Some buf), st1) =>
        (Ok tt,
         mkState (isRecording st1) (audioContexts st1) (session st1)
                 (binary64 (nextStartTime st1 + duration buf)) (stream st1)
                 (effects st1 ++ [SourceStart (outputCtx l) buf (nextStartTime st1)]))
    | (Ok None, st1) => (Ok tt, st1)
    | (Throw e, st1) => (Throw e, st1)
    end.
Proof.
  unfold onmessage, bind at 1.
  destruct (onmessage_begin msg t st) as [[[buf|]|e] st1]; reflexivity.
Qed.

Lemma schedule_app (a b : list Effect) :
  schedule (a ++ b) = schedule a ++ schedule b.
Proof. apply flat_map_app. Qed.

(** What one message does to the schedule and to the marker. *)
Lemma onmessage_step (l : Locals) (msg : LiveServerMessage) (t : Q) (st : State) :
  match onmessage_begin msg t st with
  | (Ok (Some buf), _) =>
      schedule (effects (exec (onmessage l msg t) st))
      = schedule (effects st) ++ [(Qmax (nextStartTime st) t, duration buf)]
      /\ nextStartTime (exec (onmessage l msg t) st)
         = binary64 (Qmax (nextStartTime st) t + duration buf)
      /\ (0 < duration buf)%Q
  | (Ok None, _) => exec (onmessage l msg t) st = st
  | (Throw _, _) =>
      schedule (effects (exec (onmessage l msg t) st)) = schedule (effects st)
      /\ nextStartTime (exec (onmessage l msg t) st)
         = Qmax (nextStartTime st) t
  end.
Proof.
  unfold exec. rewrite onmessage_run, onmessage_begin_run.
  destruct (truthy (audioData_of msg)); [|reflexivity].
  destruct (decode (payload msg)) as [bytes|e]; cbn [rbind].
  - destruct (decodeAudioData bytes 24000 1) as [buf|e] eqn:E.
    + cbn [snd effects nextStartTime speaking]. rewrite !schedule_app.
      cbn [schedule flat_map app]. rewrite app_nil_r.
      repeat split. exact (decodeAudioData_duration _ _ E).
    + cbn [snd effects nextStartTime speaking]. rewrite schedule_app.
      cbn [schedule flat_map app]. now rewrite app_nil_r.
  - cbn [snd effects nextStartTime speaking]. rewrite schedule_app.
    cbn [schedule flat_map app]. now rewrite app_nil_r.
Qed.

Lemma onmessages_app (l : Locals) (m1 m2 : list (LiveServerMessage * Q))
  (st : State) :
  onmessages l (m1 ++ m2) st = onmessages l m2 (onmessages l m1 st).
Proof. apply fold_left_app. Qed.

Lemma onmessages_cons (l : Locals) (msg : LiveServerMessage) (t : Q)
  (msgs : list (LiveServerMessage * Q)) (st : State) :
  onmessages l ((msg, t) :: msgs) st
  = onmessages l msgs (exec (onmessage l msg t) st).
Proof. reflexivity. Qed.

Lemma onmessages_chained (l : Locals) (msgs : list (LiveServerMessage * Q)) :
  binary64_clocks msgs ->
  forall st : State,
  is_binary64 (nextStartTime st) ->
  exists new : list (Q * Q),
    schedule (effects (onmessages l msgs st)) = schedule (effects st) ++ new
    /\ chained (nextStartTime st) new
    /\ (nextStartTime st <= nextStartTime (onmessages l msgs st))%Q
    /\ is_binary64 (nextStartTime (onmessages l msgs st)).
Proof.
  induction 1 as [| [msg t] msgs Ht _ IH]; intros st Hst.
  - exists []. cbn. rewrite app_nil_r. repeat split; [lra | exact Hst].
  - rewrite onmessages_cons. cbn [snd] in Ht.
    pose proof (onmessage_step l msg t st) as S.
    pose proof (Q.le_max_l (nextStartTime st) t) as Hmax.
    pose proof (is_binary64_max _ _ Hst Ht) as Hb.
    destruct (onmessage_begin msg t st) as [[[buf|]|e] st1].
    + destruct S as [S1 [S2 S3]].
      destruct (IH (exec (onmessage l msg t) st)) as [new [E [C [Hn Hf]]]].
      { rewrite S2. apply binary64_fixed. }
      exists ((Qmax (nextStartTime st) t, duration buf) :: new).
      rewrite E, S1, <- app_assoc. split; [reflexivity|].
      rewrite S2 in C, Hn. cbn [chained].
      pose proof (binary64_add_le _ (duration buf) Hb ltac:(lra)).
      repeat split; [exact Hmax | exact Hb | lra | exact C | lra | exact Hf].
    + rewrite S in *. exact (IH st Hst).
    + destruct S as [S1 S2].
      destruct (IH (exec (onmessage l msg t) st)) as [new [E [C [Hn Hf]]]].
      { now rewrite S2. }
      exists new. rewrite E, S1. split; [reflexivity|].
      rewrite S2 in C, Hn. split; [|split; [lra | exact Hf]].
      now apply (chained_weaken (Qmax (nextStartTime st) t)).
Qed.

Lemma onmessage_resume_run (l : Locals) (buf : AudioBuffer) (st : State) :
  onmessage_resume l buf st
  = (Ok tt,
     mkState (isRecording st) (audioContexts st) (session st)
             (binary64 (nextStartTime st + duration buf)) (stream st)
             (effects st ++ [SourceStart (outputCtx l) buf (nextStartTime st)])).
Proof. reflexivity. Qed.

(** The same invariants when the halves of the handler interleave in
    any order. *)
Lemma interleaved_schedule (l : Locals) (xs : list Turn) :
  Forall playable xs ->
  forall st : State,
  is_binary64 (nextStartTime st) ->
  exists new : list (Q * Q),
    schedule (effects (turns l xs st)) = schedule (effects st) ++ new
    /\ chained (nextStartTime st) new
    /\ (nextStartTime st <= nextStartTime (turns l xs st))%Q.
Proof.
  induction 1 as [| x xs Hx _ IH]; intros st Hst.
  - exists []. cbn. rewrite app_nil_r. repeat split. lra.
  - change (turns l (x :: xs) st) with (turns l xs (turn l x st)).
    destruct x as [msg t | buf]; cbn [turn playable] in *.
    + unfold exec in *. rewrite onmessage_begin_run in *.
      pose proof (Q.le_max_l (nextStartTime st) t) as Hmax.
      pose proof (is_binary64_max _ _ Hst Hx) as Hb.
      destruct (truthy (audioData_of msg)).
      * assert (S : snd (match rbind (decode (payload msg))
                                 (fun bytes => decodeAudioData bytes 24000 1) with
                         | Ok buf => (Ok (Some buf), speaking t st)
                         | Throw e => (Throw e, speaking t st)
                         end) = speaking t st)
          by (destruct (rbind _ _); reflexivity).
        rewrite S in *.
        destruct (IH (speaking t st) Hb) as [new [E [C Hn]]].
        cbn [speaking effects nextStartTime] in *.
        rewrite schedule_app in E. cbn [schedule flat_map app] in E.
        rewrite app_nil_r in E.
        exists new. split; [exact E|]. split; [|lra].
        now apply (chained_weaken (Qmax (nextStartTime st) t)).
      * exact (IH st Hst).
    + unfold exec in *. rewrite onmessage_resume_run in *.
      cbn [snd] in *.
      destruct (IH (mkState (isRecording st) (audioContexts st) (session st)
                            (binary64 (nextStartTime st + duration buf))
                            (stream st)
                            (effects st
                             ++ [SourceStart (outputCtx l) buf (nextStartTime st)])))
        as [new [E [C Hn]]]; [apply binary64_fixed|].
      cbn [nextStartTime effects] in *.
      rewrite schedule_app in E. cbn [schedule flat_map app] in E.
      exists ((nextStartTime st, duration buf) :: new).
      rewrite E, <- app_assoc. split; [reflexivity|].
      pose proof (binary64_add_le _ (duration buf) Hst Hx).
      cbn [chained]. repeat split; [lra | exact Hst | exact Hx | exact C | lra].
Qed.

Lemma decoded_payload_truthy (msg : LiveServerMessage) (bytes : list byte) :
  decode (payload msg) = Ok bytes -> bytes <> [] ->
  truthy (audioData_of msg) = true.
Proof.
  unfold payload. intros Hd Hb.
  destruct (audioData_of msg) as [[|x s]|]; try reflexivity;
    vm_compute in Hd; injection Hd as <-; contradiction.
Qed.

(** ** Payloads of odd and of even length *)

Lemma list_ind2 {A : Type} (P : list A -> Prop) :
  P [] -> (forall a, P [a]) -> (forall a b l, P l -> P (a :: b :: l)) ->
  forall l, P l.
Proof.
  intros H0 H1 H2.
  fix IH 1.
  intros [|a [|b l]].
  - exact H0.
  - exact (H1 a).
  - exact (H2 a b l (IH l)).
Qed.

Lemma int16_elements_length (bytes : list byte) :
  List.length (int16_elements bytes) = (List.length bytes / 2)%nat.
Proof.
  induction bytes as [| a | a b l IH] using list_ind2; try reflexivity.
  cbn [int16_elements List.length]. rewrite IH.
  generalize (List.length l). intros n. euclid.
Qed.

Lemma decodeAudioData_odd (bytes : list byte) (rate : Q) (numChannels : nat) :
  Nat.even (List.length bytes) = false ->
  decodeAudioData bytes rate numChannels = Throw RangeError.
Proof.
  intros H. unfold decodeAudioData, Int16Array_of_buffer. now rewrite H.
Qed.

Lemma decodeAudioData_even (bytes : list byte) :
  Nat.even (List.length bytes) = true -> List.length bytes <> 0%nat ->
  decodeAudioData bytes 24000 1
  = Ok {| numberOfChannels := 1;
          frames := List.length bytes / 2;
          sampleRate := 24000;
          channelData := [List.map dequantize (int16_elements bytes)] |}.
Proof.
  intros He Hn.
  rewrite (decodeAudioData_mono bytes (int16_elements bytes)).
  - now rewrite int16_elements_length.
  - unfold Int16Array_of_buffer. now rewrite He.
  - destruct bytes as [| a [| b r]].
    + now cbn in Hn.
    + discriminate He.
    + discriminate.
  - reflexivity.
Qed.

Lemma decodeAudioData_empty (rate : Q) (numChannels : nat) :
  decodeAudioData [] rate numChannels = Throw NotSupportedError.
Proof.
  unfold decodeAudioData. cbn [Int16Array_of_buffer List.length Nat.even rbind
                               int16_elements].
  unfold createBuffer. cbn [List.length Nat.div].
  replace (0 / numChannels)%nat with 0%nat
    by (symmetry; apply Nat.Div0.div_0_l).
  cbn [Nat.eqb]. now rewrite orb_true_r.
Qed.

(** C10 (as amended).  [decodeAudioData] reinterprets its input as
    16-bit integers.  For an inbound payload that decodes to an odd
    number of bytes the [Int16Array] construction throws and the handler
    aborts with that error after announcing the burst, scheduling
    nothing.  For an even, non-zero number of bytes it produces exactly
    [byteLength / 2] samples, which are scheduled.  For zero bytes
    [createBuffer] rejects the empty buffer and the handler aborts as
    well. *)
Theorem decodeAudioData_needs_even_length
  (l : Locals) (msg : LiveServerMessage) (t : Q) (st : State)
  (bytes : list byte) :
  truthy (audioData_of msg) = true ->
  decode (payload msg) = Ok bytes ->
  if Nat.even (List.length bytes) then
    if (List.length bytes =? 0)%nat then
      decodeAudioData bytes 24000 1 = Throw NotSupportedError
      /\ onmessage l msg t st = (Throw NotSupportedError, speaking t st)
    else
      exists out : list Number,
        let buf := {| numberOfChannels := 1;
                      frames := List.length bytes / 2;
                      sampleRate := 24000;
                      channelData := [out] |} in
        decodeAudioData bytes 24000 1 = Ok buf
        /\ List.length out = (List.length bytes / 2)%nat
        /\ schedule (effects (exec (onmessage l msg t) st))
           = schedule (effects st) ++ [(Qmax (nextStartTime st) t, duration buf)]
  else
    decodeAudioData bytes 24000 1 = Throw RangeError
    /\ onmessage l msg t st = (Throw RangeError, speaking t st).
Proof.
  intros Ht Hd.
  pose proof (onmessage_step l msg t st) as S.
  rewrite onmessage_run, onmessage_begin_run, Ht, Hd in *. cbn [rbind] in *.
  destruct (Nat.even (List.length bytes)) eqn:He.
  - destruct (Nat.eqb_spec (List.length bytes) 0) as [Hz|Hz].
    + destruct bytes; [|discriminate].
      rewrite decodeAudioData_empty. auto.
    + exists (List.map dequantize (int16_elements bytes)). cbn zeta.
      rewrite (decodeAudioData_even bytes He Hz) in *.
      rewrite length_map, int16_elements_length.
      repeat split. apply S.
  - rewrite (decodeAudioData_odd bytes _ _ He). auto.
Qed.

(** The payload [AAAA] decodes to three bytes. *)
Lemma decodeAudioData_needs_even_length_witness :
  decodeAudioData [x00; x00; x00] 24000 1 = Throw RangeError
  /\ onmessage {| inputCtx := 1%nat; outputCtx := 2%nat |}
               (message_of [65; 65; 65; 65]%N) 0 setup
     = (Throw RangeError, speaking 0 setup).
Proof.
  apply (decodeAudioData_needs_even_length
           {| inputCtx := 1%nat; outputCtx := 2%nat |}
           (message_of [65; 65; 65; 65]%N) 0 setup [x00; x00; x00]).
  - reflexivity.
  - vm_compute. reflexivity.
Defined.

(** C10, the counterexample.  A payload of white space is truthy and
    decodes to zero bytes, an even number; [decodeAudioData] then
    produces no buffer of zero samples but throws. *)
Lemma empty_payload_rejected :
  truthy (audioData_of (message_of [32%N])) = true
  /\ decode (payload (message_of [32%N])) = Ok []
  /\ Nat.even (List.length (@nil byte)) = true
  /\ decodeAudioData [] 24000 1 = Throw NotSupportedError.
Proof. repeat split. Qed.

(** ** The schedule of a run *)

(** C1 (as amended).  Inbound messages handled one after the other,
    whatever their number and payloads, at clock readings that are
    binary64 data, from a marker that is one: the start times handed to
    [source.start] are non-decreasing; no frame starts before the end
    that the handler has computed for the frame before it, which is the
    binary64 sum of that frame's start and duration, so that it starts
    before the exact end by half a unit in the last place at most; and
    the marker [nextStartTime] never decreases from any point of the run
    to a later one.  A message whose payload decodes to a non-empty,
    even number of bytes announces the burst and starts one buffer of
    [byteLength / 2] samples at the maximum of the marker and the
    playback clock, and the marker moves to the binary64 sum of that
    start and the buffer's duration. *)
Theorem playback_schedule_monotone
  (l : Locals) (before after : list (LiveServerMessage * Q)) (st : State)
  (msg : LiveServerMessage) (t : Q) (bytes : list byte) (st0 : State) :
  is_binary64 (nextStartTime st) ->
  binary64_clocks (before ++ after) ->
  decode (payload msg) = Ok bytes ->
  bytes <> [] -> Nat.even (List.length bytes) = true ->
  (exists new : list (Q * Q),
      schedule (effects (onmessages l (before ++ after) st))
      = schedule (effects st) ++ new
      /\ StronglySorted Qle (List.map fst new)
      /\ end_to_start new)
  /\ (nextStartTime (onmessages l before st)
      <= nextStartTime (onmessages l (before ++ after) st))%Q
  /\ (let buf := {| numberOfChannels := 1;
                    frames := List.length bytes / 2;
                    sampleRate := 24000;
                    channelData :=
                      [List.map dequantize (int16_elements bytes)] |} in
      effects (exec (onmessage l msg t) st0)
      = effects st0
        ++ [Emit SpeakingStart;
            SourceStart (outputCtx l) buf (Qmax (nextStartTime st0) t)]
      /\ nextStartTime (exec (onmessage l msg t) st0)
         = binary64 (Qmax (nextStartTime st0) t + duration buf)
      /\ duration buf
         = binary64 (inject_Z (Z.of_nat (List.length bytes / 2)) / 24000)).
Proof.
  intros Hst Hc Hd Hb He. split; [|split].
  - destruct (onmessages_chained l (before ++ after) Hc st Hst)
      as [new [E [C _]]].
    exists new. split; [exact E|]. split.
    + exact (chained_sorted _ _ C).
    + exact (chained_end_to_start _ _ C).
  - unfold binary64_clocks in Hc. apply Forall_app in Hc.
    destruct Hc as [Hc1 Hc2].
    destruct (onmessages_chained l before Hc1 st Hst) as [_ [_ [_ [_ Hm]]]].
    rewrite onmessages_app.
    destruct (onmessages_chained l after Hc2 (onmessages l before st) Hm)
      as [_ [_ [_ [H _]]]].
    exact H.
  - pose proof (decoded_payload_truthy msg bytes Hd Hb) as Ht.
    assert (Hn : List.length bytes <> 0%nat) by (destruct bytes; [contradiction | discriminate]).
    cbn zeta. unfold exec.
    rewrite onmessage_run, onmessage_begin_run, Ht, Hd. cbn [rbind].
    rewrite (decodeAudioData_even bytes He Hn).
    cbn [snd effects nextStartTime speaking]. rewrite <- app_assoc.
    repeat split.
Qed.

(** Two messages of one sample each (the payload [AAA=]), both handled
    at the clock reading 0.25. *)
Lemma playback_schedule_monotone_witness :
  let l := {| inputCtx := 1%nat; outputCtx := 2%nat |} in
  let msg := message_of (js "AAA=") in
  (exists new : list (Q * Q),
      schedule (effects (onmessages l ([(msg, 1 # 4)] ++ [(msg, 1 # 4)]) setup))
      = schedule (effects setup) ++ new
      /\ StronglySorted Qle (List.map fst new)
      /\ end_to_start new)
  /\ (nextStartTime (onmessages l [(msg, 1 # 4)] setup)
      <= nextStartTime (onmessages l ([(msg, 1 # 4)] ++ [(msg, 1 # 4)]) setup))%Q
  /\ (let buf := {| numberOfChannels := 1;
                    frames := List.length [x00; x00] / 2;
                    sampleRate := 24000;
                    channelData :=
                      [List.map dequantize (int16_elements [x00; x00])] |} in
      effects (exec (onmessage l msg (1 # 4)) setup)
      = effects setup
        ++ [Emit SpeakingStart;
            SourceStart (outputCtx l) buf (Qmax (nextStartTime setup) (1 # 4))]
      /\ nextStartTime (exec (onmessage l msg (1 # 4)) setup)
         = binary64 (Qmax (nextStartTime setup) (1 # 4) + duration buf)
      /\ duration buf
         = binary64 (inject_Z (Z.of_nat (List.length [x00; x00] / 2)) / 24000)).
Proof.
  apply (playback_schedule_monotone
           {| inputCtx := 1%nat; outputCtx := 2%nat |}
           [(message_of (js "AAA="), 1 # 4)]
           [(message_of (js "AAA="), 1 # 4)]
           setup (message_of (js "AAA=")) (1 # 4) [x00; x00] setup).
  - vm_compute. reflexivity.
  - repeat constructor; vm_compute; reflexivity.
  - vm_compute. reflexivity.
  - discriminate.
  - reflexivity.
Defined.

(** C1, the counterexample.  Two frames of one sample each, both
    handled at the clock reading 0.25 by a fresh component.  The first
    starts at 0.25 and lasts the binary64 quotient of 1 by 24000; the
    sum of the two is no binary64 datum, and the marker is the datum
    below it.  The second frame starts at the marker, [677 / 2^67] s
    before the first frame's start plus its duration: the frames are
    not back to back. *)
Lemma rounded_end_overlaps :
  let l := {| inputCtx := 1%nat; outputCtx := 2%nat |} in
  let msg := message_of (js "AAA=") in
  let run := onmessages l [(msg, 1 # 4); (msg, 1 # 4)] setup in
  is_binary64 (1 # 4)
  /\ (exists s d s' d' : Q,
         schedule (effects run) = [(s, d); (s', d')]
         /\ (s == 1 # 4)%Q
         /\ (d == binary64 (1 / 24000))%Q
         /\ (s' == binary64 (s + d))%Q
         /\ (s + d - s' == 677 # 2 ^ 67)%Q)
  /\ ~ back_to_back (schedule (effects run)).
Proof.
  cbn zeta. split; [vm_compute; reflexivity|]. split.
  - do 4 eexists. split; [vm_compute; reflexivity|].
    repeat split; vm_compute; reflexivity.
  - intros H. vm_compute in H. inversion H as [| |s d s' d' r Hle _]; subst.
    vm_compute in Hle. apply Hle. reflexivity.
Qed.

(** ** Life cycle *)

Lemma cleanup_run (st : State) :
  cleanup st
  = (Ok tt,
     mkState false (audioContexts st) None (nextStartTime st) (stream st)
             (effects st ++ releases st)).
Proof.
  destruct st as [r [[i|] [o|]] [s|] n [m|] tr];
    cbv [cleanup bind get set_isRecording set_session optional_call perform ret
         releases isRecording audioContexts session nextStartTime stream
         effects input output];
    rewrite <- ?app_assoc; cbn [app]; rewrite ?app_nil_r; reflexivity.
Qed.

Lemma startSession_catch_run (e : Exn) (st : State) :
  startSession_catch e st
  = (Ok tt,
     mkState false (audioContexts st) None (nextStartTime st) (stream st)
             (effects st ++ [ConsoleError e] ++ releases st)).
Proof.
  unfold startSession_catch, bind at 1, perform. rewrite cleanup_run.
  cbn [isRecording audioContexts session nextStartTime stream effects].
  now rewrite <- app_assoc.
Qed.

Lemma onerror_run (e : Exn) (st : State) :
  onerror e st
  = (Ok tt,
     mkState false (audioContexts st) None (nextStartTime st) (stream st)
             (effects st ++ [ConsoleError e; Emit (ErrorEvent e)] ++ releases st)).
Proof.
  unfold onerror, emit, bind, perform. rewrite cleanup_run.
  cbn [isRecording audioContexts session nextStartTime stream effects].
  now rewrite <- !app_assoc.
Qed.

Lemma emitted_app (a b : list Effect) :
  emitted (a ++ b) = emitted a ++ emitted b.
Proof. apply flat_map_app. Qed.

Lemma releases_emit_nothing (st : State) : emitted (releases st) = [].
Proof.
  destruct st as [r [[i|] [o|]] [s|] n [m|] tr]; reflexivity.
Qed.

Lemma releases_acquire_nothing (st : State) :
  forallb (fun e => negb (acquires e)) (releases st) = true.
Proof.
  destruct st as [r [[i|] [o|]] [s|] n [m|] tr]; reflexivity.
Qed.

Lemma started_state (i o m s : handle) :
  started i o m s
  = mkState true {| input := Some i; output := Some o |} (Some s) 0 (Some m)
            [NewAudioContext i 16000; NewAudioContext o 24000;
             GetUserMedia; LiveConnect].
Proof. reflexivity. Qed.

(** C3, evaluated.  When [getUserMedia] is refused, [startSession]
    leaves the component not recording and without session, and the
    owner receives no event at all: neither [speaking-start] nor the
    [error] event that the claim expects exactly once. *)
Theorem permission_denied_emits_nothing
  (i o : handle) (e : Exn) (st : State) :
  isRecording st = false ->
  isRecording (start_denied i o e st) = false
  /\ session (start_denied i o e st) = None
  /\ emitted (effects (start_denied i o e st)) = emitted (effects st)
  /\ effects (start_denied i o e st)
     = effects st
       ++ [NewAudioContext i 16000; NewAudioContext o 24000; GetUserMedia;
           ConsoleError e]
       ++ match session st with Some s => [SessionClose s] | None => [] end
       ++ match stream st with Some m => [TrackStop m] | None => [] end
       ++ [CtxClose i; CtxClose o].
Proof.
  intros Hr. unfold start_denied, exec.
  destruct st as [r c s n m tr]. cbn [isRecording] in Hr. subst r.
  cbv [startSession bind get isRecording catch construct lift perform
       set_audioContexts ret audioContexts session nextStartTime stream
       effects snd].
  cbv [startSession_media catch bind lift]. rewrite startSession_catch_run.
  cbn [bind ret snd isRecording session effects audioContexts stream releases
       input output].
  repeat split.
  - rewrite !emitted_app. clear.
    destruct s, m; cbn; now rewrite ?app_nil_r.
  - clear. rewrite <- !app_assoc. reflexivity.
Qed.

Lemma permission_denied_emits_nothing_witness :
  isRecording (start_denied 1%nat 2%nat NotAllowedError setup) = false
  /\ session (start_denied 1%nat 2%nat NotAllowedError setup) = None
  /\ emitted (effects (start_denied 1%nat 2%nat NotAllowedError setup)) = []
  /\ effects (start_denied 1%nat 2%nat NotAllowedError setup)
     = [NewAudioContext 1%nat 16000; NewAudioContext 2%nat 24000; GetUserMedia;
        ConsoleError NotAllowedError; CtxClose 1%nat; CtxClose 2%nat].
Proof.
  apply (permission_denied_emits_nothing 1%nat 2%nat NotAllowedError setup).
  reflexivity.
Defined.

(** C4 (as amended).  Whichever of the five failure classes occurs and
    in whichever state, the handling code tears the bridge down through
    [cleanup]: the bridge ends not recording and without session, every
    handle held in its fields is released, and nothing is acquired
    again, so no failure is retried.  Before the teardown only
    [console.error] and [emit] are called.  A remote error gives the
    owner exactly one [error] event, carrying the payload, before the
    teardown; a remote close gives the owner no event. *)
Theorem failure_handling (f : Failure) (e : Exn) (st : State) :
  isRecording (exec (handle_failure f e) st) = false
  /\ session (exec (handle_failure f e) st) = None
  /\ exists notes : list Effect,
       effects (exec (handle_failure f e) st)
       = effects st ++ notes ++ releases st
       /\ forallb quiet notes = true
       /\ forallb (fun x => negb (acquires x)) (notes ++ releases st) = true
       /\ match f with
          | RemoteError => emitted notes = [ErrorEvent e]
          | RemoteClosed => emitted notes = []
          | _ => True
          end.
Proof.
  unfold exec.
  destruct f; cbn [handle_failure]; unfold onclose;
    rewrite ?startSession_catch_run, ?onerror_run, ?cleanup_run;
    cbn [snd isRecording session effects]; (split; [reflexivity|]);
    (split; [reflexivity|]).
  1-3: exists [ConsoleError e].
  4: exists [ConsoleError e; Emit (ErrorEvent e)].
  5: exists [].
  all: cbn [app forallb quiet acquires negb andb emitted flat_map];
    repeat split; try apply releases_acquire_nothing.
Qed.

(** C4, the counterexample.  In one and the same started bridge, a
    remote error reaches the owner as one [error] event, emitted before
    the teardown, and a remote close reaches the owner as nothing: the
    two classes are not handled alike, the notification does not follow
    the teardown, and the close is handled without any notification. *)
Lemma remote_close_is_not_notified :
  effects (exec (handle_failure RemoteError NetworkError)
                (started 1%nat 2%nat 3%nat 4%nat))
  = effects (started 1%nat 2%nat 3%nat 4%nat)
    ++ [ConsoleError NetworkError; Emit (ErrorEvent NetworkError);
        SessionClose 4%nat; TrackStop 3%nat; CtxClose 1%nat; CtxClose 2%nat]
  /\ effects (exec (handle_failure RemoteClosed NetworkError)
                   (started 1%nat 2%nat 3%nat 4%nat))
     = effects (started 1%nat 2%nat 3%nat 4%nat)
       ++ [SessionClose 4%nat; TrackStop 3%nat; CtxClose 1%nat; CtxClose 2%nat]
  /\ emitted (effects (exec (handle_failure RemoteError NetworkError)
                            (started 1%nat 2%nat 3%nat 4%nat)))
     = [ErrorEvent NetworkError]
  /\ emitted (effects (exec (handle_failure RemoteClosed NetworkError)
                            (started 1%nat 2%nat 3%nat 4%nat)))
     = [].
Proof. repeat split. Qed.

(** C5, evaluated.  [cleanup] never throws, and before any start it
    changes nothing and calls nothing.  After a successful start the
    first [cleanup] closes the session, stops the tracks and closes both
    contexts; a second [cleanup] skips the session but stops the tracks
    and closes both contexts once more, because only [session] was
    reset. *)
Theorem second_cleanup_releases_again (i o m s : handle) :
  (forall st : State, fst (cleanup st) = Ok tt)
  /\ cleanup setup = (Ok tt, setup)
  /\ effects (exec cleanup (started i o m s))
     = effects (started i o m s)
       ++ [SessionClose s; TrackStop m; CtxClose i; CtxClose o]
  /\ effects (exec cleanup (exec cleanup (started i o m s)))
     = effects (exec cleanup (started i o m s))
       ++ [TrackStop m; CtxClose i; CtxClose o].
Proof.
  split; [|repeat split].
  intros st. now rewrite cleanup_run.
Qed.

Lemma closes_app (c : handle) (a b : list Effect) :
  closes c (a ++ b) = (closes c a + closes c b)%nat.
Proof. unfold closes. now rewrite filter_app, length_app. Qed.

Lemma constructed_app (rate : Z) (a b : list Effect) :
  constructed rate (a ++ b) = constructed rate a ++ constructed rate b.
Proof. apply flat_map_app. Qed.

Lemma closes_releases (c : handle) (st : State) :
  input (audioContexts st) <> Some c -> output (audioContexts st) <> Some c ->
  closes c (releases st) = 0%nat.
Proof.
  destruct st as [r [[ic|] [oc|]] [s0|] n [m0|] tr];
    cbn [audioContexts input output]; intros Hi Ho;
    cbn [releases session stream audioContexts input output app closes filter
         List.length];
    repeat match goal with
           | |- context [(?a =? c)%nat] =>
               rewrite (proj2 (Nat.eqb_neq a c)) by congruence
           end;
    reflexivity.
Qed.

Ltac not_the_handle c :=
  repeat match goal with
         | |- context [(?a =? c)%nat] =>
             rewrite (proj2 (Nat.eqb_neq a c)) by congruence
         end.

(** A context that the fields do not hold is not closed by any turn of
    the life cycle, and no turn puts it into the fields unless the host
    hands it out again. *)
Lemma lifecycle_leak (c : handle) (x : Lifecycle) (st : State) :
  input (audioContexts st) <> Some c -> output (audioContexts st) <> Some c ->
  reuses c x = false ->
  exists tr : list Effect,
    effects (lifecycle x st) = effects st ++ tr
    /\ closes c tr = 0%nat
    /\ input (audioContexts (lifecycle x st)) <> Some c
    /\ output (audioContexts (lifecycle x st)) <> Some c.
Proof.
  intros Hi Ho Hx.
  assert (Hrel := closes_releases c st Hi Ho).
  destruct x as [newInput newOutput | userMedia | connected | | s d | s | e | | ];
    cbn [lifecycle]; unfold exec.
  - (* Start *)
    clear Hrel.
    destruct st as [r [[ic|] [oc|]] [s0|] n [m0|] tr]; destruct r;
      destruct newInput as [a|e1]; destruct newOutput as [b|e2];
      cbn [reuses] in Hx; apply orb_false_elim in Hx; destruct Hx as [Ha Hb];
      try apply Nat.eqb_neq in Ha; try apply Nat.eqb_neq in Hb;
      cbn in Hi, Ho |- *;
      try (exists []; rewrite app_nil_r; repeat split; assumption);
      rewrite <- ?app_assoc; cbn [app]; eexists;
      (split; [reflexivity|]);
      (split; [cbn; not_the_handle c; reflexivity | split; congruence]).
  - (* Media *)
    destruct userMedia as [m|e].
    + exists [LiveConnect].
      cbv [startSession_media catch bind lift set_stream perform ret snd
           effects audioContexts isRecording session nextStartTime stream].
      repeat split; assumption.
    + exists ([ConsoleError e] ++ releases st).
      cbv [startSession_media catch bind lift].
      rewrite startSession_catch_run. cbn [bind ret snd effects audioContexts].
      repeat split; assumption.
  - (* Connected *)
    destruct connected as [s|e].
    + exists [].
      cbv [startSession_session catch bind lift set_session snd
           effects audioContexts isRecording session nextStartTime stream].
      rewrite app_nil_r. repeat split; assumption.
    + exists ([ConsoleError e] ++ releases st).
      cbv [startSession_session catch bind lift].
      rewrite startSession_catch_run. cbn [snd effects audioContexts].
      repeat split; assumption.
  - (* Opened *)
    exists []. cbn. rewrite app_nil_r. repeat split; assumption.
  - (* Captured *)
    unfold onaudioprocess, bind, lift. destruct (createBlob d) as [blob|e].
    + exists [SendRealtimeInput s blob]. cbn. repeat split; assumption.
    + exists []. cbn. rewrite app_nil_r. repeat split; assumption.
  - (* Greeted *)
    exists [SendClientContent s]. cbn. repeat split; assumption.
  - (* Failed *)
    exists ([ConsoleError e; Emit (ErrorEvent e)] ++ releases st).
    rewrite onerror_run. cbn [snd effects audioContexts].
    repeat split; assumption.
  - (* Closed *)
    exists (releases st). unfold onclose. rewrite cleanup_run.
    cbn [snd effects audioContexts]. repeat split; assumption.
  - (* Stop *)
    exists (releases st). rewrite cleanup_run.
    cbn [snd effects audioContexts]. repeat split; assumption.
Qed.

Lemma lifecycles_leak (c : handle) (xs : list Lifecycle) :
  Forall (fun x => reuses c x = false) xs ->
  forall st : State,
  input (audioContexts st) <> Some c -> output (audioContexts st) <> Some c ->
  exists tr : list Effect,
    effects (lifecycles xs st) = effects st ++ tr /\ closes c tr = 0%nat.
Proof.
  induction 1 as [| x xs Hx _ IH]; intros st Hi Ho.
  - exists []. cbn. now rewrite app_nil_r.
  - change (lifecycles (x :: xs) st) with (lifecycles xs (lifecycle x st)).
    destruct (lifecycle_leak c x st Hi Ho Hx) as [tr1 [E1 [C1 [Hi1 Ho1]]]].
    destruct (IH _ Hi1 Ho1) as [tr2 [E2 C2]].
    exists (tr1 ++ tr2). rewrite E2, E1, <- app_assoc.
    split; [reflexivity|]. rewrite closes_app. lia.
Qed.

Lemma started_twice_run (i o i' o' : handle) (st : State) :
  isRecording st = false ->
  started_twice i o i' o' st
  = mkState false {| input := Some i'; output := Some o' |} (session st)
            (nextStartTime st) (stream st)
            (effects st
             ++ [NewAudioContext i 16000; NewAudioContext o 24000; GetUserMedia;
                 NewAudioContext i' 16000; NewAudioContext o' 24000;
                 GetUserMedia]).
Proof.
  destruct st as [r c s n m tr]. cbn [isRecording]. intros ->.
  cbv [started_twice lifecycles fold_left lifecycle exec startSession bind get
       catch construct lift perform set_audioContexts ret snd
       isRecording audioContexts session nextStartTime stream effects].
  now rewrite <- !app_assoc.
Qed.

(** C6, evaluated.  The guard of [startSession] tests [isRecording],
    which only [onopen] sets: on a recording bridge a start is a no-op,
    but a start made while an earlier start has not opened its session
    is not refused.  It constructs a second capture context and a second
    playback context and overwrites the fields that held the first pair.
    From then on nothing reaches the first pair: whatever follows
    (microphone, session, captured frames, errors, closes, further
    starts, any number of stops), neither of its contexts is ever
    closed, so that two capture contexts and two playback contexts are
    alive at once and the first pair stays alive after [cleanup]. *)
Theorem second_start_leaks_contexts
  (i o i' o' : handle) (xs : list Lifecycle) (st recording : State)
  (newInput newOutput : result handle) :
  isRecording recording = true ->
  isRecording st = false ->
  closes i (effects st) = 0%nat -> closes o (effects st) = 0%nat ->
  i' <> i -> o' <> i -> i' <> o -> o' <> o ->
  Forall (fun x => reuses i x = false) xs ->
  Forall (fun x => reuses o x = false) xs ->
  startSession newInput newOutput recording = (Ok None, recording)
  /\ effects (started_twice i o i' o' st)
     = effects st
       ++ [NewAudioContext i 16000; NewAudioContext o 24000; GetUserMedia;
           NewAudioContext i' 16000; NewAudioContext o' 24000; GetUserMedia]
  /\ audioContexts (started_twice i o i' o' st)
     = {| input := Some i'; output := Some o' |}
  /\ In i (alive_contexts 16000
             (effects (lifecycles xs (started_twice i o i' o' st))))
  /\ In o (alive_contexts 24000
             (effects (lifecycles xs (started_twice i o i' o' st))))
  /\ In i (alive_contexts 16000
             (effects (exec cleanup (lifecycles xs (started_twice i o i' o' st)))))
  /\ In o (alive_contexts 24000
             (effects (exec cleanup (lifecycles xs (started_twice i o i' o' st))))).
Proof.
  intros Hrec Hr Hci Hco Hii Hoi Hio Hoo Hxi Hxo.
  split; [unfold startSession, bind, get; now rewrite Hrec|].
  rewrite (started_twice_run i o i' o' st Hr).
  cbn [effects audioContexts]. split; [reflexivity|]. split; [reflexivity|].
  set (twice := mkState _ _ _ _ _ _).
  assert (Hall : forall ys : list Lifecycle,
             Forall (fun x => reuses i x = false) ys ->
             Forall (fun x => reuses o x = false) ys ->
             In i (alive_contexts 16000 (effects (lifecycles ys twice)))
             /\ In o (alive_contexts 24000 (effects (lifecycles ys twice)))).
  { intros ys Hyi Hyo.
    destruct (lifecycles_leak i ys Hyi twice) as [tri [Ei Ci]];
      [cbn; congruence | cbn; congruence |].
    destruct (lifecycles_leak o ys Hyo twice) as [tro [Eo Co]];
      [cbn; congruence | cbn; congruence |].
    unfold alive_contexts. split; apply filter_In; split.
    - rewrite Ei. unfold twice. cbn [effects].
      rewrite !constructed_app. apply in_or_app. left. apply in_or_app. right.
      cbn. left. reflexivity.
    - rewrite Ei. unfold twice. cbn [effects]. rewrite !closes_app, Hci, Ci.
      cbn [closes filter List.length]. not_the_handle i. reflexivity.
    - rewrite Eo. unfold twice. cbn [effects].
      rewrite !constructed_app. apply in_or_app. left. apply in_or_app. right.
      cbn. left. reflexivity.
    - rewrite Eo. unfold twice. cbn [effects]. rewrite !closes_app, Hco, Co.
      cbn [closes filter List.length]. not_the_handle o. reflexivity. }
  destruct (Hall xs Hxi Hxo) as [A1 A2].
  destruct (Hall (xs ++ [Stop])) as [B1 B2];
    [apply Forall_app; split; [exact Hxi | repeat constructor]
    |apply Forall_app; split; [exact Hxo | repeat constructor] |].
  unfold lifecycles in B1, B2. rewrite fold_left_app in B1, B2.
  cbn [fold_left lifecycle] in B1, B2.
  repeat split; assumption.
Qed.

(** A double start on a fresh component, followed by the microphone and
    the session of both starts and by a stop. *)
Lemma second_start_leaks_contexts_witness :
  let xs := [Media (Ok 5%nat); Media (Ok 6%nat); Opened; Connected (Ok 7%nat);
             Opened; Connected (Ok 8%nat); Stop] in
  startSession (Ok 9%nat) (Ok 10%nat) (started 1%nat 2%nat 3%nat 4%nat)
  = (Ok None, started 1%nat 2%nat 3%nat 4%nat)
  /\ effects (started_twice 1%nat 2%nat 3%nat 4%nat setup)
     = effects setup
       ++ [NewAudioContext 1%nat 16000; NewAudioContext 2%nat 24000; GetUserMedia;
           NewAudioContext 3%nat 16000; NewAudioContext 4%nat 24000; GetUserMedia]
  /\ audioContexts (started_twice 1%nat 2%nat 3%nat 4%nat setup)
     = {| input := Some 3%nat; output := Some 4%nat |}
  /\ In 1%nat (alive_contexts 16000
                 (effects (lifecycles xs (started_twice 1%nat 2%nat 3%nat 4%nat setup))))
  /\ In 2%nat (alive_contexts 24000
                 (effects (lifecycles xs (started_twice 1%nat 2%nat 3%nat 4%nat setup))))
  /\ In 1%nat (alive_contexts 16000
                 (effects (exec cleanup
                    (lifecycles xs (started_twice 1%nat 2%nat 3%nat 4%nat setup)))))
  /\ In 2%nat (alive_contexts 24000
                 (effects (exec cleanup
                    (lifecycles xs (started_twice 1%nat 2%nat 3%nat 4%nat setup))))).
Proof.
  apply (second_start_leaks_contexts 1%nat 2%nat 3%nat 4%nat
           [Media (Ok 5%nat); Media (Ok 6%nat); Opened; Connected (Ok 7%nat);
            Opened; Connected (Ok 8%nat); Stop]
           setup (started 1%nat 2%nat 3%nat 4%nat) (Ok 9%nat) (Ok 10%nat));
    try reflexivity; try discriminate; repeat constructor.
Defined.

(** C6, on a fresh component.  A second [startSession] issued before
    the session has opened is not stopped by the guard: two capture
    contexts and two playback contexts are alive, and the first pair
    stays alive after [cleanup].  And when the capture context is
    constructed but the playback context is not, [cleanup] runs and the
    capture context stays alive. *)
Lemma contexts_left_alive :
  let twice :=
    exec (startSession (Ok 3%nat) (Ok 4%nat))
         (exec (startSession (Ok 1%nat) (Ok 2%nat)) setup) in
  let partial :=
    exec (startSession (Ok 1%nat) (Throw NotSupportedError)) setup in
  alive_contexts 16000 (effects twice) = [1; 3]%nat
  /\ alive_contexts 24000 (effects twice) = [2; 4]%nat
  /\ alive_contexts 16000 (effects (exec cleanup twice)) = [1%nat]
  /\ alive_contexts 24000 (effects (exec cleanup twice)) = [2%nat]
  /\ effects partial
     = [NewAudioContext 1%nat 16000; ConsoleError NotSupportedError]
  /\ alive_contexts 16000 (effects (exec cleanup partial)) = [1%nat].
Proof. repeat split. Qed.

(** * Further properties of the audio helpers *)

(** ** Size and alphabet of the transport text *)

Lemma encode_bytes_length (l : list N) :
  List.length (Base64.encode_bytes l) = base64_length (List.length l).
Proof.
  unfold base64_length.
  induction l as [| a | a b | a b c l IH] using list_ind3; try reflexivity.
  cbn [Base64.encode_bytes List.length]. rewrite IH.
  generalize (List.length l). intros n. euclid.
Qed.

Lemma encode_bytes_chars (l : list N) :
  Forall Base64.is_byte l -> Forall base64_char (Base64.encode_bytes l).
Proof.
  intros Hl. rewrite encode_bytes_split. apply Forall_app. split.
  - rewrite Forall_map.
    eapply Forall_impl; [|exact (sextets_of_range l Hl)].
    intros s Hs. left. now rewrite (index_of_char_of s Hs).
  - eapply Forall_impl; [|exact (pads_of_pad l)].
    intros c ->. now right.
Qed.

Lemma encode_shape (bytes : list byte) :
  exists s : jsstring,
    encode bytes = Ok s
    /\ List.length s = base64_length (List.length bytes)
    /\ Forall base64_char s.
Proof.
  exists (Base64.encode_bytes (List.map fromCharCode bytes)).
  split; [apply encode_total|]. split.
  - now rewrite encode_bytes_length, length_map.
  - apply encode_bytes_chars, binary_string_bytes.
Qed.

(** X1.  [encode] never throws; the text it returns for [n] bytes has
    [4 * ceil(n / 3)] code units, each a letter of the base64 alphabet or
    the padding sign. *)
Theorem encode_text (bytes : list byte) :
  exists s : jsstring,
    encode bytes = Ok s
    /\ List.length s = base64_length (List.length bytes)
    /\ Forall base64_char s.
Proof. exact (encode_shape bytes). Qed.

(** X2.  [createBlob] never throws, whatever the samples are (finite or
    not, inside the normalized range or not).  The blob always declares
    [audio/pcm;rate=16000], and the text of a frame of [n] samples has
    [4 * ceil(2n / 3)] code units: 10924 for the 4096 samples of a
    captured frame. *)
Theorem createBlob_total (samples : list Number) :
  exists blob : Blob,
    createBlob samples = Ok blob
    /\ mimeType blob = "audio/pcm;rate=16000"%string
    /\ List.length (data blob) = base64_length (2 * List.length samples)
    /\ Forall base64_char (data blob)
    /\ base64_length (2 * 4096) = (4 * 2731)%nat.
Proof.
  destruct (encode_shape (Uint8Array_of_Int16 (pcm16 samples)))
    as [s [Es [Ls Cs]]].
  exists {| data := s; mimeType := "audio/pcm;rate=16000" |}.
  unfold createBlob. fold (pcm16 samples). rewrite Es.
  cbn [rbind data mimeType]. repeat split; auto.
  rewrite Ls, Uint8Array_of_Int16_length. unfold pcm16.
  now rewrite length_map.
Qed.

(** ** Payloads that are not base64 *)

Lemma strip_padding_keeps (l : list N) (c : N) :
  In c l -> c <> Base64.pad -> In c (Base64.strip_padding l).
Proof.
  intros Hin Hc. unfold Base64.strip_padding.
  destruct (_ =? 0)%nat; [|exact Hin].
  destruct (rev l) as [|c1 r1] eqn:E; [exact Hin|].
  assert (H1 : In c (c1 :: r1)) by (rewrite <- E; now apply in_rev in Hin).
  destruct (N.eqb_spec c1 Base64.pad) as [->|_]; [|exact Hin].
  destruct H1 as [H1|H1]; [congruence|].
  destruct r1 as [|c2 r2]; [destruct H1|].
  destruct (N.eqb_spec c2 Base64.pad) as [->|_].
  - destruct H1 as [H1|H1]; [congruence|]. now apply in_rev in H1.
  - now apply in_rev in H1.
Qed.

Lemma sextets_rejects (l : list N) (c : N) :
  In c l -> Base64.index_of c = None -> Base64.sextets l = None.
Proof.
  intros Hin Hc. induction l as [|x l IH]; [destruct Hin|].
  cbn [Base64.sextets]. destruct Hin as [->|Hin].
  - now rewrite Hc.
  - rewrite (IH Hin). now destruct (Base64.index_of x).
Qed.

Lemma atob_rejects (s : jsstring) (c : N) :
  In c s -> Base64.is_whitespace c = false -> c <> Base64.pad ->
  Base64.index_of c = None ->
  Base64.atob s = Throw InvalidCharacterError.
Proof.
  intros Hin Hw Hp Hc. unfold Base64.atob.
  destruct (_ =? 1)%nat; [reflexivity|].
  rewrite (sextets_rejects _ c); [reflexivity| |exact Hc].
  apply strip_padding_keeps; [|exact Hp].
  apply filter_In. split; [exact Hin|]. now rewrite Hw.
Qed.

Lemma payload_truthy (msg : LiveServerMessage) (c : N) :
  In c (payload msg) -> truthy (audioData_of msg) = true.
Proof.
  unfold payload. destruct (audioData_of msg) as [[|x s]|]; cbn; tauto.
Qed.

(** X3.  A payload that holds a code unit outside the base64 alphabet
    (and which is neither white space nor the padding sign) makes
    [decode] throw [InvalidCharacterError].  The message handler has
    then already announced the burst and moved the marker up to the
    clock; it schedules nothing and ends with that error. *)
Theorem onmessage_rejects_bad_text
  (l : Locals) (msg : LiveServerMessage) (t : Q) (st : State) (c : N) :
  In c (payload msg) ->
  Base64.is_whitespace c = false -> c <> Base64.pad ->
  Base64.index_of c = None ->
  decode (payload msg) = Throw InvalidCharacterError
  /\ onmessage l msg t st = (Throw InvalidCharacterError, speaking t st)
  /\ schedule (effects (exec (onmessage l msg t) st)) = schedule (effects st)
  /\ emitted (effects (exec (onmessage l msg t) st))
     = emitted (effects st) ++ [SpeakingStart].
Proof.
  intros Hin Hw Hp Hc.
  assert (D : decode (payload msg) = Throw InvalidCharacterError).
  { unfold decode. now rewrite (atob_rejects _ c Hin Hw Hp Hc). }
  assert (R : onmessage l msg t st
              = (Throw InvalidCharacterError, speaking t st)).
  { rewrite onmessage_run, onmessage_begin_run.
    now rewrite (payload_truthy msg c Hin), D. }
  repeat split; [exact D | exact R | |]; unfold exec; rewrite R;
    cbn [snd speaking effects].
  - rewrite schedule_app. cbn. now rewrite app_nil_r.
  - now rewrite emitted_app.
Qed.

Lemma onmessage_rejects_bad_text_witness :
  decode (payload (message_of (js "TW-u"))) = Throw InvalidCharacterError
  /\ onmessage {| inputCtx := 1%nat; outputCtx := 2%nat |}
               (message_of (js "TW-u")) 0 setup
     = (Throw InvalidCharacterError, speaking 0 setup)
  /\ schedule (effects (exec (onmessage {| inputCtx := 1%nat; outputCtx := 2%nat |}
                                        (message_of (js "TW-u")) 0) setup))
     = schedule (effects setup)
  /\ emitted (effects (exec (onmessage {| inputCtx := 1%nat; outputCtx := 2%nat |}
                                       (message_of (js "TW-u")) 0) setup))
     = emitted (effects setup) ++ [SpeakingStart].
Proof.
  apply (onmessage_rejects_bad_text
           {| inputCtx := 1%nat; outputCtx := 2%nat |}
           (message_of (js "TW-u")) 0 setup 45%N).
  - cbn. tauto.
  - reflexivity.
  - discriminate.
  - reflexivity.
Defined.

(** ** Decoding, then encoding again *)

Lemma int16_of_pair_range (lo hi : byte) : is_int16 (int16_of_pair lo hi).
Proof.
  unfold is_int16, int16_of_pair.
  pose proof (Byte.to_N_bounded lo). pose proof (Byte.to_N_bounded hi).
  destruct (Z.leb_spec 32768
              (Z.of_N (Byte.to_N lo) + 256 * Z.of_N (Byte.to_N hi))); lia.
Qed.

Lemma int16_elements_range (bytes : list byte) :
  Forall is_int16 (int16_elements bytes).
Proof.
  induction bytes as [| a | a b l IH] using list_ind2; try constructor.
  - apply int16_of_pair_range.
  - exact IH.
Qed.

Lemma int16_bytes_of_pair (lo hi : byte) :
  int16_bytes (int16_of_pair lo hi) = [lo; hi].
Proof.
  unfold int16_bytes, int16_of_pair.
  pose proof (Byte.to_N_bounded lo) as Hlo.
  pose proof (Byte.to_N_bounded hi) as Hhi.
  set (a := Byte.to_N lo) in *. set (b := Byte.to_N hi) in *.
  assert (E : (if 32768 <=? Z.of_N a + 256 * Z.of_N b
               then Z.of_N a + 256 * Z.of_N b - 65536
               else Z.of_N a + 256 * Z.of_N b) mod 65536
              = Z.of_N a + 256 * Z.of_N b).
  { destruct (Z.leb_spec 32768 (Z.of_N a + 256 * Z.of_N b)); euclid. }
  rewrite E.
  replace (Z.to_N ((Z.of_N a + 256 * Z.of_N b) mod 256)) with a by euclid.
  replace (Z.to_N ((Z.of_N a + 256 * Z.of_N b) / 256)) with b by euclid.
  subst a b. change Byte.to_N with fromCharCode.
  now rewrite !ToUint8_fromCharCode.
Qed.

Lemma view_of_int16_elements (bytes : list byte) :
  Nat.even (List.length bytes) = true ->
  Uint8Array_of_Int16 (int16_elements bytes) = bytes.
Proof.
  induction bytes as [| a | a b l IH] using list_ind2; intros He.
  - reflexivity.
  - discriminate He.
  - cbn [int16_elements Uint8Array_of_Int16 flat_map].
    rewrite int16_bytes_of_pair. cbn [app]. do 2 f_equal.
    apply IH. exact He.
Qed.

Lemma truncate_integer (v : Z) : truncate (inject_Z v) = v.
Proof.
  rewrite truncate_quot. cbn [inject_Z Qnum Qden]. apply Z.quot_1_r.
Qed.

Lemma requantize (v : Z) :
  is_int16 v -> ToInt16 (Nmul (dequantize v) (Finite 32768)) = v.
Proof.
  intros Hv. unfold dequantize. cbn [Nmul].
  assert (E : truncate (inject_Z v / 32768 * 32768) = v).
  { rewrite <- (truncate_integer v) at 2. apply truncate_same. field. }
  rewrite ToInt16_exact; rewrite E; [reflexivity | exact Hv].
Qed.

Lemma pcm16_dequantize (l : list Z) :
  Forall is_int16 l -> pcm16 (List.map dequantize l) = l.
Proof.
  induction 1 as [| v l Hv _ IH]; [reflexivity|].
  cbn [List.map pcm16]. rewrite (requantize v Hv). f_equal. exact IH.
Qed.

(** X4.  Decoding loses nothing.  For every non-empty byte array of even
    length, the samples that [decodeAudioData] produces are turned by
    [createBlob] into a text that [decode] maps back to the very same
    bytes. *)
Theorem decode_then_encode (bytes : list byte) :
  Nat.even (List.length bytes) = true -> bytes <> [] ->
  exists (samples : list Number) (blob : Blob),
    decodeAudioData bytes 24000 1
    = Ok {| numberOfChannels := 1;
            frames := List.length bytes / 2;
            sampleRate := 24000;
            channelData := [samples] |}
    /\ createBlob samples = Ok blob
    /\ decode (data blob) = Ok bytes.
Proof.
  intros He Hne.
  assert (Hz : List.length bytes <> 0%nat)
    by (destruct bytes; [congruence | discriminate]).
  destruct (createBlob_bytes (List.map dequantize (int16_elements bytes)))
    as [blob [E [_ D]]].
  exists (List.map dequantize (int16_elements bytes)), blob.
  split; [exact (decodeAudioData_even bytes He Hz)|].
  split; [exact E|].
  rewrite D, pcm16_dequantize by apply int16_elements_range.
  now rewrite view_of_int16_elements.
Qed.

Lemma decode_then_encode_witness :
  exists (samples : list Number) (blob : Blob),
    decodeAudioData [x00; x80; xff; x7f] 24000 1
    = Ok {| numberOfChannels := 1;
            frames := List.length [x00; x80; xff; x7f] / 2;
            sampleRate := 24000;
            channelData := [samples] |}
    /\ createBlob samples = Ok blob
    /\ decode (data blob) = Ok [x00; x80; xff; x7f].
Proof.
  apply (decode_then_encode [x00; x80; xff; x7f]).
  - reflexivity.
  - discriminate.
Defined.

(** ** Channels *)

(** What a successful [decodeAudioData] has computed. *)
Lemma decodeAudioData_inv
  (bytes : list byte) (rate : Q) (numChannels : nat) (buf : AudioBuffer) :
  decodeAudioData bytes rate numChannels = Ok buf ->
  Nat.even (List.length bytes) = true
  /\ numChannels <> 0%nat
  /\ (List.length bytes / 2 / numChannels)%nat <> 0%nat
  /\ buf = {| numberOfChannels := numChannels;
              frames := List.length bytes / 2 / numChannels;
              sampleRate := rate;
              channelData :=
                List.map
                  (fun channel =>
                     List.map
                       (fun i => sample_at (int16_elements bytes)
                                           (i * numChannels + channel))
                       (seq 0 (List.length bytes / 2 / numChannels)))
                  (seq 0 numChannels) |}.
Proof.
  unfold decodeAudioData, Int16Array_of_buffer.
  destruct (Nat.even (List.length bytes)); [|discriminate].
  cbn [rbind]. rewrite int16_elements_length. unfold createBuffer.
  destruct (Nat.eqb_spec numChannels 0) as [|Hn]; [discriminate|].
  destruct (Nat.eqb_spec (List.length bytes / 2 / numChannels) 0)
    as [|Hf]; [discriminate|].
  destruct (Qle_bool rate 0); [discriminate|].
  cbn [orb rbind numberOfChannels frames sampleRate].
  intros H. injection H as <-. auto.
Qed.

Lemma sample_in_frame (l : list Z) (numChannels i c : nat) :
  (c < numChannels)%nat -> (i < List.length l / numChannels)%nat ->
  (i * numChannels + c < List.length l)%nat.
Proof.
  intros Hc Hi.
  pose proof (Nat.Div0.mul_div_le (List.length l) numChannels) as H.
  nia.
Qed.

Lemma nth_map_seq {A : Type} (F : nat -> A) (n c : nat) (d : A) :
  (c < n)%nat -> nth c (List.map F (seq 0 n)) d = F c.
Proof.
  intros Hc.
  rewrite (nth_indep _ d (F 0%nat)) by (now rewrite length_map, length_seq).
  rewrite map_nth. now rewrite seq_nth.
Qed.

Lemma decoded_sample
  (bytes : list byte) (rate : Q) (numChannels : nat) (buf : AudioBuffer)
  (c i : nat) :
  decodeAudioData bytes rate numChannels = Ok buf ->
  (c < numChannels)%nat -> (i < frames buf)%nat ->
  exists v : Z,
    nth_error (int16_elements bytes) (i * numChannels + c) = Some v
    /\ is_int16 v
    /\ nth_error (nth c (channelData buf) []) i = Some (dequantize v).
Proof.
  intros H Hc Hi.
  destruct (decodeAudioData_inv _ _ _ _ H) as [_ [_ [_ ->]]].
  cbn [frames channelData] in *.
  assert (Hlt : (i * numChannels + c
                 < List.length (int16_elements bytes))%nat).
  { apply sample_in_frame; [exact Hc|].
    now rewrite int16_elements_length. }
  destruct (nth_error (int16_elements bytes) (i * numChannels + c))
    as [v|] eqn:E; [|apply nth_error_None in E; lia].
  exists v. split; [reflexivity|]. split.
  - pose proof (int16_elements_range bytes) as R.
    rewrite Forall_forall in R. apply R. eapply nth_error_In. exact E.
  - rewrite nth_map_seq by exact Hc.
    rewrite nth_error_map, nth_error_seq.
    replace (i <? List.length bytes / 2 / numChannels)%nat with true
      by (symmetry; now apply Nat.ltb_lt).
    cbn [option_map Nat.add]. unfold sample_at. now rewrite E.
Qed.

Lemma dequantize_representable (v : Z) :
  is_int16 v -> representable (dequantize v).
Proof.
  unfold is_int16, dequantize, representable. intros [Hlo Hhi].
  rewrite Zle_Qle in Hlo. rewrite Zlt_Qlt in Hhi.
  change (inject_Z (-32768)) with (-32768 # 1)%Q in Hlo.
  change (inject_Z 32768) with (32768 # 1)%Q in Hhi.
  generalize dependent (inject_Z v). intros q Hlo Hhi.
  unfold Qdiv. change (/ 32768)%Q with (1 # 32768)%Q. split; lra.
Qed.

(** X5.  Whatever the bytes, the rate and the channel count, a buffer
    that [decodeAudioData] returns has [numChannels] channels of
    [floor(byteLength / 2 / numChannels)] frames each (a last incomplete
    frame is dropped), and frame [i] of channel [c] is the 16-bit value
    at index [i * numChannels + c] of the input, divided by 32768: the
    samples are taken in interleaved order. *)
Theorem decodeAudioData_deinterleaves
  (bytes : list byte) (rate : Q) (numChannels : nat) (buf : AudioBuffer) :
  decodeAudioData bytes rate numChannels = Ok buf ->
  numberOfChannels buf = numChannels
  /\ List.length (channelData buf) = numChannels
  /\ frames buf = (List.length bytes / 2 / numChannels)%nat
  /\ Forall (fun channel => List.length channel = frames buf) (channelData buf)
  /\ forall c i : nat,
       (c < numChannels)%nat -> (i < frames buf)%nat ->
       exists v : Z,
         nth_error (int16_elements bytes) (i * numChannels + c) = Some v
         /\ nth_error (nth c (channelData buf) []) i = Some (dequantize v).
Proof.
  intros H.
  destruct (decodeAudioData_inv _ _ _ _ H) as [_ [_ [_ E]]].
  split; [now rewrite E|].
  split; [rewrite E; cbn [channelData]; now rewrite length_map, length_seq|].
  split; [now rewrite E|].
  split.
  - rewrite E. cbn [channelData frames]. rewrite Forall_map.
    apply Forall_forall. intros c _. now rewrite length_map, length_seq.
  - intros c i Hc Hi.
    destruct (decoded_sample _ _ _ _ c i H Hc Hi) as [v [E1 [_ E2]]].
    exists v. auto.
Qed.

Lemma decodeAudioData_deinterleaves_witness :
  decodeAudioData stereo_frames 24000 2
  = Ok {| numberOfChannels := 2;
          frames := 2;
          sampleRate := 24000;
          channelData := [[dequantize 1; dequantize 3];
                          [dequantize 2; dequantize 4]] |}
  /\ exists v : Z,
       nth_error (int16_elements stereo_frames) (1 * 2 + 1) = Some v
       /\ nth_error (nth 1 [[dequantize 1; dequantize 3];
                            [dequantize 2; dequantize 4]] []) 1
          = Some (dequantize v).
Proof.
  split; [reflexivity|].
  refine (proj2 (proj2 (proj2 (proj2
    (decodeAudioData_deinterleaves stereo_frames 24000 2 _ eq_refl))))
    1%nat 1%nat _ _); cbn; lia.
Defined.

(** X6.  Every sample of every channel that [decodeAudioData] returns is
    a finite number of [-1.0, 1.0): decoding never yields NaN, an
    infinity or a value outside the normalized range. *)
Theorem decoded_samples_normalized
  (bytes : list byte) (rate : Q) (numChannels : nat) (buf : AudioBuffer) :
  decodeAudioData bytes rate numChannels = Ok buf ->
  Forall (Forall representable) (channelData buf).
Proof.
  intros H. apply Forall_forall. intros channel Hin.
  apply In_nth_error in Hin. destruct Hin as [c Hc].
  assert (Hlen : (c < List.length (channelData buf))%nat)
    by (apply nth_error_Some; congruence).
  destruct (decodeAudioData_inv _ _ _ _ H) as [_ [_ [_ E]]].
  assert (Hcn : (c < numChannels)%nat).
  { rewrite E in Hlen. cbn [channelData] in Hlen.
    now rewrite length_map, length_seq in Hlen. }
  assert (Hch : channel = nth c (channelData buf) [])
    by (symmetry; now apply nth_error_nth).
  apply Forall_forall. intros x Hx.
  apply In_nth_error in Hx. destruct Hx as [i Hi].
  assert (Hif : (i < frames buf)%nat).
  { assert (Hil : (i < List.length channel)%nat)
      by (apply nth_error_Some; congruence).
    rewrite Hch, E in Hil. cbn [channelData] in Hil.
    rewrite nth_map_seq in Hil by exact Hcn.
    rewrite length_map, length_seq in Hil.
    rewrite E. exact Hil. }
  destruct (decoded_sample _ _ _ _ c i H Hcn Hif) as [v [_ [Hv E2]]].
  rewrite <- Hch, Hi in E2. injection E2 as ->.
  now apply dequantize_representable.
Qed.

Lemma decoded_samples_normalized_witness :
  Forall (Forall representable)
    [[dequantize 1; dequantize 3]; [dequantize 2; dequantize 4]].
Proof.
  apply (decoded_samples_normalized stereo_frames 24000 2
           {| numberOfChannels := 2;
              frames := 2;
              sampleRate := 24000;
              channelData := [[dequantize 1; dequantize 3];
                              [dequantize 2; dequantize 4]] |}).
  reflexivity.
Defined.

(** ** The events and the gaps of a run of messages *)

Lemma onmessage_emits (l : Locals) (msg : LiveServerMessage) (t : Q) (st : State) :
  emitted (effects (exec (onmessage l msg t) st))
  = emitted (effects st)
    ++ (if truthy (audioData_of msg) then [SpeakingStart] else []).
Proof.
  unfold exec. rewrite onmessage_run, onmessage_begin_run.
  destruct (truthy (audioData_of msg)); [|cbn; now rewrite app_nil_r].
  destruct (rbind _ _) as [buf|e]; cbn [snd effects speaking];
    rewrite ?emitted_app; cbn; now rewrite ?app_nil_r.
Qed.

(** X7.  In a run of inbound messages the owner receives exactly one
    [speaking-start] event per message that carries audio data, whether
    or not that data could be decoded and played, and no event for the
    messages that carry none; the handler emits nothing else. *)
Theorem speaking_start_per_message
  (l : Locals) (msgs : list (LiveServerMessage * Q)) (st : State) :
  emitted (effects (onmessages l msgs st))
  = emitted (effects st) ++ repeat SpeakingStart (audio_messages msgs).
Proof.
  revert st. induction msgs as [| [msg t] msgs IH]; intros st.
  - cbn. now rewrite app_nil_r.
  - rewrite onmessages_cons, IH, onmessage_emits.
    unfold audio_messages. cbn [filter fst].
    destruct (truthy (audioData_of msg)).
    + cbn [List.length repeat]. now rewrite <- app_assoc.
    + now rewrite app_nil_r.
Qed.

Lemma contiguous_from (lo lo' : Q) (l : list (Q * Q)) :
  (lo == lo')%Q -> contiguous lo l -> contiguous lo' l.
Proof.
  destruct l as [| [s d] r]; [trivial|].
  cbn [contiguous]. intros E [H1 H2]. split; [|exact H2].
  now rewrite <- E.
Qed.

Lemma marker_after_eq (l : list (Q * Q)) :
  forall lo lo' : Q,
  (lo == lo')%Q -> (marker_after lo l == marker_after lo' l)%Q.
Proof.
  unfold marker_after.
  induction l as [| [s d] r IH]; intros lo lo' E; [exact E|].
  cbn [fold_left snd]. apply IH. apply binary64_eq. lra.
Qed.

(** The seam between a frame and a run of frames that starts at the end
    stored for it. *)
Lemma seam_after (s d : Q) (new : list (Q * Q)) :
  contiguous (binary64 (s + d)) new -> seams_within_half_ulp new ->
  seams_within_half_ulp ((s, d) :: new).
Proof.
  destruct new as [| [s' d'] r]; [trivial|].
  cbn [contiguous]. intros [E _] H. cbn [seams_within_half_ulp].
  split; [|exact H].
  pose proof (binary64_error (s + d)) as He.
  apply Qabs_Qle_condition in He. apply Qabs_Qle_condition. lra.
Qed.

(** X8.  Frames that arrive on time play end to end.  When every
    message of a run is handled at a clock reading that does not exceed
    the marker [nextStartTime] the run starts with, a binary64 datum,
    every scheduled frame starts exactly at the end that the handler
    stored for the previous one (the first at the marker).  That end is
    the binary64 sum of start and duration, so that a frame starts
    within half a unit in the last place of the exact end of the frame
    before it, and the marker ends at the value obtained by adding the
    durations one after the other in binary64. *)
Theorem on_time_frames_are_contiguous
  (l : Locals) (msgs : list (LiveServerMessage * Q)) (st : State) :
  is_binary64 (nextStartTime st) ->
  Forall (fun m => (snd m <= nextStartTime st)%Q) msgs ->
  exists new : list (Q * Q),
    schedule (effects (onmessages l msgs st)) = schedule (effects st) ++ new
    /\ contiguous (nextStartTime st) new
    /\ seams_within_half_ulp new
    /\ (nextStartTime (onmessages l msgs st)
        == marker_after (nextStartTime st) new)%Q.
Proof.
  revert st. induction msgs as [| [msg t] msgs IH]; intros st Hst Hall.
  - exists []. cbn. rewrite app_nil_r. repeat split; reflexivity.
  - rewrite onmessages_cons.
    pose proof (Forall_inv Hall) as Ht. cbn [snd] in Ht.
    pose proof (Forall_inv_tail Hall) as Hall'.
    assert (Hmax : (Qmax (nextStartTime st) t == nextStartTime st)%Q)
      by (apply Q.max_l; exact Ht).
    assert (Hb : is_binary64 (Qmax (nextStartTime st) t))
      by (apply (is_binary64_eq (nextStartTime st)); [now symmetry | exact Hst]).
    pose proof (onmessage_step l msg t st) as S.
    destruct (onmessage_begin msg t st) as [[[buf|]|e] st1].
    + destruct S as [S1 [S2 S3]].
      pose proof (binary64_add_le _ (duration buf) Hb ltac:(lra)) as Hle.
      destruct (IH (exec (onmessage l msg t) st)) as [new [E [C [Hs Hn]]]].
      { rewrite S2. apply binary64_fixed. }
      { rewrite S2. eapply Forall_impl; [|exact Hall'].
        intros m Hm. cbn beta in Hm. lra. }
      exists ((Qmax (nextStartTime st) t, duration buf) :: new).
      rewrite E, S1, <- app_assoc. split; [reflexivity|].
      rewrite S2 in C, Hn. cbn [contiguous].
      split; [split; [exact Hmax | exact C]|].
      split; [exact (seam_after _ _ _ C Hs)|].
      rewrite Hn. unfold marker_after at 2. cbn [fold_left snd].
      apply marker_after_eq. apply binary64_eq. lra.
    + rewrite S. exact (IH st Hst Hall').
    + destruct S as [S1 S2].
      destruct (IH (exec (onmessage l msg t) st)) as [new [E [C [Hs Hn]]]].
      { now rewrite S2. }
      { rewrite S2. eapply Forall_impl; [|exact Hall'].
        intros m Hm. cbn beta in Hm. lra. }
      exists new. rewrite E, S1. split; [reflexivity|].
      rewrite S2 in C, Hn.
      split; [exact (contiguous_from _ _ _ Hmax C)|].
      split; [exact Hs|].
      rewrite Hn. apply marker_after_eq. exact Hmax.
Qed.

Lemma on_time_frames_are_contiguous_witness :
  exists new : list (Q * Q),
    schedule (effects (onmessages {| inputCtx := 1%nat; outputCtx := 2%nat |}
                                  [(message_of (js "AAAAAA=="), 0%Q);
                                   (message_of (js "AAAA"), 0%Q);
                                   (message_of (js "AAAAAAAA"), 0%Q)] setup))
    = schedule (effects setup) ++ new
    /\ contiguous (nextStartTime setup) new
    /\ seams_within_half_ulp new
    /\ (nextStartTime (onmessages {| inputCtx := 1%nat; outputCtx := 2%nat |}
                                   [(message_of (js "AAAAAA=="), 0%Q);
                                    (message_of (js "AAAA"), 0%Q);
                                    (message_of (js "AAAAAAAA"), 0%Q)] setup)
        == marker_after (nextStartTime setup) new)%Q.
Proof.
  apply (on_time_frames_are_contiguous
           {| inputCtx := 1%nat; outputCtx := 2%nat |}
           [(message_of (js "AAAAAA=="), 0%Q);
            (message_of (js "AAAA"), 0%Q);
            (message_of (js "AAAAAAAA"), 0%Q)] setup).
  - vm_compute. reflexivity.
  - repeat constructor; cbn; lra.
Defined.

(** * Further properties of the life cycle *)

Lemma lifecycle_marker (x : Lifecycle) (st : State) :
  nextStartTime (lifecycle x st) = nextStartTime st.
Proof.
  destruct st as [r [[ic|] [oc|]] [s0|] n [m0|] tr];
    destruct x as [[i|e1] [o|e2] | [m|e] | [s|e] | | s d | s | e | | ];
    cbn [lifecycle]; try (destruct r; reflexivity);
    unfold exec, onaudioprocess, bind, lift;
    now destruct (createBlob d).
Qed.

(** X9.  No turn of the life cycle resets the playback marker: after any
    sequence of starts (successful or not), opens, sends, errors, closes
    and stops, [nextStartTime] has the value it had before.  A session
    that is started after another one therefore schedules its first
    frame no earlier than the end of the last frame of the earlier
    session, although the clock of its new playback context starts from
    zero. *)
Theorem marker_survives_restart (xs : list Lifecycle) (st : State) :
  nextStartTime (lifecycles xs st) = nextStartTime st.
Proof.
  revert st. induction xs as [| x xs IH]; intros st; [reflexivity|].
  change (lifecycles (x :: xs) st) with (lifecycles xs (lifecycle x st)).
  now rewrite IH, lifecycle_marker.
Qed.

(** X10.  A start whose session cannot be opened gives back everything
    it acquired: the tracks of the stream are stopped and both contexts
    are closed, the bridge is neither recording nor holding a session,
    and the owner receives no event. *)
Theorem refused_start_releases (i o m : handle) (e : Exn) (st : State) :
  isRecording st = false ->
  isRecording (start_refused i o m e st) = false
  /\ session (start_refused i o m e st) = None
  /\ effects (start_refused i o m e st)
     = effects st
       ++ [NewAudioContext i 16000; NewAudioContext o 24000; GetUserMedia;
           LiveConnect; ConsoleError e]
       ++ match session st with Some s => [SessionClose s] | None => [] end
       ++ [TrackStop m; CtxClose i; CtxClose o]
  /\ emitted (effects (start_refused i o m e st)) = emitted (effects st).
Proof.
  intros Hr. destruct st as [r c [s0|] n m0 tr];
    cbn [isRecording] in Hr; subst r;
    unfold start_refused, lifecycles; cbn;
    rewrite <- ?app_assoc; cbn; repeat split;
    rewrite ?emitted_app; cbn; now rewrite ?app_nil_r.
Qed.

Lemma refused_start_releases_witness :
  isRecording (start_refused 1%nat 2%nat 3%nat NetworkError setup) = false
  /\ session (start_refused 1%nat 2%nat 3%nat NetworkError setup) = None
  /\ effects (start_refused 1%nat 2%nat 3%nat NetworkError setup)
     = [NewAudioContext 1%nat 16000; NewAudioContext 2%nat 24000;
        GetUserMedia; LiveConnect; ConsoleError NetworkError;
        TrackStop 3%nat; CtxClose 1%nat; CtxClose 2%nat]
  /\ emitted (effects (start_refused 1%nat 2%nat 3%nat NetworkError setup)) = [].
Proof.
  apply (refused_start_releases 1%nat 2%nat 3%nat NetworkError setup). reflexivity.
Defined.

(** X11.  Stopping does not cancel a start that is under way.  When the
    owner stops after the microphone was granted and before the session
    has opened, [cleanup] stops the tracks and closes both contexts but
    has no session to close; when the session then opens and resolves,
    the bridge is recording again and holds a session that was never
    closed, with both of its contexts closed. *)
Theorem stop_does_not_cancel_start (i o m s : handle) (st : State) :
  isRecording st = false -> session st = None ->
  isRecording (start_stopped_early i o m s st) = true
  /\ session (start_stopped_early i o m s st) = Some s
  /\ effects (start_stopped_early i o m s st)
     = effects st
       ++ [NewAudioContext i 16000; NewAudioContext o 24000; GetUserMedia;
           LiveConnect; TrackStop m; CtxClose i; CtxClose o]
  /\ alive_contexts 16000
       [NewAudioContext i 16000; NewAudioContext o 24000; GetUserMedia;
        LiveConnect; TrackStop m; CtxClose i; CtxClose o] = []
  /\ alive_contexts 24000
       [NewAudioContext i 16000; NewAudioContext o 24000; GetUserMedia;
        LiveConnect; TrackStop m; CtxClose i; CtxClose o] = [].
Proof.
  intros Hr Hs. destruct st as [r c s0 n m0 tr];
    cbn [isRecording session] in Hr, Hs; subst r s0;
    unfold start_stopped_early, lifecycles; cbn;
    rewrite <- ?app_assoc; cbn; repeat split.
  - rewrite Nat.eqb_refl. now destruct (o =? i)%nat.
  - rewrite Nat.eqb_refl. now destruct (i =? o)%nat.
Qed.

Lemma stop_does_not_cancel_start_witness :
  isRecording (start_stopped_early 1%nat 2%nat 3%nat 4%nat setup) = true
  /\ session (start_stopped_early 1%nat 2%nat 3%nat 4%nat setup) = Some 4%nat
  /\ effects (start_stopped_early 1%nat 2%nat 3%nat 4%nat setup)
     = [NewAudioContext 1%nat 16000; NewAudioContext 2%nat 24000;
        GetUserMedia; LiveConnect; TrackStop 3%nat; CtxClose 1%nat;
        CtxClose 2%nat]
  /\ alive_contexts 16000
       [NewAudioContext 1%nat 16000; NewAudioContext 2%nat 24000;
        GetUserMedia; LiveConnect; TrackStop 3%nat; CtxClose 1%nat;
        CtxClose 2%nat] = []
  /\ alive_contexts 24000
       [NewAudioContext 1%nat 16000; NewAudioContext 2%nat 24000;
        GetUserMedia; LiveConnect; TrackStop 3%nat; CtxClose 1%nat;
        CtxClose 2%nat] = [].
Proof.
  apply (stop_does_not_cancel_start 1%nat 2%nat 3%nat 4%nat setup); reflexivity.
Defined.

(** ** The volume meter *)

Lemma byte_sum_bounds (rest : list byte) (acc : Z) :
  acc <= fold_left (fun a b => a + Z.of_N (Byte.to_N b)) rest acc
  <= acc + 255 * Z.of_nat (List.length rest).
Proof.
  revert acc. induction rest as [| b rest IH]; intros acc; cbn [fold_left].
  - cbn. lia.
  - pose proof (Byte.to_N_bounded b).
    specialize (IH (acc + Z.of_N (Byte.to_N b))).
    cbn [List.length]. lia.
Qed.

Lemma reduce_sum_bounds (dataArray : list byte) :
  dataArray <> [] ->
  exists sum : Z,
    reduce_sum dataArray = Ok sum
    /\ 0 <= sum <= 255 * Z.of_nat (List.length dataArray).
Proof.
  destruct dataArray as [| first rest]; [congruence|]. intros _.
  eexists. split; [reflexivity|].
  pose proof (byte_sum_bounds rest (Z.of_N (Byte.to_N first))).
  pose proof (Byte.to_N_bounded first).
  cbn [List.length]. lia.
Qed.

Lemma level_bounds (sum n : Z) :
  0 < n -> 0 <= sum <= 255 * n ->
  (0 <= inject_Z sum / inject_Z n / 255
   /\ inject_Z sum / inject_Z n / 255 <= 1)%Q.
Proof.
  intros Hn [Hlo Hhi].
  assert (Hn' : (0 < inject_Z n)%Q)
    by (change 0%Q with (inject_Z 0); now rewrite <- Zlt_Qlt).
  assert (Hs : (0 <= inject_Z sum)%Q)
    by (change 0%Q with (inject_Z 0); now rewrite <- Zle_Qle).
  assert (Hb : (inject_Z sum <= 255 * inject_Z n)%Q).
  { change 255%Q with (inject_Z 255). rewrite <- inject_Z_mult.
    now rewrite <- Zle_Qle. }
  assert (Ha : (0 <= inject_Z sum / inject_Z n
                /\ inject_Z sum / inject_Z n <= 255)%Q).
  { split.
    - apply Qle_shift_div_l; [exact Hn'|]. lra.
    - apply Qle_shift_div_r; [exact Hn'|]. exact Hb. }
  destruct Ha as [Ha1 Ha2].
  generalize dependent (inject_Z sum / inject_Z n)%Q. intros avg Ha1 Ha2.
  unfold Qdiv. change (/ 255)%Q with (1 # 255)%Q. split; lra.
Qed.

(** X12.  While the bridge is recording, [updateVolume] turns any
    non-empty frequency snapshot into a level between 0 and 1 and asks
    for one more animation frame; the three bars drawn from that level
    are between 20 and 100 percent high (20 and 80 for the middle
    one). *)
Theorem volume_is_a_level (dataArray : list byte) (st : State) (m : Meter) :
  isRecording st = true -> dataArray <> [] ->
  exists m' : Meter,
    updateVolume dataArray st m = Ok m'
    /\ (0 <= volume m' /\ volume m' <= 1)%Q
    /\ animationFrames m' = S (animationFrames m)
    /\ (20 <= bar_height 100 m' /\ bar_height 100 m' <= 100)%Q
    /\ (20 <= bar_height 80 m' /\ bar_height 80 m' <= 80)%Q.
Proof.
  intros Hr Hne. unfold updateVolume. rewrite Hr. cbn [negb].
  destruct (reduce_sum_bounds dataArray Hne) as [sum [-> Hs]]. cbn [rbind].
  eexists. split; [reflexivity|]. cbn [volume animationFrames].
  assert (Hn : 0 < Z.of_nat (List.length dataArray))
    by (destruct dataArray; [congruence | cbn [List.length]; lia]).
  destruct (level_bounds sum _ Hn Hs) as [H0 H1].
  unfold bar_height. cbn [volume].
  generalize dependent (inject_Z sum / inject_Z (Z.of_nat (List.length dataArray)) / 255)%Q.
  intros v H0 H1.
  repeat split; try assumption.
  - apply Q.le_max_l.
  - apply Q.max_lub; lra.
  - apply Q.le_max_l.
  - apply Q.max_lub; lra.
Qed.

Lemma volume_is_a_level_witness :
  exists m' : Meter,
    updateVolume [xff; x00; x80] (started 1%nat 2%nat 3%nat 4%nat)
                 {| volume := 0; animationFrames := 0 |} = Ok m'
    /\ (0 <= volume m' /\ volume m' <= 1)%Q
    /\ animationFrames m' = 1%nat
    /\ (20 <= bar_height 100 m' /\ bar_height 100 m' <= 100)%Q
    /\ (20 <= bar_height 80 m' /\ bar_height 80 m' <= 80)%Q.
Proof.
  apply (volume_is_a_level [xff; x00; x80] (started 1%nat 2%nat 3%nat 4%nat)
           {| volume := 0; animationFrames := 0 |}).
  - reflexivity.
  - discriminate.
Defined.

Lemma startSession_media_metered_run
  (media : handle) (dataArray : list byte) (m : Meter) (st : State) :
  dataArray <> [] ->
  exists m' : Meter,
    updateVolume dataArray st m = Ok m'
    /\ startSession_media_metered (Ok media) dataArray m st
       = (Ok (true, m'), exec (startSession_media (Ok media)) st).
Proof.
  intros Hne.
  assert (Hu : exists m', updateVolume dataArray st m = Ok m').
  { unfold updateVolume. destruct (isRecording st); cbn [negb].
    - destruct (reduce_sum_bounds dataArray Hne) as [sum [-> _]]. cbn [rbind].
      eexists. reflexivity.
    - eexists. reflexivity. }
  destruct Hu as [m' Hu]. exists m'. split; [exact Hu|].
  assert (Hu' : updateVolume dataArray
                  (mkState (isRecording st) (audioContexts st) (session st)
                           (nextStartTime st) (Some media) (effects st)) m
                = Ok m') by exact Hu.
  cbv [startSession_media_metered startSession_media exec catch bind lift
       set_stream get perform ret snd].
  cbv [startSession_media_metered startSession_media exec catch bind lift
       set_stream get perform ret snd] in Hu'.
  rewrite Hu'. reflexivity.
Qed.

(** X13.  The call of [updateVolume] that [startSession] makes, once it
    has the microphone, sets the meter going only when the component is
    recording at that moment, which a start by itself never brings
    about: [isRecording] is set by [onopen], and the session is not
    requested before that call.  In a start that nothing interrupts,
    from a component that is not recording, the call leaves the level
    as it is and asks for no animation frame, so the meter of that
    start never runs.
    When a second start overlaps the first, and the first has opened
    its session when the second gets its microphone, the call of the
    second start sets a level between 0 and 1 and asks for an animation
    frame.  In both cases the component itself is left as by the start
    without the meter. *)
Theorem meter_starts_only_on_overlap
  (i o i' o' a b : handle) (dataArray : list byte) (st : State) (m : Meter) :
  isRecording st = false -> dataArray <> [] ->
  let alone := lifecycles [Start (Ok i) (Ok o)] st in
  let overlapped :=
    lifecycles [Start (Ok i) (Ok o); Start (Ok i') (Ok o'); Media (Ok a); Opened]
               st in
  startSession_media_metered (Ok b) dataArray m alone
  = (Ok (true, m), exec (startSession_media (Ok b)) alone)
  /\ exists m' : Meter,
       startSession_media_metered (Ok b) dataArray m overlapped
       = (Ok (true, m'), exec (startSession_media (Ok b)) overlapped)
       /\ animationFrames m' = S (animationFrames m)
       /\ (0 <= volume m' /\ volume m' <= 1)%Q.
Proof.
  intros Hr Hne. cbn zeta. split.
  - destruct (startSession_media_metered_run b dataArray m
                (lifecycles [Start (Ok i) (Ok o)] st) Hne) as [m' [Hu E]].
    rewrite E. f_equal. f_equal. f_equal.
    unfold updateVolume in Hu.
    replace (isRecording (lifecycles [Start (Ok i) (Ok o)] st)) with false in Hu.
    + cbn [negb] in Hu. congruence.
    + destruct st as [r c s n m0 tr]. cbn [isRecording] in Hr. subst r.
      reflexivity.
  - destruct (startSession_media_metered_run b dataArray m
                (lifecycles [Start (Ok i) (Ok o); Start (Ok i') (Ok o');
                             Media (Ok a); Opened] st) Hne) as [m' [Hu E]].
    exists m'. split; [exact E|].
    unfold updateVolume in Hu.
    replace (isRecording (lifecycles [Start (Ok i) (Ok o); Start (Ok i') (Ok o');
                                      Media (Ok a); Opened] st))
      with true in Hu.
    + cbn [negb] in Hu.
      destruct (reduce_sum_bounds dataArray Hne) as [sum [Es Hs]].
      rewrite Es in Hu. cbn [rbind] in Hu. injection Hu as <-.
      cbn [volume animationFrames]. split; [reflexivity|].
      apply level_bounds; [|exact Hs].
      destruct dataArray; [congruence | cbn [List.length]; lia].
    + destruct st as [r c s n m0 tr]. cbn [isRecording] in Hr. subst r.
      reflexivity.
Qed.

Lemma meter_starts_only_on_overlap_witness :
  let alone := lifecycles [Start (Ok 1%nat) (Ok 2%nat)] setup in
  let overlapped :=
    lifecycles [Start (Ok 1%nat) (Ok 2%nat); Start (Ok 3%nat) (Ok 4%nat);
                Media (Ok 5%nat); Opened] setup in
  startSession_media_metered (Ok 6%nat) [xff; x00; x80]
    {| volume := 0; animationFrames := 0 |} alone
  = (Ok (true, {| volume := 0; animationFrames := 0 |}),
     exec (startSession_media (Ok 6%nat)) alone)
  /\ exists m' : Meter,
       startSession_media_metered (Ok 6%nat) [xff; x00; x80]
         {| volume := 0; animationFrames := 0 |} overlapped
       = (Ok (true, m'), exec (startSession_media (Ok 6%nat)) overlapped)
       /\ animationFrames m' = 1%nat
       /\ (0 <= volume m' /\ volume m' <= 1)%Q.
Proof.
  apply (meter_starts_only_on_overlap 1%nat 2%nat 3%nat 4%nat 5%nat 6%nat
           [xff; x00; x80] setup {| volume := 0; animationFrames := 0 |}).
  - reflexivity.
  - discriminate.
Defined.

(** * Properties of the video tool *)

Lemma poll_done (rs : list (Cinema.outcome Cinema.Operation))
  (op : Cinema.Operation) (st : Cinema.State) :
  Cinema.done op = true -> Cinema.poll rs op st = (Cinema.Done op, st).
Proof. intros H. destruct rs; cbn [Cinema.poll]; now rewrite H. Qed.

Lemma poll_round (rs : list (Cinema.outcome Cinema.Operation))
  (op op' : Cinema.Operation) (st : Cinema.State) :
  Cinema.pending op ->
  Cinema.poll (Cinema.Resolved op' :: rs) op st
  = Cinema.poll rs op'
      (Cinema.mkState (Cinema.prompt st) (Cinema.aspectRatio st)
         (Cinema.loading st) (Cinema.videoUrl st) "Rendering frames..."
         (Cinema.effects st ++ Cinema.round)).
Proof.
  unfold Cinema.pending. intros H. cbn [Cinema.poll]. rewrite H.
  unfold Cinema.log, Cinema.set_status, Cinema.round.
  cbn [Cinema.prompt Cinema.aspectRatio Cinema.loading Cinema.videoUrl
       Cinema.status Cinema.effects].
  now rewrite <- app_assoc.
Qed.

Lemma poll_until_done
  (waiting : list Cinema.Operation) (final : Cinema.Operation)
  (rest : list (Cinema.outcome Cinema.Operation)) :
  Forall Cinema.pending waiting -> Cinema.done final = true ->
  forall (op0 : Cinema.Operation) (st : Cinema.State),
    Cinema.pending op0 ->
    Cinema.poll (List.map Cinema.Resolved waiting
                 ++ Cinema.Resolved final :: rest) op0 st
    = (Cinema.Done final,
       Cinema.mkState (Cinema.prompt st) (Cinema.aspectRatio st)
         (Cinema.loading st) (Cinema.videoUrl st) "Rendering frames..."
         (Cinema.effects st ++ Cinema.rounds (S (List.length waiting)))).
Proof.
  intros Hw Hf. induction Hw as [| op waiting Hop _ IH]; intros op0 st H0.
  - cbn [List.map app]. rewrite (poll_round _ _ _ _ H0), poll_done by exact Hf.
    cbn [List.length Cinema.rounds]. now rewrite app_nil_r.
  - cbn [List.map app]. rewrite (poll_round _ _ _ _ H0), (IH _ _ Hop).
    cbn [Cinema.prompt Cinema.aspectRatio Cinema.loading Cinema.videoUrl
         Cinema.effects List.length].
    rewrite <- app_assoc. reflexivity.
Qed.

Lemma poll_waiting (waiting : list Cinema.Operation) :
  Forall Cinema.pending waiting ->
  forall (op0 : Cinema.Operation) (st : Cinema.State),
    Cinema.pending op0 ->
    Cinema.poll (List.map Cinema.Resolved waiting) op0 st
    = (Cinema.Waiting,
       Cinema.mkState (Cinema.prompt st) (Cinema.aspectRatio st)
         (Cinema.loading st) (Cinema.videoUrl st) "Rendering frames..."
         (Cinema.effects st ++ Cinema.rounds (S (List.length waiting)))).
Proof.
  intros Hw. induction Hw as [| op waiting Hop _ IH]; intros op0 st H0.
  - unfold Cinema.pending in H0. cbn [List.map Cinema.poll]. rewrite H0.
    unfold Cinema.log, Cinema.set_status.
    cbn [Cinema.prompt Cinema.aspectRatio Cinema.loading Cinema.videoUrl
         Cinema.status Cinema.effects List.length Cinema.rounds].
    rewrite app_nil_r. unfold Cinema.round. now rewrite <- app_assoc.
  - cbn [List.map]. rewrite (poll_round _ _ _ _ H0), (IH _ _ Hop).
    cbn [Cinema.prompt Cinema.aspectRatio Cinema.loading Cinema.videoUrl
         Cinema.effects List.length].
    rewrite <- app_assoc. reflexivity.
Qed.

(** X14.  The loop of [generate] polls until the first operation that is
    done.  If the operation is already done there is no round at all;
    if [k] responses that are not done precede the first one that is,
    the loop makes exactly [k + 1] rounds, each a wait of 5000 ms
    followed by one call of [getVideosOperation], it ends with that
    operation, and it looks at no later response. *)
Theorem cinema_polls_until_done
  (waiting : list Cinema.Operation) (final op0 : Cinema.Operation)
  (rest : list (Cinema.outcome Cinema.Operation)) (st : Cinema.State) :
  Forall Cinema.pending waiting -> Cinema.done final = true ->
  Cinema.pending op0 ->
  Cinema.poll rest final st = (Cinema.Done final, st)
  /\ Cinema.poll (List.map Cinema.Resolved waiting
                  ++ Cinema.Resolved final :: rest) op0 st
     = (Cinema.Done final,
        Cinema.mkState (Cinema.prompt st) (Cinema.aspectRatio st)
          (Cinema.loading st) (Cinema.videoUrl st) "Rendering frames..."
          (Cinema.effects st ++ Cinema.rounds (S (List.length waiting)))).
Proof.
  intros Hw Hf H0. split.
  - now apply poll_done.
  - now apply poll_until_done.
Qed.

Lemma cinema_polls_until_done_witness :
  Cinema.poll [Cinema.Resolved rendering] rendered (cinema_idle "a cat")
  = (Cinema.Done rendered, cinema_idle "a cat")
  /\ Cinema.poll (List.map Cinema.Resolved [rendering; rendering]
                  ++ Cinema.Resolved rendered :: [Cinema.Resolved rendering])
                 rendering (cinema_idle "a cat")
     = (Cinema.Done rendered,
        Cinema.mkState "a cat" "16:9" false "" "Rendering frames..."
          [Cinema.Timeout 5000; Cinema.GetVideosOperation;
           Cinema.Timeout 5000; Cinema.GetVideosOperation;
           Cinema.Timeout 5000; Cinema.GetVideosOperation]).
Proof.
  apply (cinema_polls_until_done [rendering; rendering] rendered rendering
           [Cinema.Resolved rendering] (cinema_idle "a cat")).
  - repeat constructor.
  - reflexivity.
  - reflexivity.
Defined.

(** X15.  [generate] has no time limit.  As long as the responses say
    that the operation is not done, however many they are, [generate]
    has not ended: the tool is still loading, its status is
    [Rendering frames...], and one more round has been started for
    every response received. *)
Theorem cinema_never_gives_up
  (first : Cinema.Operation) (responses : list Cinema.Operation)
  (prompt : string) :
  Cinema.pending first -> Forall Cinema.pending responses ->
  Cinema.generate (cinema_host first responses) (cinema_idle prompt)
  = (Cinema.Polling,
     Cinema.mkState prompt "16:9" true "" "Rendering frames..."
       (Cinema.GenerateVideos prompt "16:9"
          :: Cinema.rounds (S (List.length responses)))).
Proof.
  intros H0 Hw. unfold Cinema.generate, cinema_host, cinema_idle.
  cbn [Cinema.key_check Cinema.aistudio Cinema.generateVideos
       Cinema.getVideosOperation].
  rewrite (poll_waiting responses Hw _ _ H0). reflexivity.
Qed.

Lemma cinema_never_gives_up_witness :
  Cinema.generate (cinema_host rendering [rendering; rendering; rendering])
                  (cinema_idle "a cat")
  = (Cinema.Polling,
     Cinema.mkState "a cat" "16:9" true "" "Rendering frames..."
       (Cinema.GenerateVideos "a cat" "16:9"
          :: Cinema.rounds (S (List.length [rendering; rendering; rendering])))).
Proof.
  apply (cinema_never_gives_up rendering [rendering; rendering; rendering]
           "a cat").
  - reflexivity.
  - repeat constructor.
Defined.

Lemma poll_frame (rs : list (Cinema.outcome Cinema.Operation)) :
  forall (op : Cinema.Operation) (st : Cinema.State),
    Cinema.loading (snd (Cinema.poll rs op st)) = Cinema.loading st
    /\ Cinema.videoUrl (snd (Cinema.poll rs op st)) = Cinema.videoUrl st
    /\ (Cinema.status (snd (Cinema.poll rs op st)) = Cinema.status st
        \/ Cinema.status (snd (Cinema.poll rs op st))
           = "Rendering frames..."%string).
Proof.
  induction rs as [| r rs IH]; intros op st; cbn [Cinema.poll];
    destruct (Cinema.done op); try (repeat split; auto; fail).
  destruct r as [op'|e]; [|repeat split; auto].
  destruct (IH op' (Cinema.log Cinema.GetVideosOperation
                      (Cinema.log (Cinema.Timeout 5000)
                         (Cinema.set_status "Rendering frames..." st))))
    as [H1 [H2 H3]].
  rewrite H1, H2. repeat split.
  right. destruct H3 as [H3|H3]; rewrite H3; reflexivity.
Qed.

Lemma or_else_nonempty (x : option string) (fallback : string) :
  fallback <> ""%string -> Cinema.or_else x fallback <> ""%string.
Proof.
  intros Hf. unfold Cinema.or_else. destruct x as [s|]; [|exact Hf].
  destruct (String.eqb_spec s ""); [exact Hf | assumption].
Qed.

(** The two ways in which the [catch] clause ends. *)
Lemma catch_clause_state (e : Thrown) (st : Cinema.State) :
  Cinema.videoUrl (snd (Cinema.catch_clause e st)) = Cinema.videoUrl st
  /\ Cinema.loading (snd (Cinema.catch_clause e st)) = Cinema.loading st
  /\ match e with
     | Nullish =>
         fst (Cinema.catch_clause e st) = Throw TypeError
         /\ Cinema.status (snd (Cinema.catch_clause e st)) = Cinema.status st
     | Value message =>
         fst (Cinema.catch_clause e st) = Ok tt
         /\ exists text : string,
              Cinema.status (snd (Cinema.catch_clause e st))
              = ("Error: " ++ text)%string
              /\ text <> ""%string
     end.
Proof.
  destruct e as [|message]; repeat split.
  exists (Cinema.or_else message "Generation failed"). split; [reflexivity|].
  apply or_else_nonempty. discriminate.
Qed.

Lemma key_check_frame (h : Cinema.Host) (st : Cinema.State) :
  Cinema.loading (snd (Cinema.key_check h st)) = Cinema.loading st
  /\ Cinema.videoUrl (snd (Cinema.key_check h st)) = Cinema.videoUrl st
  /\ Cinema.status (snd (Cinema.key_check h st)) = Cinema.status st.
Proof.
  unfold Cinema.key_check.
  destruct (Cinema.aistudio h) as [[[[|]|e1] [u|e2]]|]; repeat split.
Qed.

Lemma settle_catch (e : Thrown) (st : Cinema.State) :
  Cinema.settle (Cinema.catch_clause e st)
  = match e with
    | Nullish =>
        (Cinema.Broken,
         Cinema.mkState (Cinema.prompt st) (Cinema.aspectRatio st) false
           (Cinema.videoUrl st) (Cinema.status st)
           (Cinema.effects st ++ [Cinema.ConsoleError Nullish]))
    | Value message =>
        (Cinema.Finished,
         Cinema.mkState (Cinema.prompt st) (Cinema.aspectRatio st) false
           (Cinema.videoUrl st)
           ("Error: " ++ Cinema.or_else message "Generation failed")
           (Cinema.effects st ++ [Cinema.ConsoleError (Value message)]))
    end.
Proof. destruct e; reflexivity. Qed.

(** How [generate] ends after the [catch] clause, from a state with no
    video and a progress text. *)
Lemma settle_catch_ends (e : Thrown) (st st' : Cinema.State) (ended : Cinema.Ended) :
  Cinema.videoUrl st = ""%string -> In (Cinema.status st) Cinema.progress ->
  Cinema.settle (Cinema.catch_clause e st) = (ended, st') ->
  match ended with
  | Cinema.Finished =>
      Cinema.loading st' = false
      /\ Cinema.videoUrl st' = ""%string
      /\ exists text : string,
           Cinema.status st' = ("Error: " ++ text)%string /\ text <> ""%string
  | Cinema.Broken =>
      Cinema.loading st' = false
      /\ Cinema.videoUrl st' = ""%string
      /\ In (Cinema.status st') Cinema.progress
  | _ => False
  end.
Proof.
  intros Hu Hs. rewrite settle_catch.
  destruct e as [|message]; intros [= <- <-];
    cbn [Cinema.loading Cinema.videoUrl Cinema.status]; repeat split; auto.
  exists (Cinema.or_else message "Generation failed"). split; [reflexivity|].
  apply or_else_nonempty. discriminate.
Qed.

(** X16.  However [generate] ends, the state it leaves is one of four.
    When its promise is fulfilled, the tool is no longer loading, and
    either the download succeeded, [videoUrl] is the object URL and the
    status is still [Downloading...], or [videoUrl] is empty and the
    status is [Error: ] followed by a non-empty text (the message of
    the failure, [Generation failed] when it has none).  When [null] or
    [undefined] was thrown, the [catch] clause itself throws: the tool
    is no longer loading, it has no video, and its status stays at the
    progress text it had.  When the key check rejects, loading, video
    and status are untouched.  While the loop is polling, the tool is
    loading and has no video. *)
Theorem cinema_ends_loaded_or_failed
  (h : Cinema.Host) (st st' : Cinema.State) (ended : Cinema.Ended) :
  Cinema.generate h st = (ended, st') ->
  match ended with
  | Cinema.Finished =>
      Cinema.loading st' = false
      /\ ((exists objectUrl : string,
              Cinema.fetched h = Cinema.Resolved objectUrl
              /\ Cinema.videoUrl st' = objectUrl
              /\ Cinema.status st' = "Downloading..."%string)
          \/ (Cinema.videoUrl st' = ""%string
              /\ exists text : string,
                   Cinema.status st' = ("Error: " ++ text)%string
                   /\ text <> ""%string))
  | Cinema.Broken =>
      Cinema.loading st' = false
      /\ Cinema.videoUrl st' = ""%string
      /\ In (Cinema.status st') Cinema.progress
  | Cinema.Escaped _ =>
      Cinema.loading st' = Cinema.loading st
      /\ Cinema.videoUrl st' = Cinema.videoUrl st
      /\ Cinema.status st' = Cinema.status st
  | Cinema.Polling =>
      Cinema.loading st' = true /\ Cinema.videoUrl st' = ""%string
  end.
Proof.
  unfold Cinema.generate.
  pose proof (key_check_frame h st) as Hk.
  destruct (Cinema.key_check h st) as [[e|] st0]; cbn [snd] in Hk.
  { intros [= <- <-]. exact Hk. }
  clear Hk. set (st1 := Cinema.log _ _).
  assert (U1 : Cinema.videoUrl st1 = ""%string) by reflexivity.
  assert (L1 : Cinema.loading st1 = true) by reflexivity.
  assert (S1 : Cinema.status st1 = "Initializing Veo..."%string) by reflexivity.
  assert (finish : forall (e : Thrown) (s2 : Cinema.State),
             Cinema.videoUrl s2 = ""%string ->
             In (Cinema.status s2) Cinema.progress ->
             Cinema.settle (Cinema.catch_clause e s2) = (ended, st') ->
             match ended with
             | Cinema.Finished =>
                 Cinema.loading st' = false
                 /\ ((exists objectUrl : string,
                         Cinema.fetched h = Cinema.Resolved objectUrl
                         /\ Cinema.videoUrl st' = objectUrl
                         /\ Cinema.status st' = "Downloading..."%string)
                     \/ (Cinema.videoUrl st' = ""%string
                         /\ exists text : string,
                              Cinema.status st' = ("Error: " ++ text)%string
                              /\ text <> ""%string))
             | Cinema.Broken =>
                 Cinema.loading st' = false
                 /\ Cinema.videoUrl st' = ""%string
                 /\ In (Cinema.status st') Cinema.progress
             | Cinema.Escaped _ =>
                 Cinema.loading st' = Cinema.loading st
                 /\ Cinema.videoUrl st' = Cinema.videoUrl st
                 /\ Cinema.status st' = Cinema.status st
             | Cinema.Polling =>
                 Cinema.loading st' = true /\ Cinema.videoUrl st' = ""%string
             end).
  { intros e s2 Hu Hs H.
    pose proof (settle_catch_ends e s2 st' ended Hu Hs H) as R.
    destruct ended; try contradiction; [|exact R].
    destruct R as [R1 [R2 R3]]. split; [exact R1|]. right. split; assumption. }
  destruct (Cinema.generateVideos h) as [op0|e].
  - pose proof (poll_frame (Cinema.getVideosOperation h) op0 st1) as [Hl [Hu Hs]].
    destruct (Cinema.poll (Cinema.getVideosOperation h) op0 st1)
      as [[op|e|] st2]; cbn [snd] in Hl, Hu, Hs.
    + assert (P2 : In (Cinema.status st2) Cinema.progress).
      { destruct Hs as [Hs|Hs]; rewrite Hs, ?S1; cbn; auto. }
      unfold Cinema.download.
      destruct (Cinema.uri op) as [[|c u]|].
      * apply finish; [congruence | exact P2].
      * destruct (Cinema.fetched h) as [objectUrl|e] eqn:Hf.
        -- intros [= <- <-]. split; [reflexivity|].
           left. exists objectUrl. repeat split.
        -- apply finish; [cbn; congruence | cbn; auto].
      * apply finish; [congruence | exact P2].
    + apply finish; [congruence|].
      destruct Hs as [Hs|Hs]; rewrite Hs, ?S1; cbn; auto.
    + intros [= <- <-]. split; congruence.
  - apply finish; [exact U1 | rewrite S1; cbn; auto].
Qed.

(** A host whose download throws [null]: [generate] is rejected, and
    the status stays at [Downloading...]. *)
Lemma cinema_ends_loaded_or_failed_witness :
  Cinema.loading
    (snd (Cinema.generate (cinema_host_null rendering [rendering; rendered])
                          (cinema_idle "a cat"))) = false
  /\ Cinema.videoUrl
       (snd (Cinema.generate (cinema_host_null rendering [rendering; rendered])
                             (cinema_idle "a cat"))) = ""%string
  /\ In (Cinema.status
           (snd (Cinema.generate (cinema_host_null rendering [rendering; rendered])
                                 (cinema_idle "a cat"))))
        Cinema.progress.
Proof.
  apply (cinema_ends_loaded_or_failed
           (cinema_host_null rendering [rendering; rendered])
           (cinema_idle "a cat")
           (snd (Cinema.generate (cinema_host_null rendering [rendering; rendered])
                                 (cinema_idle "a cat")))
           Cinema.Broken).
  reflexivity.
Defined.

(** * Properties of the image editor *)

Lemma split_on_free (sep : ascii) (s : string) :
  free_of sep s -> split_on sep s = [s].
Proof.
  induction s as [| c r IH]; cbn [free_of split_on]; [reflexivity|].
  intros [Hc Hr]. now rewrite Hc, (IH Hr).
Qed.

Lemma split_on_first (sep : ascii) (header rest : string) :
  free_of sep header ->
  split_on sep (header ++ String sep rest) = header :: split_on sep rest.
Proof.
  induction header as [| c r IH]; cbn [free_of String.append split_on].
  - intros _. now rewrite Ascii.eqb_refl.
  - intros [Hc Hr]. now rewrite Hc, (IH Hr).
Qed.

(** X17.  The image that [edit] sends is the text that follows the first
    comma of the preview.  For a preview of the form
    [header,payload] in which neither part holds a comma (such as the
    data URL that [readAsDataURL] produces) and a prompt that is not
    empty, [edit] sets [loading] and makes one request, which carries
    exactly [payload] and the prompt, always declared as [image/jpeg]. *)
Theorem editor_sends_payload (header payload : string) (st : Editor.State) :
  Editor.imagePreview st = (header ++ String "," payload)%string ->
  free_of "," header -> free_of "," payload ->
  Editor.prompt st <> ""%string ->
  Editor.edit_begin st
  = Some (Editor.mkState (Editor.prompt st) (Editor.imagePreview st)
            (Editor.result st) true
            (Editor.effects st
             ++ [Editor.GenerateContent "image/jpeg" (Some payload)
                   (Editor.prompt st)])).
Proof.
  intros Hi Hh Hp Hq. unfold Editor.edit_begin.
  destruct (String.eqb_spec (Editor.prompt st) ""); [contradiction|].
  destruct (String.eqb_spec (Editor.imagePreview st) "") as [E|_].
  - rewrite Hi in E. destruct header; discriminate.
  - cbn [orb]. unfold Editor.log, Editor.set_loading, Editor.base64Data.
    cbn [Editor.prompt Editor.imagePreview Editor.result Editor.loading
         Editor.effects].
    rewrite Hi, (split_on_first _ _ _ Hh), (split_on_free _ _ Hp).
    reflexivity.
Qed.

Lemma editor_sends_payload_witness :
  Editor.edit_begin
    (Editor.mkState "sketch" "data:image/png;base64,iVBOR" "" false [])
  = Some (Editor.mkState "sketch" "data:image/png;base64,iVBOR" "" true
            [Editor.GenerateContent "image/jpeg" (Some "iVBOR"%string)
               "sketch"]).
Proof.
  apply (editor_sends_payload "data:image/png;base64" "iVBOR"
           (Editor.mkState "sketch" "data:image/png;base64,iVBOR" "" false [])).
  - reflexivity.
  - cbn. tauto.
  - cbn. tauto.
  - discriminate.
Defined.

Lemma find_image_first (before after : list Editor.Part) (part : Editor.Part)
  (inline : Editor.InlineData) (st : Editor.State) :
  Forall Editor.plain before -> Editor.inlineData part = Some inline ->
  Editor.find_image (before ++ part :: after) st
  = (true,
     Editor.set_result
       ("data:image/png;base64," ++ interpolate (Editor.data inline)) st).
Proof.
  intros Hb Hp. induction Hb as [| p before Hp0 _ IH];
    cbn [app Editor.find_image].
  - now rewrite Hp.
  - unfold Editor.plain in Hp0. now rewrite Hp0.
Qed.

Lemma find_image_none (ps : list Editor.Part) (st : Editor.State) :
  Forall Editor.plain ps -> Editor.find_image ps st = (false, st).
Proof.
  induction 1 as [| p ps Hp _ IH]; cbn [Editor.find_image]; [reflexivity|].
  unfold Editor.plain in Hp. now rewrite Hp.
Qed.

(** X18.  Of the parts of a response, the first one that has inline data
    decides the result; the parts after it are not looked at.  The
    result becomes [data:image/png;base64,] followed by that data, the
    tool stops loading, and nothing is alerted, even when the response
    has text as well. *)
Theorem editor_first_image_wins
  (before after : list Editor.Part) (part : Editor.Part)
  (inline : Editor.InlineData) (text : option string) (st : Editor.State) :
  Forall Editor.plain before -> Editor.inlineData part = Some inline ->
  Editor.edit_end
    (Editor.Resolved {| Editor.parts := Some (before ++ part :: after);
                        Editor.text := text |}) st
  = Editor.mkState (Editor.prompt st) (Editor.imagePreview st)
      ("data:image/png;base64," ++ interpolate (Editor.data inline))
      false (Editor.effects st).
Proof.
  intros Hb Hp. unfold Editor.edit_end. cbn [Editor.parts].
  now rewrite (find_image_first before after part inline st Hb Hp).
Qed.

Lemma editor_first_image_wins_witness :
  Editor.edit_end
    (Editor.Resolved
       {| Editor.parts :=
            Some ([ {| Editor.inlineData := None |} ]
                  ++ {| Editor.inlineData :=
                          Some {| Editor.data := Some "AAA"%string |} |}
                  :: [ {| Editor.inlineData :=
                            Some {| Editor.data := Some "BBB"%string |} |} ]);
          Editor.text := Some "done"%string |})
    (Editor.mkState "sketch" "data:image/png;base64,iVBOR" "" true [])
  = Editor.mkState "sketch" "data:image/png;base64,iVBOR"
      "data:image/png;base64,AAA" false [].
Proof.
  apply (editor_first_image_wins
           [ {| Editor.inlineData := None |} ]
           [ {| Editor.inlineData :=
                  Some {| Editor.data := Some "BBB"%string |} |} ]
           {| Editor.inlineData := Some {| Editor.data := Some "AAA"%string |} |}
           {| Editor.data := Some "AAA"%string |}
           (Some "done"%string)
           (Editor.mkState "sketch" "data:image/png;base64,iVBOR" "" true [])).
  - repeat constructor.
  - reflexivity.
Defined.

(** X19.  When no part of the response has inline data (or the response
    has no parts), [edit] leaves the result as it was, so an earlier
    result stays on display; it stops loading, and it raises one alert
    exactly when the response has a non-empty text. *)
Theorem editor_without_image
  (ps : option (list Editor.Part)) (text : option string) (st : Editor.State) :
  Forall Editor.plain (match ps with Some l => l | None => [] end) ->
  Editor.edit_end
    (Editor.Resolved {| Editor.parts := ps; Editor.text := text |}) st
  = Editor.mkState (Editor.prompt st) (Editor.imagePreview st)
      (Editor.result st) false
      (Editor.effects st
       ++ if nonempty text
          then [Editor.Alert ("Model returned text instead of image: "
                              ++ interpolate text)]
          else []).
Proof.
  intros Hp. unfold Editor.edit_end. cbn [Editor.parts Editor.text].
  rewrite (find_image_none _ st Hp). cbn [negb andb].
  destruct (nonempty text); cbn; [reflexivity|].
  now rewrite app_nil_r.
Qed.

Lemma editor_without_image_witness :
  Editor.edit_end
    (Editor.Resolved {| Editor.parts := Some [ {| Editor.inlineData := None |} ];
                        Editor.text := Some "no"%string |})
    (Editor.mkState "sketch" "data:image/png;base64,iVBOR" "old" true [])
  = Editor.mkState "sketch" "data:image/png;base64,iVBOR" "old" false
      ([] ++ [Editor.Alert "Model returned text instead of image: no"]).
Proof.
  apply (editor_without_image
           (Some [ {| Editor.inlineData := None |} ]) (Some "no"%string)
           (Editor.mkState "sketch" "data:image/png;base64,iVBOR" "old" true [])).
  repeat constructor.
Defined.

(** * Properties of the search tool *)

(** X20.  A search that fails keeps the sources of the search before it.
    After a search that succeeded with response [resp] and a second
    one, for any query that is not empty, that fails, the tool shows the
    text [Search failed.] over the sources of [resp], and is not
    loading. *)
Theorem scout_failure_keeps_sources
  (resp : Scout.Response) (pos pos' : option Scout.Location) (q : string)
  (st : Scout.State) :
  Scout.query st <> ""%string -> q <> ""%string ->
  let st1 := Scout.search pos (Scout.Resolved resp) st in
  let st2 := Scout.search pos' Scout.Rejected (Scout.input q st1) in
  Scout.results st2
  = {| Scout.results_text := "Search failed.";
       Scout.chunks := match Scout.groundingChunks resp with
                       | Some cs => cs
                       | None => []
                       end |}
  /\ Scout.loading st2 = false.
Proof.
  intros Hq Hq'. unfold Scout.search, Scout.search_begin.
  cbn [Scout.query Scout.set_loading Scout.useMaps].
  destruct (String.eqb_spec (Scout.query st) ""); [contradiction|].
  assert (E : forall s,
             Scout.query (Scout.input q s) = q) by reflexivity.
  destruct (Scout.useMaps st) eqn:Hm; cbn zeta; rewrite E;
    (destruct (String.eqb_spec q ""); [contradiction|]);
    destruct pos, pos'; cbn; rewrite ?Hm; cbn; split; reflexivity.
Qed.

Lemma scout_failure_keeps_sources_witness :
  let st := Scout.mkState "cafes" false
              {| Scout.results_text := ""; Scout.chunks := [] |} false [] in
  let resp := {| Scout.text := Some "Two cafes."%string;
                 Scout.groundingChunks :=
                   Some [ {| Scout.web := None; Scout.maps := None |} ] |} in
  let st1 := Scout.search None (Scout.Resolved resp) st in
  let st2 := Scout.search None Scout.Rejected (Scout.input "bars" st1) in
  Scout.results st2
  = {| Scout.results_text := "Search failed.";
       Scout.chunks := [ {| Scout.web := None; Scout.maps := None |} ] |}
  /\ Scout.loading st2 = false.
Proof.
  apply (scout_failure_keeps_sources
           {| Scout.text := Some "Two cafes."%string;
              Scout.groundingChunks :=
                Some [ {| Scout.web := None; Scout.maps := None |} ] |}
           None None "bars"
           (Scout.mkState "cafes" false
              {| Scout.results_text := ""; Scout.chunks := [] |} false []));
    discriminate.
Defined.

(** X21.  The position is asked for in maps mode only, and passed on
    only when it was granted.  For a query that is not empty: outside
    maps mode a search makes one request, with the search tool and no
    position, and never asks for the position; in maps mode it asks
    once, and then makes one request with the maps tool, carrying the
    position when it was granted and none, after a warning, when it was
    refused.  A refusal does not fail the search. *)
Theorem scout_position_use
  (pos : option Scout.Location) (resp : Scout.Response) (st : Scout.State) :
  Scout.query st <> ""%string ->
  let st' := Scout.search pos (Scout.Resolved resp) st in
  Scout.effects st'
  = Scout.effects st
    ++ (if Scout.useMaps st
        then Scout.GetCurrentPosition
             :: match pos with
                | Some p => [Scout.GenerateContent (Scout.query st)
                               [Scout.googleMaps] (Some p)]
                | None => [Scout.ConsoleWarn "Location denied";
                           Scout.GenerateContent (Scout.query st)
                             [Scout.googleMaps] None]
                end
        else [Scout.GenerateContent (Scout.query st)
                [Scout.googleSearch] None])
  /\ Scout.results_text (Scout.results st')
     = match Scout.text resp with Some s => s | None => ""%string end.
Proof.
  intros Hq. unfold Scout.search, Scout.search_begin.
  cbn [Scout.query Scout.set_loading Scout.useMaps].
  destruct (String.eqb_spec (Scout.query st) ""); [contradiction|].
  destruct (Scout.useMaps st) eqn:Hm; cbn zeta.
  - destruct pos as [[lat lng]|]; cbn; rewrite ?Hm, <- ?app_assoc; cbn;
      split; reflexivity.
  - cbn. rewrite Hm. split; reflexivity.
Qed.

Lemma scout_position_use_witness :
  let st := Scout.mkState "cafes" true
              {| Scout.results_text := ""; Scout.chunks := [] |} false [] in
  let resp := {| Scout.text := Some "Two cafes."%string;
                 Scout.groundingChunks := None |} in
  let st' := Scout.search None (Scout.Resolved resp) st in
  Scout.effects st'
  = [] ++ [Scout.GetCurrentPosition; Scout.ConsoleWarn "Location denied";
           Scout.GenerateContent "cafes" [Scout.googleMaps] None]
  /\ Scout.results_text (Scout.results st') = "Two cafes."%string.
Proof.
  apply (scout_position_use None
           {| Scout.text := Some "Two cafes."%string;
              Scout.groundingChunks := None |}
           (Scout.mkState "cafes" true
              {| Scout.results_text := ""; Scout.chunks := [] |} false []));
    discriminate.
Defined.

(** X22.  The mode is read again after the wait for the position.  When
    the user leaves maps mode while the position is pending, the
    request that follows uses the search tool and still carries the
    position. *)
Theorem scout_toggle_while_locating
  (p : Scout.Location) (st st1 : Scout.State) :
  Scout.search_begin st = Scout.AwaitPosition st1 ->
  Scout.effects (Scout.search_located (Some p) (Scout.toggle st1))
  = Scout.effects st
    ++ [Scout.GetCurrentPosition;
        Scout.GenerateContent (Scout.query st) [Scout.googleSearch] (Some p)].
Proof.
  unfold Scout.search_begin.
  destruct (Scout.query st =? "")%string; [discriminate|].
  cbn [Scout.useMaps Scout.set_loading].
  destruct (Scout.useMaps st) eqn:Hm; [|discriminate].
  intros [= <-]. destruct p as [lat lng]. cbn. rewrite Hm, <- app_assoc.
  reflexivity.
Qed.

Lemma scout_toggle_while_locating_witness :
  Scout.effects
    (Scout.search_located (Some {| Scout.latitude := 48; Scout.longitude := 2 |})
       (Scout.toggle
          (Scout.mkState "cafes" true
             {| Scout.results_text := ""; Scout.chunks := [] |} true
             [Scout.GetCurrentPosition])))
  = [] ++ [Scout.GetCurrentPosition;
           Scout.GenerateContent "cafes" [Scout.googleSearch]
             (Some {| Scout.latitude := 48; Scout.longitude := 2 |})].
Proof.
  apply (scout_toggle_while_locating
           {| Scout.latitude := 48; Scout.longitude := 2 |}
           (Scout.mkState "cafes" true
              {| Scout.results_text := ""; Scout.chunks := [] |} false [])
           (Scout.mkState "cafes" true
              {| Scout.results_text := ""; Scout.chunks := [] |} true
              [Scout.GetCurrentPosition])).
  reflexivity.
Defined.

(** * Properties of the character image *)




Lemma prompt_ok (character mood : string) :
  exists charDesc moodDesc,
    CharacterImage.prompt character mood
    = Ok (CharacterImage.render charDesc moodDesc).
Proof.
  unfold CharacterImage.prompt.
  change (CharacterImage.get CharacterImage.CHARACTER_ATTRIBUTES "dog")
    with (CharacterImage.Own
            (A := CharacterImage.Attributes)
            {| CharacterImage.visualDescriptor := "A beagle with floppy ears, a wet black nose, and an alert expression. Wears a small detective-style hat." |}).
  destruct (CharacterImage.get CharacterImage.CHARACTER_ATTRIBUTES character);
    destruct (CharacterImage.get CharacterImage.MOOD_ATTRIBUTES mood);
    cbn [CharacterImage.or_else CharacterImage.descriptor rbind];
    eexists; eexists; reflexivity.
Qed.





(** X25.  One call of [generate], for any character and mood, never
    leaves through an exception of the prompt: it clears image and
    error and makes exactly one request.  However the request settles,
    the component ends not loading and never holds both an image and an
    error: it holds an image exactly when the response held image
    bytes, and an error that is not empty when the request failed with
    a value other than [null] and [undefined].  For these two the
    [catch] clause itself throws, and [generate] is rejected with
    neither image nor error set. *)
Theorem character_generate_once
  (character mood : string) (o : CharacterImage.outcome)
  (st : CharacterImage.State) :
  exists p,
    CharacterImage.prompt character mood = Ok p
    /\ CharacterImage.generate_begin character mood st
       = (Ok tt,
          CharacterImage.mkState "" true ""
            (CharacterImage.effects st ++ [CharacterImage.GenerateImages p]))
    /\ let ended :=
         CharacterImage.generate_end o
           (snd (CharacterImage.generate_begin character mood st)) in
       CharacterImage.isLoading (snd ended) = false
       /\ CharacterImage.effects (snd ended)
          = CharacterImage.effects st ++ [CharacterImage.GenerateImages p]
       /\ match o with
          | CharacterImage.Resolved imageBytes =>
              fst ended = Ok tt
              /\ CharacterImage.error (snd ended) = ""%string
              /\ CharacterImage.imageUrl (snd ended)
                 = if nonempty imageBytes
                   then ("data:image/jpeg;base64,"
                         ++ interpolate imageBytes)%string
                   else ""%string
          | CharacterImage.Rejected (Value message) =>
              fst ended = Ok tt
              /\ CharacterImage.imageUrl (snd ended) = ""%string
              /\ CharacterImage.error (snd ended)
                 = Cinema.or_else message "Failed to generate"
              /\ CharacterImage.error (snd ended) <> ""%string
          | CharacterImage.Rejected Nullish =>
              fst ended = Throw TypeError
              /\ CharacterImage.imageUrl (snd ended) = ""%string
              /\ CharacterImage.error (snd ended) = ""%string
          end.
Proof.
  destruct (prompt_ok character mood) as [c [m E]].
  exists (CharacterImage.render c m). split; [exact E|].
  unfold CharacterImage.generate_begin. rewrite E. cbn.
  split; [reflexivity|].
  destruct o as [imageBytes|[|message]]; cbn.
  - destruct (nonempty imageBytes); cbn; repeat split; reflexivity.
  - repeat split.
  - repeat split. now apply or_else_nonempty.
Qed.

(** X26.  Two calls of [generate] that overlap, as when the character
    changes while a request is pending, share the three cells.  When
    the first request to settle fails, with an [Error] or with any
    value other than [null] and [undefined], and the second succeeds
    with image bytes, the component stops loading at the failure, while
    the other request is still pending, and ends showing the image and
    the error together. *)
Theorem character_overlapping_calls
  (character mood character' mood' : string) (message : option string)
  (imageBytes : string) (st : CharacterImage.State) :
  imageBytes <> ""%string ->
  let st1 := snd (CharacterImage.generate_begin character mood st) in
  let st2 := snd (CharacterImage.generate_begin character' mood' st1) in
  let st3 :=
    snd (CharacterImage.generate_end
           (CharacterImage.Rejected (Value message)) st2) in
  let st4 :=
    snd (CharacterImage.generate_end
           (CharacterImage.Resolved (Some imageBytes)) st3) in
  CharacterImage.isLoading st2 = true
  /\ CharacterImage.isLoading st3 = false
  /\ CharacterImage.error st4 <> ""%string
  /\ CharacterImage.imageUrl st4
     = ("data:image/jpeg;base64," ++ imageBytes)%string.
Proof.
  intros Hb.
  destruct (prompt_ok character mood) as [c [m E]].
  destruct (prompt_ok character' mood') as [c' [m' E']].
  unfold CharacterImage.generate_begin. rewrite E. cbn. rewrite E'. cbn.
  destruct imageBytes as [| a r]; [contradiction|]. cbn.
  repeat split. now apply or_else_nonempty.
Qed.

(** The first request fails with a value that has no message. *)
Lemma character_overlapping_calls_witness :
  let st := CharacterImage.mkState "" false "" [] in
  let st1 := snd (CharacterImage.generate_begin "dog" "Happy" st) in
  let st2 := snd (CharacterImage.generate_begin "cat" "Happy" st1) in
  let st3 :=
    snd (CharacterImage.generate_end
           (CharacterImage.Rejected (Value None)) st2) in
  let st4 :=
    snd (CharacterImage.generate_end
           (CharacterImage.Resolved (Some "AAA"%string)) st3) in
  CharacterImage.isLoading st2 = true
  /\ CharacterImage.isLoading st3 = false
  /\ CharacterImage.error st4 <> ""%string
  /\ CharacterImage.imageUrl st4 = ("data:image/jpeg;base64," ++ "AAA")%string.
Proof.
  apply (character_overlapping_calls "dog" "Happy" "cat" "Happy" None "AAA"
           (CharacterImage.mkState "" false "" [])).
  discriminate.
Defined.
